(** * CPMpy backend adapters: OR-Tools (CP-SAT) and Pumpkin

    A shallow embedding of [cpmpy/solvers/ortools.py] and
    [cpmpy/solvers/pumpkin.py].  The adapters are Python classes whose
    methods mutate the adapter object and call a native solver; here every
    method is a computation in a state-and-exception monad over a record
    that holds the adapter's attributes, the part of the Python heap the
    methods touch (the [_value] slot of every variable object, the counters
    behind fresh variable names) and a log of the calls issued to the
    native solver.  An exception keeps the state reached so far, as a
    Python [raise] does.

    The native engines are external: what they answer (a status, a
    solution, a core) is an argument of [solve] and [get_core]. *)

From Stdlib Require Import ZArith QArith String.
From stdpp Require Import gmap strings list fin_maps pretty.

#[local] Open Scope string_scope.
#[local] Open Scope list_scope.
#[local] Open Scope Z_scope.
Set Warnings "-register-all".

(** ** Exceptions and the adapter monad *)

Inductive exn :=
| ValueError
| TypeError
| NotImplementedError
| NotSupportedError
| AssertionError
| AttributeError
| KeyError
| UnboundLocalError
| IndexError
| RecursionError
| Exception.           (* a plain [Exception(...)] *)

Inductive res (A : Type) :=
| Ok (a : A)
| Raise (e : exn).
Arguments Ok {A} a.
Arguments Raise {A} e.

Definition M (S A : Type) : Type := S → res A * S.

Definition ret {S A} (a : A) : M S A := λ s, (Ok a, s).

Definition raise {S A} (e : exn) : M S A := λ s, (Raise e, s).

Definition bind {S A B} (m : M S A) (k : A → M S B) : M S B :=
  λ s, match m s with
       | (Ok a, s') => k a s'
       | (Raise e, s') => (Raise e, s')
       end.

Definition gets {S A} (f : S → A) : M S A := λ s, (Ok (f s), s).

Definition modify {S} (f : S → S) : M S unit := λ s, (Ok tt, f s).

Notation "'let*' x ':=' c1 'in' c2" := (bind c1 (λ x, c2))
  (at level 10, x pattern, c1 at level 100, c2 at level 200).
Notation "c1 ;; c2" := (bind c1 (λ _, c2))
  (at level 100, right associativity).

(** [assert cond] *)
Definition assert {S} (cond : bool) : M S unit :=
  if cond then ret tt else raise AssertionError.

(** [for x in l: body(x)] *)
Fixpoint for_each {S A} (l : list A) (body : A → M S unit) : M S unit :=
  match l with
  | [] => ret tt
  | x :: l' => body x ;; for_each l' body
  end.

(** [[f(x) for x in l]] *)
Definition mapM {S A B} (f : A → M S B) : list A → M S (list B) :=
  fix go (l : list A) : M S (list B) :=
    match l with
    | [] => ret []
    | x :: l' => let* y := f x in let* ys := go l' in ret (y :: ys)
    end.

(** [a, b = l]: unpacking a sequence of the wrong length is a ValueError. *)
Definition unpack2 {S A} (l : list A) : M S (A * A) :=
  match l with
  | [a; b] => ret (a, b)
  | _ => raise ValueError
  end.

Definition exec {S A} (m : M S A) (s : S) : S := snd (m s).
Definition outcome {S A} (m : M S A) (s : S) : res A := fst (m s).

(** ** Expression model ([cpmpy/expressions], only the shapes the adapters
    dispatch on) *)

(** Variables.  A [NegBoolView] is the view [~bv] on the Boolean variable
    named [bv]; in Python it is a subclass of [_BoolVarImpl].  [NumVarImpl]
    stands for any other [_NumVarImpl], a kind neither adapter knows.

    A variable is identified here by its kind, its name and its bounds.
    The dicts and sets of the adapters find a variable by its name; the
    two agree when no two variables in use share a name, which is what
    CPMpy asks of its user and what this model takes for granted. *)
Inductive cpm_variable :=
| BoolVarImpl (name : string)
| IntVarImpl (name : string) (lb ub : Z)
| NegBoolView (bv : string)
| NumVarImpl (name : string).

#[global] Instance cpm_variable_eq_dec : EqDecision cpm_variable.
Proof. solve_decision. Defined.

Definition cpm_variable_enc (v : cpm_variable)
  : string * (Z * Z) + string + (string + string) :=
  match v with
  | IntVarImpl n lb ub => inl (inl (n, (lb, ub)))
  | NumVarImpl n => inl (inr n)
  | BoolVarImpl n => inr (inl n)
  | NegBoolView n => inr (inr n)
  end.

Definition cpm_variable_dec (x : string * (Z * Z) + string + (string + string))
  : cpm_variable :=
  match x with
  | inl (inl (n, (lb, ub))) => IntVarImpl n lb ub
  | inl (inr n) => NumVarImpl n
  | inr (inl n) => BoolVarImpl n
  | inr (inr n) => NegBoolView n
  end.

#[global] Instance cpm_variable_countable : Countable cpm_variable.
Proof. apply (inj_countable' cpm_variable_enc cpm_variable_dec). by intros []. Defined.

(** [isinstance(v, _BoolVarImpl)] *)
Definition is_BoolVarImpl (v : cpm_variable) : bool :=
  match v with
  | BoolVarImpl _ | NegBoolView _ => true
  | _ => false
  end.

(** [str(v)] *)
Definition var_name (v : cpm_variable) : string :=
  match v with
  | BoolVarImpl n | IntVarImpl n _ _ | NumVarImpl n => n
  | NegBoolView n => "~" +:+ n
  end.

Inductive Expr :=
| Num (n : Z)                                   (* a Python number: [is_num] *)
| Var (v : cpm_variable)
| Lst (l : list Expr)                           (* a Python list or array *)
| Operator (name : string) (args : list Expr)
| Comparison (name : string) (lhs rhs : Expr)
| GlobalConstraint (name : string) (args : list Expr)
| BoolVal (b : bool)
| DirectConstraint (name : string) (args : list Expr).

Definition is_num (e : Expr) : bool :=
  match e with Num _ => true | _ => false end.

(** The value stored in a variable's [_value] slot.  [None] in Python is
    the absence of an entry in the [_value] map of the state. *)
Inductive pyvalue :=
| PyInt (n : Z)
| PyBool (b : bool).

(** [bool(v)] *)
Definition truthy (v : pyvalue) : bool :=
  match v with
  | PyInt n => negb (n =? 0)
  | PyBool b => b
  end.

(** Modelled from the spec: the solver-independent status of
    [solver_interface.py], which is not among the sources ("Solver status:
    tagged result: one of FEASIBLE, OPTIMAL, UNSATISFIABLE, UNKNOWN, plus
    wall-clock runtime").  A fresh [SolverStatus] holds no classification
    yet: [exitstatus = None]. *)
Inductive ExitStatus := FEASIBLE | OPTIMAL | UNSATISFIABLE | UNKNOWN.

#[global] Instance ExitStatus_eq_dec : EqDecision ExitStatus.
Proof. solve_decision. Defined.

Record SolverStatus := {
  exitstatus : option ExitStatus;
  runtime : option Q
}.

Definition fresh_SolverStatus : SolverStatus :=
  {| exitstatus := None; runtime := None |}.

(** Modelled from the spec: [SolverInterface._solve_return], not among the
    sources ("Returns whether a solution is available (FEASIBLE or
    OPTIMAL)"). *)
Definition _solve_return (s : SolverStatus) : bool :=
  match exitstatus s with
  | Some OPTIMAL | Some FEASIBLE => true
  | _ => false
  end.

(** Modelled from the spec: the CSE map ("mapping from a canonical
    structural key to a previously created auxiliary Variable").  [None] is
    Python's [csemap=None]: no map is shared. *)
Definition Csemap : Type := option (list (Expr * cpm_variable)).

(** The stages of the transformation pipeline, in the vocabulary of the
    spec (section 4.1) and of [cpmpy/transformations]. *)
Inductive Stage :=
| ToplevelList            (* toplevel_list *)
| Safening                (* no_partial_functions *)
| Decomposition           (* decompose_in_tree *)
| Flattening              (* flatten_constraint *)
| ReifyRewrite            (* reify_rewrite *)
| NumexprEquality         (* only_numexpr_equality *)
| BvReifies               (* only_bv_reifies *)
| OnlyImplies             (* only_implies *)
| CanonicalComparison.    (* canonical_comparison *)

#[global] Instance Stage_eq_dec : EqDecision Stage.
Proof. solve_decision. Defined.

(** The functions of [cpmpy/transformations] and [cpmpy/expressions] the
    adapters call.  Their files are not among the sources, so the adapters
    are parametrised by them: every theorem below holds whatever they
    compute. *)
Record CpmLib := {
  get_variables : Expr → gset cpm_variable;
  toplevel_list : Expr → option bool → list Expr;  (* second argument: merge_and, if given *)
  no_partial_functions : list Expr → list string → list Expr;
  decompose_in_tree : list Expr → list string → Csemap → list Expr * Csemap;
  flatten_constraint : list Expr → Csemap → list Expr * Csemap;
  reify_rewrite : list Expr → list string → Csemap → list Expr * Csemap;
  only_numexpr_equality : list Expr → list string → Csemap → list Expr * Csemap;
  only_bv_reifies : list Expr → Csemap → list Expr * Csemap;
  only_implies : list Expr → Csemap → list Expr * Csemap;
  canonical_comparison : list Expr → list Expr;
  flatten_objective : Expr → Expr * list Expr;
  get_or_make_var : Expr → Csemap → (Expr * list Expr) * Csemap;
  get_bounds : Expr → Z * Z;
  expr_eq : Expr → Expr → Expr;                 (* [a == b] *)
  expr_add : Expr → Expr → Expr;                (* [a + b] *)
  expr_mul : Expr → Expr → Expr;                (* [a * b] *)
  expr_neg : Expr → Expr;                       (* [-a] *)
  intvar_name : nat → string;                   (* name of the n-th [intvar] *)
  boolvar_name : nat → string                   (* name of the n-th [boolvar] *)
}.

(** [a in l] for strings *)
Definition mem_string (a : string) (l : list string) : bool :=
  bool_decide (a ∈ l).

(** [sub in s] for strings *)
Definition contains (sub s : string) : bool :=
  match String.index 0 sub s with Some _ => true | None => false end.

(** Whether one stage comes before another in a pipeline trace: the first
    run of [a] is followed, later, by a run of [b]. *)
Fixpoint runs_before (a b : Stage) (trace : list Stage) : bool :=
  match trace with
  | [] => false
  | s :: rest => if decide (s = a) then bool_decide (b ∈ rest) else runs_before a b rest
  end.

(** ** What every adapter inherits

    The attributes [SolverInterface.__init__] creates (the class is not
    among the sources; the fields are those the two adapters read and
    write), the slice of the Python heap their methods touch, and one ghost
    field: [pipeline_trace] records which transformation [transform()] has
    run, in order, and is read by no method. *)
Record Base (H : Type) := {
  cpm_status : SolverStatus;
  user_vars : gset cpm_variable;
  _varmap : gmap cpm_variable H;
  _csemap : Csemap;
  _value : gmap cpm_variable pyvalue;         (* [v._value] of every variable *)
  iv_counter : nat;                           (* integer variables named so far *)
  bv_counter : nat;                           (* Boolean variables named so far *)
  pipeline_trace : list Stage
}.
Arguments cpm_status {H} _.
Arguments user_vars {H} _.
Arguments _varmap {H} _.
Arguments _csemap {H} _.
Arguments _value {H} _.
Arguments iv_counter {H} _.
Arguments bv_counter {H} _.
Arguments pipeline_trace {H} _.

Definition set_cpm_status {H} (x : SolverStatus) (st : Base H) : Base H :=
  {| cpm_status := x; user_vars := user_vars st; _varmap := _varmap st;
     _csemap := _csemap st; _value := _value st; iv_counter := iv_counter st;
     bv_counter := bv_counter st; pipeline_trace := pipeline_trace st |}.

Definition set_user_vars {H} (x : gset cpm_variable) (st : Base H) : Base H :=
  {| cpm_status := cpm_status st; user_vars := x; _varmap := _varmap st;
     _csemap := _csemap st; _value := _value st; iv_counter := iv_counter st;
     bv_counter := bv_counter st; pipeline_trace := pipeline_trace st |}.

Definition set__varmap {H} (x : gmap cpm_variable H) (st : Base H) : Base H :=
  {| cpm_status := cpm_status st; user_vars := user_vars st; _varmap := x;
     _csemap := _csemap st; _value := _value st; iv_counter := iv_counter st;
     bv_counter := bv_counter st; pipeline_trace := pipeline_trace st |}.

Definition set__csemap {H} (x : Csemap) (st : Base H) : Base H :=
  {| cpm_status := cpm_status st; user_vars := user_vars st; _varmap := _varmap st;
     _csemap := x; _value := _value st; iv_counter := iv_counter st;
     bv_counter := bv_counter st; pipeline_trace := pipeline_trace st |}.

Definition set__value {H} (x : gmap cpm_variable pyvalue) (st : Base H) : Base H :=
  {| cpm_status := cpm_status st; user_vars := user_vars st; _varmap := _varmap st;
     _csemap := _csemap st; _value := x; iv_counter := iv_counter st;
     bv_counter := bv_counter st; pipeline_trace := pipeline_trace st |}.

Definition set_iv_counter {H} (x : nat) (st : Base H) : Base H :=
  {| cpm_status := cpm_status st; user_vars := user_vars st; _varmap := _varmap st;
     _csemap := _csemap st; _value := _value st; iv_counter := x;
     bv_counter := bv_counter st; pipeline_trace := pipeline_trace st |}.

Definition set_bv_counter {H} (x : nat) (st : Base H) : Base H :=
  {| cpm_status := cpm_status st; user_vars := user_vars st; _varmap := _varmap st;
     _csemap := _csemap st; _value := _value st; iv_counter := iv_counter st;
     bv_counter := x; pipeline_trace := pipeline_trace st |}.

Definition set_pipeline_trace {H} (x : list Stage) (st : Base H) : Base H :=
  {| cpm_status := cpm_status st; user_vars := user_vars st; _varmap := _varmap st;
     _csemap := _csemap st; _value := _value st; iv_counter := iv_counter st;
     bv_counter := bv_counter st; pipeline_trace := x |}.

Definition init_Base {H} : Base H :=
  {| cpm_status := fresh_SolverStatus; user_vars := ∅; _varmap := ∅;
     _csemap := Some []; _value := ∅; iv_counter := 0; bv_counter := 0;
     pipeline_trace := [] |}.

Definition set_exitstatus {H} (e : ExitStatus) (b : Base H) : Base H :=
  set_cpm_status {| exitstatus := Some e; runtime := runtime (cpm_status b) |} b.

(** [d.get(key, default)] on keyword arguments *)
Fixpoint kwargs_get (key : string) (kwargs : list (string * pyvalue)) : option pyvalue :=
  match kwargs with
  | [] => None
  | (k, v) :: rest => if decide (k = key) then Some v else kwargs_get key rest
  end.

(** [e.name], an AttributeError on what has no name *)
Definition expr_name (e : Expr) : option string :=
  match e with
  | Var v => Some (var_name v)
  | Operator n _ | Comparison n _ _ | GlobalConstraint n _ | DirectConstraint n _ => Some n
  | BoolVal _ => Some "boolval"
  | Num _ | Lst _ => None
  end.

(** [isinstance(e, _NumVarImpl)] *)
Definition is_NumVarImpl (e : Expr) : bool :=
  match e with Var _ => true | _ => false end.

(** [isinstance(e, _BoolVarImpl)] *)
Definition is_BoolVar (e : Expr) : bool :=
  match e with Var v => is_BoolVarImpl v | _ => false end.

(** [e.args], an AttributeError on what has none *)
Definition expr_args (e : Expr) : option (list Expr) :=
  match e with
  | Operator _ args | GlobalConstraint _ args | DirectConstraint _ args => Some args
  | Comparison _ l r => Some [l; r]
  | BoolVal b => Some [BoolVal b]
  | Num _ | Var _ | Lst _ => None
  end.

(** [l[i]] *)
Definition item {S A} (l : list A) (i : nat) : M S A :=
  match l !! i with
  | Some x => ret x
  | None => raise IndexError
  end.

(** [o.attr] where the attribute may be missing *)
Definition attr {S A} (o : option A) : M S A :=
  match o with
  | Some x => ret x
  | None => raise AttributeError
  end.

(** The six comparison names of [Comparison]. *)
Definition comparison_names : list string := ["=="; "!="; "<="; "<"; ">="; ">"].

(** * The OR-Tools adapter ([cpmpy/solvers/ortools.py]) *)
Module Ortools.

(** ** The native side: handles, values handed to the model, calls *)

(** What [solver_var] returns: a number passed through, a native variable
    (identified by its index in the model) or the negation of a handle. *)
Inductive ort_handle :=
| OrtNum (n : Z)
| OrtVar (index : nat)
| OrtNot (h : ort_handle).

#[global] Instance ort_handle_eq_dec : EqDecision ort_handle.
Proof. solve_decision. Defined.

(** Arguments of native calls: handles, lists of arguments, CPMpy data
    handed over as it is, and native objects built from arguments. *)
Inductive oval :=
| OH (h : ort_handle)
| OL (l : list oval)
| OData (e : Expr)
| OObj (ctor : string) (args : list oval).

(** The calls that change the native model ([self.ort_model]) or drive the
    native solver ([self.ort_solver]).  Queries ([HasObjective], [Value],
    [WallTime], ...) are read off the state and the native answer. *)
Inductive ort_event :=
| NewBoolVar (name : string)
| NewIntVar (lb ub : Z) (name : string)
| NewIntervalVar (s d e : oval)
| PostConstraint (method : string) (args : list oval)
| OnlyEnforceIf (constraint : nat) (lit : ort_handle)
| Minimize (obj : oval)
| Maximize (obj : oval)
| ClearAssumptions
| AddAssumptions (lits : oval)
| SetMaxTime (t : Q)                         (* parameters.max_time_in_seconds *)
| KeepAllFeasible                            (* parameters.keep_all_feasible_solutions_in_presolve *)
| SetParameter (kw : string) (val : pyvalue) (* setattr(parameters, kw, val) *)
| SetLogCallback
| Solve (with_callback : bool)
| StopSearch.

(** Calls on the native solver object, as opposed to the native model. *)
Definition on_solver (e : ort_event) : bool :=
  match e with
  | SetMaxTime _ | KeepAllFeasible | SetParameter _ _ | SetLogCallback
  | Solve _ | StopSearch => true
  | _ => false
  end.

Definition is_Solve (e : ort_event) : bool :=
  match e with Solve _ => true | _ => false end.

Definition creates_variable (e : ort_event) : bool :=
  match e with NewBoolVar _ | NewIntVar _ _ _ => true | _ => false end.

Inductive ort_native_status :=
| ORT_FEASIBLE
| ORT_OPTIMAL
| ORT_INFEASIBLE
| ORT_MODEL_INVALID
| ORT_UNKNOWN
| ORT_OTHER (code : Z).      (* a status this adapter does not know *)

#[global] Instance ort_native_status_eq_dec : EqDecision ort_native_status.
Proof. solve_decision. Defined.

(** A solution of the native solver: the value of the variable of each
    index, [None] where the solver raises IndexError. *)
Definition ort_solution : Type := nat → option Z.

(** What the native side answers in the course of one [solve]: to the
    parameters the call sets and to its one [Solve]. *)
Record OrtResponse := {
  (* [setattr(parameters, kw, val)]: the exception it raises, if any
     (AttributeError for a name the parameters do not have, ValueError or
     TypeError for a value the field does not take) *)
  resp_setattr : string → pyvalue → option exn;
  resp_status : ort_native_status;            (* the result of [Solve] *)
  resp_walltime : Q;                          (* [WallTime()] *)
  resp_solution : ort_solution;               (* read by [Value] *)
  resp_objective : Q;                         (* [ObjectiveValue()] *)
  resp_core : list Z;                         (* [SufficientAssumptionsForInfeasibility()] *)
  resp_enumerated : list ort_solution         (* the solutions it reports to a callback, in order *)
}.

(** [h.Index()] *)
Fixpoint Index (h : ort_handle) : option Z :=
  match h with
  | OrtVar i => Some (Z.of_nat i)
  | OrtNot h' => (λ i, - i - 1) <$> Index h'
  | OrtNum _ => None
  end.

(** [Value(h)] in a solution *)
Fixpoint Value (sol : ort_solution) (h : ort_handle) : option Z :=
  match h with
  | OrtNum n => Some n
  | OrtVar i => sol i
  | OrtNot h' => (λ v, 1 - v) <$> Value sol h'
  end.

(** ** The solution callback ([OrtSolutionCounter], [OrtSolutionPrinter]) *)

Inductive Display :=
| DisplayNone
| DisplayExprs (e : Expr)       (* an expression or a list of expressions *)
| DisplayCallable.

(** [_cpm_vars]: a list computed when the callback is built, or the
    adapter's own [user_vars] set. *)
Inductive cpm_vars_ref :=
| FixedVars (l : list cpm_variable)
| UserVars.

Record OrtSolutionPrinter := {
  solution_count : nat;
  _solution_limit : option Z;
  _cpm_vars : cpm_vars_ref;
  _display : Display
}.

(** ** The adapter object *)
Record State := {
  base : Base ort_handle;
  (* the native model and solver *)
  ort_log : list ort_event;
  ort_num_vars : nat;
  ort_has_objective : bool;
  ort_response : option OrtResponse;          (* the answer to the last [Solve] *)
  callback_obj : option OrtSolutionPrinter;    (* the callback object after the last [Solve] ran it *)
  (* attributes of CPM_ortools *)
  ort_status : option ort_native_status;       (* [None]: the attribute does not exist yet *)
  assumption_dict : option (gmap Z Expr);
  objective_value_ : option Q
}.

Definition set_base (x : Base ort_handle) (st : State) : State :=
  {| base := x; ort_log := ort_log st; ort_num_vars := ort_num_vars st;
     ort_has_objective := ort_has_objective st; ort_response := ort_response st;
     callback_obj := callback_obj st; ort_status := ort_status st;
     assumption_dict := assumption_dict st; objective_value_ := objective_value_ st |}.

Definition set_ort_log (x : list ort_event) (st : State) : State :=
  {| base := base st; ort_log := x; ort_num_vars := ort_num_vars st;
     ort_has_objective := ort_has_objective st; ort_response := ort_response st;
     callback_obj := callback_obj st; ort_status := ort_status st;
     assumption_dict := assumption_dict st; objective_value_ := objective_value_ st |}.

Definition set_ort_num_vars (x : nat) (st : State) : State :=
  {| base := base st; ort_log := ort_log st; ort_num_vars := x;
     ort_has_objective := ort_has_objective st; ort_response := ort_response st;
     callback_obj := callback_obj st; ort_status := ort_status st;
     assumption_dict := assumption_dict st; objective_value_ := objective_value_ st |}.

Definition set_ort_has_objective (x : bool) (st : State) : State :=
  {| base := base st; ort_log := ort_log st; ort_num_vars := ort_num_vars st;
     ort_has_objective := x; ort_response := ort_response st;
     callback_obj := callback_obj st; ort_status := ort_status st;
     assumption_dict := assumption_dict st; objective_value_ := objective_value_ st |}.

Definition set_ort_response (x : option OrtResponse) (st : State) : State :=
  {| base := base st; ort_log := ort_log st; ort_num_vars := ort_num_vars st;
     ort_has_objective := ort_has_objective st; ort_response := x;
     callback_obj := callback_obj st; ort_status := ort_status st;
     assumption_dict := assumption_dict st; objective_value_ := objective_value_ st |}.

Definition set_callback_obj (x : option OrtSolutionPrinter) (st : State) : State :=
  {| base := base st; ort_log := ort_log st; ort_num_vars := ort_num_vars st;
     ort_has_objective := ort_has_objective st; ort_response := ort_response st;
     callback_obj := x; ort_status := ort_status st;
     assumption_dict := assumption_dict st; objective_value_ := objective_value_ st |}.

Definition set_ort_status (x : option ort_native_status) (st : State) : State :=
  {| base := base st; ort_log := ort_log st; ort_num_vars := ort_num_vars st;
     ort_has_objective := ort_has_objective st; ort_response := ort_response st;
     callback_obj := callback_obj st; ort_status := x;
     assumption_dict := assumption_dict st; objective_value_ := objective_value_ st |}.

Definition set_assumption_dict (x : option (gmap Z Expr)) (st : State) : State :=
  {| base := base st; ort_log := ort_log st; ort_num_vars := ort_num_vars st;
     ort_has_objective := ort_has_objective st; ort_response := ort_response st;
     callback_obj := callback_obj st; ort_status := ort_status st;
     assumption_dict := x; objective_value_ := objective_value_ st |}.

Definition set_objective_value_ (x : option Q) (st : State) : State :=
  {| base := base st; ort_log := ort_log st; ort_num_vars := ort_num_vars st;
     ort_has_objective := ort_has_objective st; ort_response := ort_response st;
     callback_obj := callback_obj st; ort_status := ort_status st;
     assumption_dict := assumption_dict st; objective_value_ := x |}.

Definition upd_base (f : Base ort_handle → Base ort_handle) (st : State) : State :=
  set_base (f (base st)) st.

(** [CPM_ortools()], without a model *)
Definition init : State :=
  {| base := init_Base; ort_log := []; ort_num_vars := 0;
     ort_has_objective := false; ort_response := None; callback_obj := None;
     ort_status := None; assumption_dict := None; objective_value_ := None |}.

(** One call on the native model or solver that is carried out: it is
    recorded in the log.  The native calls that refuse some of what the
    adapter hands them, [NewIntVar] and [setattr] on the parameters, are
    [NewIntVar_] and [setattr_parameter] below. *)
Definition native (e : ort_event) : M State unit :=
  modify (λ st, set_ort_log (ort_log st ++ [e]) st).

(** A new variable of the native model gets the next index. *)
Definition new_var (e : ort_event) : M State ort_handle :=
  let* i := gets ort_num_vars in
  native e ;;
  modify (set_ort_num_vars (S i)) ;;
  ret (OrtVar i).

(** The bounds of a native integer variable are 64-bit integers. *)
Definition fits_int64 (z : Z) : bool := (- 2 ^ 63 <=? z) && (z <? 2 ^ 63).

(** [self.ort_model.NewBoolVar(name)] *)
Definition NewBoolVar_ (name : string) : M State ort_handle :=
  new_var (NewBoolVar name).

(** [self.ort_model.NewIntVar(lb, ub, name)]: a TypeError for a bound that
    is no 64-bit integer, and then nothing is made. *)
Definition NewIntVar_ (lb ub : Z) (name : string) : M State ort_handle :=
  if fits_int64 lb && fits_int64 ub then new_var (NewIntVar lb ub name)
  else raise TypeError.

(** [setattr(self.ort_solver.parameters, kw, val)] *)
Definition setattr_parameter (answer : string → pyvalue → option exn)
    (kw : string) (val : pyvalue) : M State unit :=
  match answer kw val with
  | Some e => raise e
  | None => native (SetParameter kw val)
  end.

(** The variables the native model makes a variable for. *)
Definition accepts (v : cpm_variable) : bool :=
  match v with
  | BoolVarImpl _ | NegBoolView _ => true
  | IntVarImpl _ lb ub => fits_int64 lb && fits_int64 ub
  | NumVarImpl _ => false
  end.

(** A constraint-posting call; the constraint it returns is identified by
    its position in the log. *)
Definition post (method : string) (args : list oval) : M State nat :=
  let* c := gets (λ st, length (ort_log st)) in
  native (PostConstraint method args) ;;
  ret c.

(** [self.ort_model.HasObjective()] *)
Definition has_objective : M State bool := gets ort_has_objective.

(** ** [solver_var] and [solver_vars] *)

(** The part of [solver_var] after the two special cases: create the native
    variable if [cpm_var] is not in [_varmap], then return the cached one. *)
Definition solver_var_cached (cpm_var : cpm_variable) : M State ort_handle :=
  let* varmap := gets (λ st, _varmap (base st)) in
  match varmap !! cpm_var with
  | None =>
      let* revar :=
        match cpm_var with
        | BoolVarImpl _ | NegBoolView _ => NewBoolVar_ (var_name cpm_var)
        | IntVarImpl _ lb ub => NewIntVar_ lb ub (var_name cpm_var)
        | NumVarImpl _ => raise NotImplementedError
        end in
      modify (upd_base (λ b, set__varmap (<[cpm_var := revar]> (_varmap b)) b))
  | Some _ => ret tt
  end ;;
  let* varmap := gets (λ st, _varmap (base st)) in
  match varmap !! cpm_var with
  | Some h => ret h
  | None => raise KeyError
  end.

Definition solver_var (cpm_var : Expr) : M State ort_handle :=
  match cpm_var with
  | Num n => ret (OrtNum n)                       (* is_num: shortcut *)
  | Var (NegBoolView bv) =>                       (* work on the var inside the view *)
      let* h := solver_var_cached (BoolVarImpl bv) in ret (OrtNot h)
  | Var v => solver_var_cached v
  | Lst _ => raise TypeError                      (* a list is not hashable *)
  | _ => raise NotImplementedError                (* not in _varmap, not a known var *)
  end.

(** Modelled from the spec: [SolverInterface.solver_vars], not among the
    sources: [solver_var] applied to every element of a (nested) list. *)
Fixpoint solver_vars (cpm_vars : Expr) : M State oval :=
  match cpm_vars with
  | Lst l => let* vs := mapM solver_vars l in ret (OL vs)
  | _ => let* h := solver_var cpm_vars in ret (OH h)
  end.

(** ** [OrtSolutionPrinter.on_solution_callback] and the native enumeration *)

Definition resolve_cpm_vars (r : cpm_vars_ref) : M State (list cpm_variable) :=
  match r with
  | FixedVars l => ret l
  | UserVars => gets (λ st, elements (user_vars (base st)))
  end.

(** One call of the callback on a solution; the Boolean says whether it
    asked the solver to stop. *)
Definition on_solution_callback (sol : ort_solution) (cb : OrtSolutionPrinter)
  : M State (OrtSolutionPrinter * bool) :=
  (* super().on_solution_callback(), not verbose *)
  let cb := {| solution_count := S (solution_count cb);
               _solution_limit := _solution_limit cb;
               _cpm_vars := _cpm_vars cb; _display := _display cb |} in
  let* vars := resolve_cpm_vars (_cpm_vars cb) in
  (* populate values before printing; the printing itself leaves no trace *)
  for_each vars (λ cpm_var,
    let* varmap := gets (λ st, _varmap (base st)) in
    match varmap !! cpm_var with
    | None => raise KeyError
    | Some h =>
        match Value sol h with
        | None => raise IndexError
        | Some v =>
            let val := if is_BoolVarImpl cpm_var then PyBool (negb (v =? 0)) else PyInt v in
            modify (upd_base (λ b, set__value (<[cpm_var := val]> (_value b)) b))
        end
    end) ;;
  (* check for count limit *)
  if bool_decide (Some (Z.of_nat (solution_count cb)) = _solution_limit cb)
  then native StopSearch ;; ret (cb, true)
  else ret (cb, false).

(** The native solver reports its solutions to the callback one by one and
    stops when the callback has called [StopSearch]. *)
Fixpoint enumerate (sols : list ort_solution) (cb : OrtSolutionPrinter)
  : M State OrtSolutionPrinter :=
  match sols with
  | [] => ret cb
  | sol :: rest =>
      let* (cb', stop) := on_solution_callback sol cb in
      if stop : bool then ret cb' else enumerate rest cb'
  end.

(** [self.ort_solver.Solve(self.ort_model, solution_callback=cb)] *)
Definition native_Solve (resp : OrtResponse) (cb : option OrtSolutionPrinter)
  : M State ort_native_status :=
  native (Solve (bool_decide (is_Some cb))) ;;
  modify (set_ort_response (Some resp)) ;;
  match cb with
  | None => ret tt
  | Some cb =>
      let* cb' := enumerate (resp_enumerated resp) cb in
      modify (set_callback_obj (Some cb'))
  end ;;
  ret (resp_status resp).

(** ** [solve] *)

Record solve_args := {
  time_limit : option Q;
  assumptions : option (list Expr);
  solution_callback : option OrtSolutionPrinter;
  kwargs : list (string * pyvalue);
  (* of the interpreter: [hasattr(self.ort_solver, "log_callback") and
     sys.stdout != sys.__stdout__] *)
  stdout_redirected : bool
}.

(** [{ort_var.Index(): cpm_var for (cpm_var, ort_var) in zip(assumptions, ort_assum_vars)}];
    [None] when some [ort_var] has no [Index] method. *)
Fixpoint make_assumption_dict (assum : list Expr) (ort_vars : list oval)
    (d : gmap Z Expr) : option (gmap Z Expr) :=
  match assum, ort_vars with
  | cpm_var :: assum', OH h :: ort_vars' =>
      i ← Index h; make_assumption_dict assum' ort_vars' (<[i := cpm_var]> d)
  | _ :: _, _ :: _ => None
  | _, _ => Some d
  end.

Definition write_value (cpm_var : cpm_variable) (v : option pyvalue) : M State unit :=
  modify (upd_base (λ b,
    set__value (match v with
                | Some x => <[cpm_var := x]> (_value b)
                | None => delete cpm_var (_value b)
                end) b)).

Definition solve (args : solve_args) (resp : OrtResponse) : M State bool :=
  (* ensure all user vars are known to solver; [list(self.user_vars)] walks
     a Python set, in an order that is not fixed: here the order of
     [elements], on which no theorem relies *)
  let* uv := gets (λ st, elements (user_vars (base st))) in
  solver_vars (Lst (Var <$> uv)) ;;
  (* set time limit *)
  match time_limit args with
  | Some t => if Qle_bool t 0 then raise ValueError else native (SetMaxTime t)
  | None => ret tt
  end ;;
  match assumptions args with
  | Some assum =>
      let* ort_assum_vars := mapM solver_vars assum in
      match make_assumption_dict assum ort_assum_vars ∅ with
      | None => raise AttributeError
      | Some d => modify (set_assumption_dict (Some d))
      end ;;
      native ClearAssumptions ;;
      native (AddAssumptions (OL ort_assum_vars)) ;;
      native KeepAllFeasible
  | None => ret tt
  end ;;
  (* set additional keyword arguments *)
  for_each (kwargs args) (λ '(kw, val), setattr_parameter (resp_setattr resp) kw val) ;;
  (if bool_decide (is_Some (kwargs_get "log_search_progress" (kwargs args)))
      && stdout_redirected args
   then native SetLogCallback else ret tt) ;;
  (* call the solver, with parameters *)
  let* status := native_Solve resp (solution_callback args) in
  modify (set_ort_status (Some status)) ;;
  (* new status, translate runtime *)
  modify (upd_base (set_cpm_status
    {| exitstatus := None; runtime := Some (resp_walltime resp) |})) ;;
  (* translate exit status *)
  let* has_obj := has_objective in
  match status with
  | ORT_FEASIBLE => modify (upd_base (set_exitstatus FEASIBLE))
  | ORT_OPTIMAL =>
      if has_obj : bool then modify (upd_base (set_exitstatus OPTIMAL))
      else if default false (truthy <$> kwargs_get "enumerate_all_solutions" (kwargs args))
      then modify (upd_base (set_exitstatus OPTIMAL))
      else modify (upd_base (set_exitstatus FEASIBLE))
  | ORT_INFEASIBLE => modify (upd_base (set_exitstatus UNSATISFIABLE))
  | ORT_MODEL_INVALID => raise Exception
  | ORT_UNKNOWN => modify (upd_base (set_exitstatus UNKNOWN))
  | ORT_OTHER _ => raise NotImplementedError
  end ;;
  (* True/False depending on self.cpm_status *)
  let* has_sol := gets (λ st, _solve_return (cpm_status (base st))) in
  (* translate solution values (of user specified variables only) *)
  modify (set_objective_value_ None) ;;
  let* uv := gets (λ st, elements (user_vars (base st))) in
  (if has_sol : bool then
     for_each uv (λ cpm_var,
       let* h := solver_var (Var cpm_var) in
       match Value (resp_solution resp) h with
       | None => raise ValueError              (* except IndexError *)
       | Some v =>
           write_value cpm_var (Some (PyInt v)) ;;
           if is_BoolVarImpl cpm_var
           then write_value cpm_var (Some (PyBool (truthy (PyInt v))))
           else ret tt
       end) ;;
     (* translate objective *)
     if has_obj : bool then modify (set_objective_value_ (Some (resp_objective resp)))
     else ret tt
   else
     (* clear values of variables *)
     for_each uv (λ cpm_var, write_value cpm_var None)) ;;
  ret has_sol.

(** ** [solveAll] *)

(** [OrtSolutionPrinter(self, display=display, solution_limit=solution_limit)] *)
Definition new_OrtSolutionPrinter (lib : CpmLib) (display : Display)
    (solution_limit : option Z) : OrtSolutionPrinter :=
  {| solution_count := 0;
     _solution_limit := solution_limit;
     _cpm_vars := match display with
                  | DisplayNone => FixedVars []
                  | DisplayExprs e => FixedVars (elements (get_variables lib e))
                  | DisplayCallable => UserVars
                  end;
     _display := display |}.

(** [solveAll(display, time_limit, solution_limit, **kwargs)].  A keyword
    [assumptions] among [kwargs] reaches [solve] as its parameter; a keyword
    [enumerate_all_solutions] would be given twice, a TypeError. *)
Definition solveAll (lib : CpmLib) (display : Display) (time_limit : option Q)
    (solution_limit : option Z) (assumptions : option (list Expr))
    (kwargs : list (string * pyvalue)) (stdout_redirected : bool)
    (resp : OrtResponse) : M State nat :=
  let* has_obj := has_objective in
  if has_obj : bool then raise NotSupportedError else
  let cb := new_OrtSolutionPrinter lib display solution_limit in
  (if bool_decide (is_Some (kwargs_get "enumerate_all_solutions" kwargs))
   then raise TypeError else ret tt) ;;
  solve {| time_limit := time_limit; assumptions := assumptions;
           solution_callback := Some cb;
           kwargs := ("enumerate_all_solutions", PyBool true) :: kwargs;
           stdout_redirected := stdout_redirected |} resp ;;
  let* cb' := gets callback_obj in
  match cb' with
  | Some cb' => ret (solution_count cb')
  | None => raise AttributeError
  end.

(** ** [get_core] *)

(** [[self.assumption_dict[i] for i in assum_idx]] *)
Definition lookup_all {S} (d : gmap Z Expr) (idx : list Z) : M S (list Expr) :=
  mapM (λ i, match d !! i with Some x => ret x | None => raise KeyError end) idx.

Definition get_core : M State (list Expr) :=
  let* status := gets ort_status in
  match status with
  | None => raise AttributeError                 (* no solve() yet *)
  | Some status =>
      assert (bool_decide (status = ORT_INFEASIBLE)) ;;
      let* d := gets assumption_dict in
      match d with
      | None => raise AssertionError
      | Some d =>
          (* use our own dict *)
          let* resp := gets ort_response in
          match resp with
          | None => raise AttributeError
          | Some resp => lookup_all d (resp_core resp)
          end
      end
  end.

(** ** Posting: [transform], [_post_constraint], [add], [objective] *)

Section WithLib.
Context (lib : CpmLib).

Definition run_stage (s : Stage) : M State unit :=
  modify (upd_base (λ b, set_pipeline_trace (pipeline_trace b ++ [s]) b)).

(** A transformation called with [csemap=self._csemap]: it reads and
    extends the adapter's CSE map. *)
Definition with_csemap {A} (f : Csemap → A * Csemap) : M State A :=
  let* c := gets (λ st, _csemap (base st)) in
  modify (upd_base (set__csemap (snd (f c)))) ;;
  ret (fst (f c)).

Definition supported : list string :=
  ["min"; "max"; "abs"; "element"; "alldifferent"; "xor"; "table"; "negative_table";
   "cumulative"; "circuit"; "inverse"; "no_overlap"; "regular"].

Definition transform (cpm_expr : Expr) : M State (list Expr) :=
  run_stage ToplevelList ;;
  let cpm_cons := toplevel_list lib cpm_expr None in
  run_stage Safening ;;
  (* before decompose, assumes total decomposition for partial functions *)
  let cpm_cons := no_partial_functions lib cpm_cons ["div"; "mod"] in
  run_stage Decomposition ;;
  let* cpm_cons := with_csemap (decompose_in_tree lib cpm_cons supported) in
  run_stage Flattening ;;
  let* cpm_cons := with_csemap (flatten_constraint lib cpm_cons) in
  run_stage ReifyRewrite ;;
  let* cpm_cons := with_csemap (reify_rewrite lib cpm_cons ["sum"; "wsum"]) in
  run_stage NumexprEquality ;;
  let* cpm_cons :=
    with_csemap (only_numexpr_equality lib cpm_cons ["sum"; "wsum"; "sub"]) in
  run_stage BvReifies ;;
  let* cpm_cons := with_csemap (only_bv_reifies lib cpm_cons) in
  run_stage OnlyImplies ;;
  let* cpm_cons := with_csemap (only_implies lib cpm_cons) in
  ret cpm_cons.

(** [get_variables(cpm_expr, collect=self.user_vars)] *)
Definition collect_user_vars (cpm_expr : Expr) : M State unit :=
  modify (upd_base (λ b, set_user_vars (user_vars b ∪ get_variables lib cpm_expr) b)).

(** [intvar(lb, ub)]: a new integer variable with the next free name *)
Definition intvar (lb ub : Z) : M State cpm_variable :=
  let* n := gets (λ st, iv_counter (base st)) in
  modify (upd_base (set_iv_counter (S n))) ;;
  ret (IntVarImpl (intvar_name lib n) lb ub).

(** [boolvar()] *)
Definition boolvar : M State cpm_variable :=
  let* n := gets (λ st, bv_counter (base st)) in
  modify (upd_base (set_bv_counter (S n))) ;;
  ret (BoolVarImpl (boolvar_name lib n)).

(** Modelled from the spec: [eval_comparison] of [expressions/utils.py],
    applied to native operands: it builds the native bounded linear
    expression for one of the six comparison names. *)
Definition eval_comparison (name : string) (l r : oval) : M State oval :=
  if mem_string name comparison_names then ret (OObj name [l; r]) else raise Exception.

Definition _make_numexpr (cpm_expr : Expr) : M State oval :=
  match cpm_expr with
  | Num n => ret (OH (OrtNum n))
  (* decision variables, check in varmap *)
  | Var _ => let* h := solver_var cpm_expr in ret (OH h)
  (* sum or weighted sum *)
  | Operator name args =>
      if decide (name = "sum") then
        let* vs := solver_vars (Lst args) in ret (OObj "LinearExpr.sum" [vs])
      else if decide (name = "sub") then
        let* vs := mapM solver_vars args in
        let* (a, b) := unpack2 vs in
        ret (OObj "-" [a; b])
      else if decide (name = "wsum") then
        let* w := item args 0 in
        let* x1 := item args 1 in
        let* x := solver_vars x1 in
        ret (OObj "LinearExpr.weighted_sum" [x; OData w])
      else raise NotImplementedError
  | _ => raise NotImplementedError
  end.

(** [zip(start, dur, end)] of three native lists, a TypeError on what is
    not a list *)
Definition zip3 (a b c : oval) : M State (list (oval * oval * oval)) :=
  match a, b, c with
  | OL la, OL lb, OL lc => ret (zip (zip la lb) lc)
  | _, _, _ => raise TypeError
  end.

Definition new_intervals (start dur end_ : oval) : M State (list oval) :=
  let* sde := zip3 start dur end_ in
  mapM (λ '(s, d, e), native (NewIntervalVar s d e) ;; ret (OObj "IntervalVar" [s; d; e])) sde.

(** [for exp in range(n): new_lhs, new_cons = get_or_make_var(b * new_lhs,
    csemap=self._csemap); self += new_cons] *)
Fixpoint pow_chain (self_add : Expr → M State unit) (b : Expr) (k : nat)
    (new_lhs : Expr) : M State Expr :=
  match k with
  | O => ret new_lhs
  | S k' =>
      let* (new_lhs', new_cons) :=
        with_csemap (get_or_make_var lib (expr_mul lib b new_lhs)) in
      self_add (Lst new_cons) ;;
      pow_chain self_add b k' new_lhs'
  end.

(** The Comparison branch of [_post_constraint] for [NumExpr == IV], by the
    name of the left-hand side. *)
Definition post_numexpr_equality (self_add : Expr → M State unit)
    (cpm_expr lhs : Expr) (ortrhs : ort_handle) : M State nat :=
  let* lname := attr (expr_name lhs) in
  if decide (lname = "min") then
    let* args := attr (expr_args lhs) in
    let* vs := solver_vars (Lst args) in post "AddMinEquality" [OH ortrhs; vs]
  else if decide (lname = "max") then
    let* args := attr (expr_args lhs) in
    let* vs := solver_vars (Lst args) in post "AddMaxEquality" [OH ortrhs; vs]
  else if decide (lname = "abs") then
    let* args := attr (expr_args lhs) in
    let* a0 := item args 0 in
    let* v := solver_var a0 in post "AddAbsEquality" [OH ortrhs; OH v]
  else if decide (lname = "mul") then
    let* args := attr (expr_args lhs) in
    let* vs := solver_vars (Lst args) in post "AddMultiplicationEquality" [OH ortrhs; vs]
  else if decide (lname = "div") then
    let* args := attr (expr_args lhs) in
    let* vs := mapM solver_vars args in post "AddDivisionEquality" (OH ortrhs :: vs)
  else if decide (lname = "element") then
    let* args := attr (expr_args lhs) in
    let* (arr, idx) := unpack2 args in
    (* OR-Tools does not handle all constant integer cases *)
    let* idx := match idx with
                | Num n => let* v := intvar n n in ret (Var v)
                | _ => ret idx
                end in
    (* OR-Tools has slight different in argument order *)
    let* i := solver_var idx in
    let* a := solver_vars arr in
    post "AddElement" [OH i; a; OH ortrhs]
  else if decide (lname = "mod") then
    (* catch tricky-to-find ortools limitation *)
    let* args := attr (expr_args lhs) in
    let* (x, y) := unpack2 args in
    let* y :=
      if fst (get_bounds lib y) <=? 0 then
        let* (y', link) := with_csemap (get_or_make_var lib (expr_neg lib y)) in
        self_add (Lst link) ;;
        ret y'
      else ret y in
    let* vs := mapM solver_vars [x; y] in
    post "AddModuloEquality" (OH ortrhs :: vs)
  else if decide (lname = "pow") then
    (* only POW(b,2) == IV supported, post as b*b == IV *)
    let* args := attr (expr_args lhs) in
    let* a1 := item args 1 in
    match a1 with
    | Num n =>
        if n =? 2 then
          let* a0 := item args 0 in
          let* b := solver_var a0 in
          post "AddMultiplicationEquality" [OH ortrhs; OL [OH b; OH b]]
        else
          (* need to create intermediate vars, post (((b * b) * b) * ...) * b == IV *)
          let* (b, _) := unpack2 args in
          let* new_lhs := pow_chain self_add b (Z.to_nat n) (Num 1) in
          let* v := solver_var new_lhs in
          let* c := eval_comparison "==" (OH v) (OH ortrhs) in
          post "Add" [c]
    | _ => raise NotSupportedError
    end
  else raise NotImplementedError.

(** The row-major enumeration [np.ndenumerate] of an [n] by [n] array. *)
Definition ndenumerate {A} (n : nat) (arr : list A) : list ((nat * nat) * A) :=
  zip (i ← seq 0 n; (λ j, (i, j)) <$> seq 0 n)%list arr.

(** [_post_constraint], with its two recursive uses as parameters:
    [self_add] is [self += ...], [self_post] is
    [self._post_constraint(..., reifiable=True)]. *)
Definition _post_constraint_body (self_add : Expr → M State unit)
    (self_post : Expr → M State nat) (cpm_expr : Expr) : M State nat :=
  match cpm_expr with
  (* Operators: base (bool), lhs=numexpr, lhs|rhs=boolexpr (reified ->) *)
  | Operator name args =>
      if decide (name = "and") then
        let* vs := solver_vars (Lst args) in post "AddBoolAnd" [vs]
      else if decide (name = "or") then
        let* vs := solver_vars (Lst args) in post "AddBoolOr" [vs]
      else if decide (name = "->") then
        let* a0 := item args 0 in
        assert (is_BoolVar a0) ;;               (* lhs must be boolvar *)
        let* lhs := solver_var a0 in
        let* a1 := item args 1 in
        if is_BoolVar a1 then
          (* bv -> bv *)
          let* r := solver_var a1 in post "AddImplication" [OH lhs; OH r]
        else
          (* bv -> boolexpr *)
          let* c := self_post a1 in
          native (OnlyEnforceIf c lhs) ;;
          ret c
      else raise NotImplementedError
  (* Comparisons: only numeric ones *)
  | Comparison name lhs rhs =>
      let* ortrhs := solver_var rhs in
      if is_NumVarImpl lhs then
        (* both are variables, do python comparison over ORT variables *)
        let* l := solver_var lhs in
        let* c := eval_comparison name (OH l) (OH ortrhs) in
        post "Add" [c]
      else if match lhs with
              | Operator n _ => mem_string n ["sum"; "wsum"; "sub"]
              | _ => false
              end then
        (* a BoundedLinearExpression LHS, special case, like in objective *)
        let* ortlhs := _make_numexpr lhs in
        let* c := eval_comparison name ortlhs (OH ortrhs) in
        post "Add" [c]
      else if decide (name = "==") then
        post_numexpr_equality self_add cpm_expr lhs ortrhs
      else
        attr (expr_name lhs) ;;                 (* formatting the message reads lhs.name *)
        raise NotImplementedError
  (* base (Boolean) global constraints *)
  | GlobalConstraint name args =>
      if decide (name = "alldifferent") then
        let* vs := solver_vars (Lst args) in post "AddAllDifferent" [vs]
      else if decide (name = "table") then
        assert (bool_decide (length args = 2%nat)) ;;
        let* (array, table) := unpack2 args in
        let* array := solver_vars array in
        post "AddAllowedAssignments" [array; OData table]
      else if decide (name = "negative_table") then
        assert (bool_decide (length args = 2%nat)) ;;
        let* (array, table) := unpack2 args in
        let* array := solver_vars array in
        post "AddForbiddenAssignments" [array; OData table]
      else if decide (name = "regular") then
        match args with
        | [array; transitions; start; accepting] =>
            let* array := solver_vars array in
            (* the states are renamed through cpm_expr.node_map *)
            post "AddAutomaton"
              [array; OObj "node_map" [OData start]; OObj "node_map" [OData accepting];
               OObj "node_map" [OData transitions]]
        | _ => raise ValueError
        end
      else if decide (name = "cumulative") then
        let* vs := mapM solver_vars args in
        match vs with
        | [start; dur; end_; demand; cap] =>
            let* intervals := new_intervals start dur end_ in
            post "AddCumulative" [OL intervals; demand; cap]
        | _ => raise ValueError
        end
      else if decide (name = "no_overlap") then
        let* vs := mapM solver_vars args in
        match vs with
        | [start; dur; end_] =>
            let* intervals := new_intervals start dur end_ in
            post "add_no_overlap" [OL intervals]
        | _ => raise ValueError
        end
      else if decide (name = "circuit") then
        (* ortools has a constraint over the arcs, so we need to create these *)
        let x := args in
        let N := length x in
        let* arcvars := mapM (λ _ : nat, boolvar) (seq 0 (N * N)) in
        (* post channeling constraints from int to bool *)
        self_add (Lst ((λ '((i, j), b),
                   expr_eq lib (Var b)
                     (expr_eq lib (default (Num 0) (x !! i)) (Num (Z.of_nat j))))
                  <$> ndenumerate N arcvars)) ;;
        (* post the global constraint *)
        let* ort_arcs :=
          mapM (λ '((i, j), b),
                  let* h := solver_var (Var b) in
                  ret (OL [OH (OrtNum (Z.of_nat i)); OH (OrtNum (Z.of_nat j)); OH h]))
               (filter (λ '((i, j), _), i ≠ j) (ndenumerate N arcvars)) in
        post "AddCircuit" [OL ort_arcs]
      else if decide (name = "inverse") then
        assert (bool_decide (length args = 2%nat)) ;;
        let* vs := mapM solver_vars args in
        let* (fwd, rev) := unpack2 vs in
        post "AddInverse" [fwd; rev]
      else if decide (name = "xor") then
        let* vs := solver_vars (Lst args) in post "AddBoolXOr" [vs]
      else raise NotImplementedError
  (* unlikely base case: Boolean variable *)
  | Var v =>
      if is_BoolVarImpl v then
        let* h := solver_var cpm_expr in post "AddBoolOr" [OL [OH h]]
      else raise NotImplementedError
  (* unlikely base case: True or False *)
  | BoolVal b => post "Add" [OData (BoolVal b)]
  (* a direct constraint, pass to solver: the native method of that name is
     called on the solver variables of the arguments *)
  | DirectConstraint name args =>
      let* vs := mapM solver_vars args in post name vs
  | _ => raise NotImplementedError
  end.

(** [add] and [_post_constraint] call each other through [self += ...].
    [fuel] bounds the depth of the Python call stack: running out of it is
    Python's RecursionError. *)
Fixpoint add (fuel : nat) (cpm_expr : Expr) : M State unit :=
  match fuel with
  | O => raise RecursionError
  | S fuel' =>
      (* add new user vars to the set *)
      collect_user_vars cpm_expr ;;
      (* transform and post the constraints *)
      let* cpm_cons := transform cpm_expr in
      for_each cpm_cons (λ con, _post_constraint fuel' con false ;; ret tt)
  end
with _post_constraint (fuel : nat) (cpm_expr : Expr) (reifiable : bool) : M State nat :=
  match fuel with
  | O => raise RecursionError
  | S fuel' =>
      _post_constraint_body (add fuel') (λ e, _post_constraint fuel' e true) cpm_expr
  end.

Definition objective (fuel : nat) (expr : Expr) (minimize : bool) : M State unit :=
  (* make objective function non-nested *)
  let '(flat_obj, flat_cons) := flatten_objective lib expr in
  add fuel (Lst flat_cons) ;;                   (* add potentially created constraints *)
  collect_user_vars flat_obj ;;                 (* add objvars to vars *)
  (* make objective function or variable and post *)
  let* obj := _make_numexpr flat_obj in
  native (if minimize then Minimize obj else Maximize obj) ;;
  modify (set_ort_has_objective true).

End WithLib.

End Ortools.

(** * The Pumpkin adapter ([cpmpy/solvers/pumpkin.py]) *)
Module Pumpkin.

(** ** The native side *)

Inductive Comparator := Equal | LessThanOrEqual | GreaterThanOrEqual | NotEqual.

#[global] Instance Comparator_eq_dec : EqDecision Comparator.
Proof. solve_decision. Defined.

(** What [solver_var] and the expression builders of the native model
    return.  [PumBool], [PumNegate] and [PumPredicateAsBoolean] are native
    [BoolExpression]s, [PumInt], [PumBoolAsInteger] and [PumScaled] native
    [IntExpression]s; [PumNum] is a Python number passed through. *)
Inductive pum_expr :=
| PumNum (n : Z)
| PumBool (index : nat)                       (* new_boolean_variable *)
| PumInt (index : nat)                        (* new_integer_variable *)
| PumNegate (b : pum_expr)                    (* b.negate() *)
| PumBoolAsInteger (b : pum_expr)             (* boolean_as_integer(b) *)
| PumScaled (x : pum_expr) (w : Z)            (* x.scaled(w) *)
| PumPredicateAsBoolean (var : pum_expr) (comp : Comparator) (rhs : Z).

#[global] Instance pum_expr_eq_dec : EqDecision pum_expr.
Proof. solve_decision. Defined.

(** [Predicate(var, comp, rhs)] *)
Definition Predicate : Type := pum_expr * Comparator * Z.

(** [isinstance(e, PumpkinInt)], [isinstance(e, PumpkinBool)] *)
Definition is_PumpkinInt (e : pum_expr) : bool :=
  match e with PumInt _ | PumBoolAsInteger _ | PumScaled _ _ => true | _ => false end.

Definition is_PumpkinBool (e : pum_expr) : bool :=
  match e with PumBool _ | PumNegate _ | PumPredicateAsBoolean _ _ _ => true | _ => false end.

(** Arguments of native constraints. *)
Inductive pval :=
| PV (e : pum_expr)
| PL (l : list pval)
| PData (e : Expr).           (* CPMpy data handed over as it is *)

(** [constraints.<kind>(args)] *)
Record pum_constraint := {
  kind : string;
  cargs : list pval
}.

(** [isinstance(cons, constraints.Clause)] *)
Definition is_Clause (c : pum_constraint) : bool := bool_decide (kind c = "Clause").

(** The calls on the native model [self.pum_solver]. *)
Inductive pum_event :=
| new_boolean_variable (name : string)
| new_integer_variable (lb ub : Z) (name : string)
| add_constraint (cons : pum_constraint) (tag : option Z)
| add_implication (cons : pum_constraint) (lit : pum_expr) (tag : option Z)
| optimise (proof : option string) (objective : pum_expr) (minimise : bool)
    (kwargs : list (string * pyvalue))
| satisfy_under_assumptions (assumptions : list Predicate)
    (kwargs : list (string * pyvalue))
| satisfy (kwargs : list (string * pyvalue)).

(** The native solve calls. *)
Definition is_solve_call (e : pum_event) : bool :=
  match e with
  | optimise _ _ _ _ | satisfy_under_assumptions _ _ | satisfy _ => true
  | _ => false
  end.

Record pum_solution := {
  int_value : pum_expr → Z;
  bool_value : pum_expr → bool
}.

(** What a native solve call returns: a variant of [OptimisationResult],
    [SatisfactionResult] or [SatisfactionUnderAssumptionsResult], or
    something else. *)
Inductive pum_result :=
| Optimisation_Optimal (sol : pum_solution)
| Optimisation_Satisfiable (sol : pum_solution)
| Optimisation_Unsatisfiable
| Optimisation_Unknown
| Satisfaction_Satisfiable (sol : pum_solution)
| Satisfaction_Unsatisfiable
| Satisfaction_Unknown
| UnderAssumptions_Satisfiable (sol : pum_solution)
| UnderAssumptions_Unsatisfiable
| UnderAssumptions_UnsatisfiableUnderAssumptions (core : list Predicate)
| UnderAssumptions_Unknown
| OtherResult.

(** [result._0] as a solution *)
Definition result_solution (r : pum_result) : option pum_solution :=
  match r with
  | Optimisation_Optimal sol | Optimisation_Satisfiable sol
  | Satisfaction_Satisfiable sol | UnderAssumptions_Satisfiable sol => Some sol
  | _ => None
  end.

(** ** The adapter object *)
Record State := {
  base : Base pum_expr;
  (* the native model *)
  pum_log : list pum_event;
  pum_num_vars : nat;
  (* attributes of CPM_pumpkin *)
  prefix : option string;
  _objective : option cpm_variable;
  objective_is_min : bool;
  user_cons : list (Z * Expr);                       (* tag -> constraint, oldest first *)
  assump_map : option (list (Predicate * Expr));     (* [None]: no such attribute yet *)
  _pum_core : option (option (list Predicate));      (* outer [None]: no such attribute yet *)
  objective_value_ : option Z
}.

Definition set_base (x : Base pum_expr) (st : State) : State :=
  {| base := x; pum_log := pum_log st; pum_num_vars := pum_num_vars st;
     prefix := prefix st; _objective := _objective st;
     objective_is_min := objective_is_min st; user_cons := user_cons st;
     assump_map := assump_map st; _pum_core := _pum_core st;
     objective_value_ := objective_value_ st |}.

Definition set_pum_log (x : list pum_event) (st : State) : State :=
  {| base := base st; pum_log := x; pum_num_vars := pum_num_vars st;
     prefix := prefix st; _objective := _objective st;
     objective_is_min := objective_is_min st; user_cons := user_cons st;
     assump_map := assump_map st; _pum_core := _pum_core st;
     objective_value_ := objective_value_ st |}.

Definition set_pum_num_vars (x : nat) (st : State) : State :=
  {| base := base st; pum_log := pum_log st; pum_num_vars := x; prefix := prefix st;
     _objective := _objective st; objective_is_min := objective_is_min st;
     user_cons := user_cons st; assump_map := assump_map st; _pum_core := _pum_core st;
     objective_value_ := objective_value_ st |}.

Definition set_prefix (x : option string) (st : State) : State :=
  {| base := base st; pum_log := pum_log st; pum_num_vars := pum_num_vars st;
     prefix := x; _objective := _objective st; objective_is_min := objective_is_min st;
     user_cons := user_cons st; assump_map := assump_map st; _pum_core := _pum_core st;
     objective_value_ := objective_value_ st |}.

Definition set__objective (x : option cpm_variable) (st : State) : State :=
  {| base := base st; pum_log := pum_log st; pum_num_vars := pum_num_vars st;
     prefix := prefix st; _objective := x; objective_is_min := objective_is_min st;
     user_cons := user_cons st; assump_map := assump_map st; _pum_core := _pum_core st;
     objective_value_ := objective_value_ st |}.

Definition set_objective_is_min (x : bool) (st : State) : State :=
  {| base := base st; pum_log := pum_log st; pum_num_vars := pum_num_vars st;
     prefix := prefix st; _objective := _objective st; objective_is_min := x;
     user_cons := user_cons st; assump_map := assump_map st; _pum_core := _pum_core st;
     objective_value_ := objective_value_ st |}.

Definition set_user_cons (x : list (Z * Expr)) (st : State) : State :=
  {| base := base st; pum_log := pum_log st; pum_num_vars := pum_num_vars st;
     prefix := prefix st; _objective := _objective st;
     objective_is_min := objective_is_min st; user_cons := x;
     assump_map := assump_map st; _pum_core := _pum_core st;
     objective_value_ := objective_value_ st |}.

Definition set_assump_map (x : option (list (Predicate * Expr))) (st : State) : State :=
  {| base := base st; pum_log := pum_log st; pum_num_vars := pum_num_vars st;
     prefix := prefix st; _objective := _objective st;
     objective_is_min := objective_is_min st; user_cons := user_cons st;
     assump_map := x; _pum_core := _pum_core st;
     objective_value_ := objective_value_ st |}.

Definition set__pum_core (x : option (option (list Predicate))) (st : State) : State :=
  {| base := base st; pum_log := pum_log st; pum_num_vars := pum_num_vars st;
     prefix := prefix st; _objective := _objective st;
     objective_is_min := objective_is_min st; user_cons := user_cons st;
     assump_map := assump_map st; _pum_core := x;
     objective_value_ := objective_value_ st |}.

Definition set_objective_value_ (x : option Z) (st : State) : State :=
  {| base := base st; pum_log := pum_log st; pum_num_vars := pum_num_vars st;
     prefix := prefix st; _objective := _objective st;
     objective_is_min := objective_is_min st; user_cons := user_cons st;
     assump_map := assump_map st; _pum_core := _pum_core st; objective_value_ := x |}.

Definition upd_base (f : Base pum_expr → Base pum_expr) (st : State) : State :=
  set_base (f (base st)) st.

(** [CPM_pumpkin()], without a model *)
Definition init : State :=
  {| base := init_Base; pum_log := []; pum_num_vars := 0; prefix := None;
     _objective := None; objective_is_min := true; user_cons := [];
     assump_map := None; _pum_core := None; objective_value_ := None |}.

(** One call on the native model. *)
Definition native (e : pum_event) : M State unit :=
  modify (λ st, set_pum_log (pum_log st ++ [e]) st).

Definition next_index : M State nat :=
  let* i := gets pum_num_vars in
  modify (set_pum_num_vars (S i)) ;;
  ret i.

(** [self.pum_solver.new_boolean_variable(name=...)] *)
Definition new_bool (name : string) : M State pum_expr :=
  let* i := next_index in
  native (new_boolean_variable name) ;;
  ret (PumBool i).

(** [self.pum_solver.new_integer_variable(lb, ub, name=...)] *)
Definition new_int (lb ub : Z) (name : string) : M State pum_expr :=
  let* i := next_index in
  native (new_integer_variable lb ub name) ;;
  ret (PumInt i).

Definition has_objective : M State bool :=
  gets (λ st, bool_decide (is_Some (_objective st))).

(** ** [solver_var] and [solver_vars] *)

(** The part of [solver_var] after the two special cases. *)
Definition solver_var_cached (cpm_var : cpm_variable) : M State pum_expr :=
  let* varmap := gets (λ st, _varmap (base st)) in
  (* create if it does not exist *)
  match varmap !! cpm_var with
  | None =>
      let* revar :=
        match cpm_var with
        | BoolVarImpl _ | NegBoolView _ => new_bool (var_name cpm_var)
        | IntVarImpl _ lb ub => new_int lb ub (var_name cpm_var)
        | NumVarImpl _ => raise NotImplementedError
        end in
      modify (upd_base (λ b, set__varmap (<[cpm_var := revar]> (_varmap b)) b))
  | Some _ => ret tt
  end ;;
  (* return from cache *)
  let* varmap := gets (λ st, _varmap (base st)) in
  match varmap !! cpm_var with
  | Some h => ret h
  | None => raise KeyError
  end.

Definition solver_var (cpm_var : Expr) : M State pum_expr :=
  match cpm_var with
  | Num n => ret (PumNum n)                       (* is_num: returned as it is *)
  | Var (NegBoolView bv) =>                       (* work directly on var inside the view *)
      let* h := solver_var_cached (BoolVarImpl bv) in ret (PumNegate h)
  | Var v => solver_var_cached v
  | Lst _ => raise TypeError                      (* a list is not hashable *)
  | _ => raise NotImplementedError                (* not in _varmap, not a known var *)
  end.

(** Modelled from the spec: [SolverInterface.solver_vars], not among the
    sources: [solver_var] applied to every element of a (nested) list. *)
Fixpoint solver_vars (cpm_vars : Expr) : M State pval :=
  match cpm_vars with
  | Lst l => let* vs := mapM solver_vars l in ret (PL vs)
  | _ => let* h := solver_var cpm_vars in ret (PV h)
  end.

Definition write_value (cpm_var : cpm_variable) (v : option pyvalue) : M State unit :=
  modify (upd_base (λ b,
    set__value (match v with
                | Some x => <[cpm_var := x]> (_value b)
                | None => delete cpm_var (_value b)
                end) b)).

(** [d[k]] on [dict(zip(keys, values))]: of two entries with one key the
    later one counts. *)
Fixpoint dict_lookup (k : Predicate) (d : list (Predicate * Expr)) : option Expr :=
  match d with
  | [] => None
  | (k', v) :: rest =>
      match dict_lookup k rest with
      | Some x => Some x
      | None => if decide (k = k') then Some v else None
      end
  end.

(** [isinstance(obj, cls)] where [cls] is an expression object and not a
    class: Python raises TypeError ("isinstance() arg 2 must be a type, a
    tuple of types, or a union"). *)
Definition isinstance_of_object {A} (obj : A) (cls : Expr) : M State bool :=
  raise TypeError.

(** Structural equality of expressions: membership of an expression in a
    Python set compares hashes of the printed form. *)
Fixpoint Expr_eqb (a b : Expr) : bool :=
  let fix all_eqb (l l' : list Expr) : bool :=
    match l, l' with
    | [], [] => true
    | x :: r, y :: r' => Expr_eqb x y && all_eqb r r'
    | _, _ => false
    end in
  match a, b with
  | Num x, Num y => x =? y
  | Var x, Var y => bool_decide (x = y)
  | Lst l, Lst l' => all_eqb l l'
  | Operator n l, Operator n' l' => bool_decide (n = n') && all_eqb l l'
  | Comparison n x y, Comparison n' x' y' =>
      bool_decide (n = n') && Expr_eqb x x' && Expr_eqb y y'
  | GlobalConstraint n l, GlobalConstraint n' l' => bool_decide (n = n') && all_eqb l l'
  | BoolVal x, BoolVal y => bool_decide (x = y)
  | DirectConstraint n l, DirectConstraint n' l' => bool_decide (n = n') && all_eqb l l'
  | _, _ => false
  end.

Section WithLib.
Context (lib : CpmLib).

(** [get_variables(cpm_expr, collect=self.user_vars)] *)
Definition collect_user_vars (cpm_expr : Expr) : M State unit :=
  modify (upd_base (λ b, set_user_vars (user_vars b ∪ get_variables lib cpm_expr) b)).

(** [intvar(lb, ub)]: a new integer variable with the next free name *)
Definition intvar (lb ub : Z) : M State cpm_variable :=
  let* n := gets (λ st, iv_counter (base st)) in
  modify (upd_base (set_iv_counter (S n))) ;;
  ret (IntVarImpl (intvar_name lib n) lb ub).

(** [boolvar()] *)
Definition boolvar : M State cpm_variable :=
  let* n := gets (λ st, bv_counter (base st)) in
  modify (upd_base (set_bv_counter (S n))) ;;
  ret (BoolVarImpl (boolvar_name lib n)).

(** ** [transform] *)

Definition run_stage (s : Stage) : M State unit :=
  modify (upd_base (λ b, set_pipeline_trace (pipeline_trace b ++ [s]) b)).

Definition supported : list string :=
  ["alldifferent"; "cumulative"; "min"; "max"; "element"].

Definition supported_halfreif : list string :=
  ["or"; "sum"; "wsum"; "sub"; "mul"; "div"; "abs"; "min"; "max"; "alldifferent";
   "cumulative"].

(** No transformation is given a CSE map here: [csemap] keeps its default,
    [None]. *)
Definition transform (cpm_expr : Expr) : M State (list Expr) :=
  (* apply transformations *)
  run_stage ToplevelList ;;
  let cpm_cons := toplevel_list lib cpm_expr None in
  run_stage Decomposition ;;
  let cpm_cons := fst (decompose_in_tree lib cpm_cons supported None) in
  (* safening after decompose here, need to safen toplevel elements too
     which come from decomposition of other global constraints... *)
  run_stage Safening ;;
  let cpm_cons := no_partial_functions lib cpm_cons ["element"] in
  run_stage Flattening ;;
  let cpm_cons := fst (flatten_constraint lib cpm_cons None) in
  run_stage BvReifies ;;
  let cpm_cons := fst (only_bv_reifies lib cpm_cons None) in
  run_stage OnlyImplies ;;
  let cpm_cons := fst (only_implies lib cpm_cons None) in
  run_stage ReifyRewrite ;;
  let cpm_cons := fst (reify_rewrite lib cpm_cons supported_halfreif None) in
  run_stage NumexprEquality ;;
  let cpm_cons :=
    fst (only_numexpr_equality lib cpm_cons ["sum"; "wsum"; "sub"] None) in
  run_stage CanonicalComparison ;;
  let cpm_cons := canonical_comparison lib cpm_cons in
  ret cpm_cons.

(** ** [_ivars], [to_predicate], [_sum_args] *)

Fixpoint _ivars (cpm_var : Expr) : M State pval :=
  match cpm_var with
  | Lst l => let* vs := mapM _ivars l in ret (PL vs)
  | Var v =>
      if is_BoolVarImpl v then
        let* b := solver_var cpm_var in ret (PV (PumBoolAsInteger b))
      else
        let* h := solver_var cpm_var in ret (PV h)
  | Num n =>
      let* v := intvar n n in
      let* h := solver_var (Var v) in ret (PV h)
  | _ => let* h := solver_var cpm_var in ret (PV h)
  end.

(** A native argument that has to be one expression. *)
Definition one_expr (v : pval) : M State pum_expr :=
  match v with
  | PV e => ret e
  | _ => raise TypeError
  end.

Definition to_predicate (cpm_expr : Expr) : M State Predicate :=
  let* (lhs, comp, rhs) :=
    match cpm_expr with
    | Var (NegBoolView bv) => ret (Var (BoolVarImpl bv), Some LessThanOrEqual, 0)
    | Var (BoolVarImpl _) => ret (cpm_expr, Some GreaterThanOrEqual, 1)
    | Comparison name lhs rhs =>
        let* rhs := match rhs with
                    | Num n => ret n
                    | _ => raise AssertionError  (* rhs must be a constant *)
                    end in
        let* lhs :=
          match lhs with
          | Operator n args =>                   (* can be sum with single arg *)
              if bool_decide (n = "sum") && bool_decide (length args = 1%nat)
              then item args 0
              else raise ValueError
          | _ => ret lhs
          end in
        assert (is_NumVarImpl lhs) ;;            (* lhs should be variable *)
        ret (lhs,
             if decide (name = "==") then Some Equal
             else if decide (name = "<=") then Some LessThanOrEqual
             else if decide (name = ">=") then Some GreaterThanOrEqual
             else if decide (name = "!=") then Some NotEqual
             else if decide (name = "<") then Some LessThanOrEqual
             else if decide (name = ">") then Some GreaterThanOrEqual
             else None,
             if decide (name = "<") then rhs - 1
             else if decide (name = ">") then rhs + 1
             else rhs)
    | _ => raise ValueError
    end in
  let* var := _ivars lhs in
  let* var := one_expr var in
  match comp with
  | Some comp => ret (var, comp, rhs)
  | None => raise UnboundLocalError              (* no comparator was assigned *)
  end.

(** [cpm_var.is_bool()] *)
Definition is_bool (cpm_var : Expr) : M State bool :=
  match cpm_var with
  | Num _ | Lst _ => raise AttributeError
  | Var v => ret (is_BoolVarImpl v)
  | _ => ret false
  end.

(** One term of a sum: the solver variable, as an integer, scaled. *)
Definition sum_term (cpm_var : Expr) (w : Z) : M State pum_expr :=
  let* pum_var := solver_var cpm_var in
  let* b := is_bool cpm_var in
  (* have convert to integer *)
  let pum_var := if b : bool then PumBoolAsInteger pum_var else pum_var in
  ret (PumScaled pum_var w).

Definition is_Operator_named (name : string) (e : Expr) : bool :=
  match e with
  | Operator n _ => bool_decide (n = name)
  | _ => false
  end.

Definition _sum_args (expr : Expr) (negate : bool) : M State (list pum_expr) :=
  if is_Operator_named "sum" expr then
    let* args := attr (expr_args expr) in
    mapM (λ cpm_var, sum_term cpm_var (if negate then -1 else 1)) args
  else if is_Operator_named "wsum" expr then
    let* args := attr (expr_args expr) in
    match args with
    | [Lst ws; Lst xs] =>
        let* terms :=
          mapM (λ '(w, cpm_var),
                  match w with
                  | Num w =>
                      if w =? 0 then ret []          (* exclude *)
                      else let* t := sum_term cpm_var (if negate then - w else w) in
                           ret [t]
                  | _ => raise TypeError
                  end) (zip ws xs) in
        ret (concat terms)
    | _ => raise TypeError
    end
  else
    (* elif isinstance(Operator, expr) and expr.name == "sub":
       the arguments of isinstance stand in the wrong order *)
    let* is_op := isinstance_of_object Operator expr in
    if (is_op : bool) && bool_decide (expr_name expr = Some "sub") then
      let* args := attr (expr_args expr) in
      let* vs := mapM solver_vars args in
      let* (x, y) := unpack2 vs in
      let* x := one_expr x in
      let* y := one_expr y in
      let* a0 := item args 0 in
      let* b0 := is_bool a0 in
      let x := if b0 : bool then PumBoolAsInteger x else x in
      let* a1 := item args 1 in
      let* b1 := is_bool a1 in
      let y := if b1 : bool then PumBoolAsInteger y else y in
      ret [PumScaled x (if negate then -1 else 1); PumScaled y (if negate then 1 else -1)]
    else raise ValueError.

(** ** [_get_constraint] *)

Definition mk (kind : string) (cargs : list pval) : pum_constraint :=
  {| kind := kind; cargs := cargs |}.

(** [rhs - 1] and [- rhs]: Python arithmetic on a number, an expression
    built by CPMpy otherwise. *)
Definition minus_one (rhs : Expr) : Expr :=
  match rhs with
  | Num n => Num (n - 1)
  | _ => expr_add lib rhs (Num (-1))
  end.

Definition negated (rhs : Expr) : Expr :=
  match rhs with
  | Num n => Num (- n)
  | _ => expr_neg lib rhs
  end.

(** [isinstance(e, Expression)] *)
Definition is_Expression (e : Expr) : bool :=
  match e with Num _ | Lst _ => false | _ => true end.

(** The [==] case of the Comparison branch. *)
Definition get_equality (lhs rhs : Expr) : M State (list pum_constraint) :=
  let* lname := attr (expr_name lhs) in
  if contains "sum" lname || bool_decide (lname = "sub") then
    let* args := _sum_args lhs false in
    ret [mk "Equals" [PL (PV <$> args); PData rhs]]
  else
    let* pum_rhs := _ivars rhs in                (* other operators require IntExpression *)
    if decide (lname = "div") then
      let* args := attr (expr_args lhs) in
      let* vs := mapM _ivars args in
      ret [mk "Division" (vs ++ [pum_rhs])]
    else if decide (lname = "mul") then
      let* args := attr (expr_args lhs) in
      let* vs := mapM _ivars args in
      ret [mk "Times" (vs ++ [pum_rhs])]
    else if decide (lname = "abs") then
      let* v := solver_var lhs in
      ret [mk "Absolute" [PV v; pum_rhs]]
    else if decide (lname = "min") then
      let* args := attr (expr_args lhs) in
      let* vs := _ivars (Lst args) in
      ret [mk "Minimum" [vs; pum_rhs]]
    else if decide (lname = "max") then
      let* args := attr (expr_args lhs) in
      let* vs := _ivars (Lst args) in
      ret [mk "Maximum" [vs; pum_rhs]]
    else if decide (lname = "element") then
      let* args := attr (expr_args lhs) in
      let* (arr, idx) := unpack2 args in
      let* i := _ivars idx in
      let* a := _ivars arr in
      ret [mk "Element" [i; a; pum_rhs]]
    else raise NotImplementedError.

(** [[s + d == e for s, d, e in zip(start, dur, end)]] *)
Definition task_equations (start dur end_ : Expr) : M State (list Expr) :=
  match start, dur, end_ with
  | Lst ls, Lst ld, Lst le =>
      ret ((λ '(s, d, e), expr_eq lib (expr_add lib s d) e) <$> zip (zip ls ld) le)
  | _, _, _ => raise TypeError
  end.

(** [all(is_num(d) for d in l)] *)
Definition all_is_num (l : Expr) : M State bool :=
  match l with
  | Lst l => ret (forallb is_num l)
  | _ => raise TypeError
  end.

(** [_get_constraint], with its recursive use (on the equations of a
    cumulative constraint) as a parameter. *)
Definition _get_constraint_body (self_get : Expr → M State (list pum_constraint))
    (cpm_expr : Expr) : M State (list pum_constraint) :=
  match cpm_expr with
  | Var v =>
      if is_BoolVarImpl v then
        (* base case, just var or ~var *)
        let* h := solver_var cpm_expr in ret [mk "Clause" [PL [PV h]]]
      else raise ValueError
  | Operator name args =>
      if decide (name = "or") then
        let* vs := solver_vars (Lst args) in ret [mk "Clause" [vs]]
      else raise NotImplementedError
  | Comparison name lhs rhs =>
      assert (is_Expression lhs) ;;
      if match lhs with
         | Operator n args => bool_decide (n = "sum") && bool_decide (length args = 1%nat)
         | _ => false
         end then
        (* a predicate *)
        let* (var, comp, r) := to_predicate cpm_expr in
        ret [mk "Clause" [PL [PV (PumPredicateAsBoolean var comp r)]]]
      else if decide (name = "==") then get_equality lhs rhs
      else if decide (name = "<=") then
        let* args := _sum_args lhs false in
        ret [mk "LessThanOrEquals" [PL (PV <$> args); PData rhs]]
      else if decide (name = "<") then
        let* args := _sum_args lhs false in
        ret [mk "LessThanOrEquals" [PL (PV <$> args); PData (minus_one rhs)]]
      else if decide (name = ">=") then
        let* args := _sum_args lhs true in
        ret [mk "LessThanOrEquals" [PL (PV <$> args); PData (negated rhs)]]
      else if decide (name = ">") then
        let* args := _sum_args lhs true in
        ret [mk "LessThanOrEquals" [PL (PV <$> args); PData (minus_one (negated rhs))]]
      else if decide (name = "!=") then
        let* args := _sum_args lhs false in
        ret [mk "NotEquals" [PL (PV <$> args); PData rhs]]
      else raise ValueError
  | GlobalConstraint name args =>
      if decide (name = "alldifferent") then
        let* vs := solver_vars (Lst args) in ret [mk "AllDifferent" [vs]]
      else if decide (name = "cumulative") then
        match args with
        | [start; dur; end_; demand; cap] =>
            let* fixed_dur := all_is_num dur in
            assert fixed_dur ;;
            let* fixed_demand := all_is_num demand in
            assert fixed_demand ;;
            assert (is_num cap) ;;
            let* s := solver_vars start in
            let* eqs := task_equations start dur end_ in
            let* cs := transform (Lst eqs) in
            let* firsts := mapM (λ c, let* l := self_get c in item l 0) cs in
            ret (mk "Cumulative" [s; PData dur; PData demand; PData cap] :: firsts)
        | _ => raise ValueError
        end
      else raise NotImplementedError
  | BoolVal b =>                                  (* unlikely base case *)
      if b then
        let* v := boolvar in                      (* dummy variable *)
        let* a := solver_var (Var v) in
        ret [mk "Clause" [PL [PV a]]]
      else ret [mk "Clause" [PL []]]
  | _ => raise ValueError
  end.

(** [fuel] bounds the depth of the Python call stack. *)
Fixpoint _get_constraint (fuel : nat) (cpm_expr : Expr) : M State (list pum_constraint) :=
  match fuel with
  | O => raise RecursionError
  | S fuel' => _get_constraint_body (_get_constraint fuel') cpm_expr
  end.

(** ** [__add__] and [objective] *)

Definition __add__ (fuel : nat) (cpm_expr_orig : Expr) : M State unit :=
  (* add new user vars to the set *)
  collect_user_vars cpm_expr_orig ;;
  (* transform and post the constraints *)
  for_each (toplevel_list lib cpm_expr_orig (Some true)) (λ orig_expr,
    let* known := gets (λ st, existsb (λ '(_, c), Expr_eqb orig_expr c) (user_cons st)) in
    if known : bool then ret tt                   (* continue *)
    else
      let* constraint_tag := gets (λ st, Z.of_nat (length (user_cons st)) + 1) in
      modify (λ st, set_user_cons (user_cons st ++ [(constraint_tag, orig_expr)]) st) ;;
      let* cpm_cons := transform orig_expr in
      for_each cpm_cons (λ cpm_expr,
        let tag : option Z := None in             (* tag = constraint_tag; tag = None *)
        match cpm_expr with
        | Operator "->" args =>                   (* found implication *)
            let* (bv, subexpr) := unpack2 args in
            let* solver_constraints := _get_constraint fuel subexpr in
            for_each solver_constraints (λ cons,
              let* lit := solver_var bv in
              native (add_implication cons lit tag))
        | _ =>
            let* solver_constraints := _get_constraint fuel cpm_expr in
            for_each solver_constraints (λ cons, native (add_constraint cons tag))
        end)).

Definition objective (fuel : nat) (expr : Expr) (minimize : bool) : M State unit :=
  (* make objective function non-nested *)
  let '(lb, ub) := get_bounds lib expr in
  let* obj_var := intvar lb ub in
  __add__ fuel (expr_eq lib expr (Var obj_var)) ;;
  (* make objective function or variable and post *)
  modify (set__objective (Some obj_var)) ;;
  modify (set_objective_is_min minimize).

(** ** [solve] *)

Record solve_args := {
  time_limit : option Q;
  proof : option string;
  assumptions : option (list Expr);
  kwargs : list (string * pyvalue)
}.

Record pum_response := {
  resp_result : pum_result;        (* what the native solve call returns *)
  resp_elapsed : Q                 (* [time.time() - start_time] *)
}.

(** [proof[proof]]: subscripting [None] or a string by a string, a
    TypeError either way. *)
Definition subscript_by_itself {A} (proof : option string) : M State A :=
  raise TypeError.

Definition classify (e : ExitStatus) : M State unit :=
  modify (upd_base (set_exitstatus e)).

Definition solve (args : solve_args) (resp : pum_response) : M State bool :=
  (* ensure all vars are known to solver *)
  let* uv := gets (λ st, elements (user_vars (base st))) in
  solver_vars (Lst (Var <$> uv)) ;;
  (* call the solver, with parameters *)
  match proof args with
  | Some p => modify (set_prefix (Some p))
  | None => ret tt
  end ;;
  let* has_obj := has_objective in
  let* call :=
    if has_obj : bool then
      assert (bool_decide (assumptions args = None)) ;;
      let* obj := gets _objective in
      let* obj_var := solver_var (default (Num 0) (Var <$> obj)) in
      let* is_min := gets objective_is_min in
      ret (optimise (proof args) obj_var is_min (kwargs args))
    else
      match assumptions args with
      | Some assum =>
          assert (bool_decide (proof args = None)) ;;
          let* pum_assumptions := mapM to_predicate assum in
          modify (set_assump_map (Some (zip pum_assumptions assum))) ;;
          ret (satisfy_under_assumptions pum_assumptions (kwargs args))
      | None =>
          (* solve_func = self.pum_solver.satisfy; kwargs.update(proof[proof]) *)
          let* extra := subscript_by_itself (proof args) in
          ret (satisfy (kwargs args ++ extra))
      end in
  modify (set__pum_core (Some None)) ;;
  native call ;;
  let result := resp_result resp in
  (* new status, translate runtime *)
  modify (upd_base (set_cpm_status
    {| exitstatus := None; runtime := Some (resp_elapsed resp) |})) ;;
  (* translate solver exit status to CPMpy exit status *)
  (if has_obj : bool then                         (* check result after optimisation *)
     match result with
     | Optimisation_Optimal _ => classify OPTIMAL
     | Optimisation_Satisfiable _ => classify FEASIBLE
     | Optimisation_Unsatisfiable => classify UNSATISFIABLE
     | Optimisation_Unknown => classify UNKNOWN
     | _ => raise ValueError
     end
   else if bool_decide (is_Some (assumptions args)) then   (* check result under assumptions *)
     match result with
     | UnderAssumptions_Satisfiable _ => classify OPTIMAL
     | UnderAssumptions_Unsatisfiable => classify UNSATISFIABLE
     | UnderAssumptions_UnsatisfiableUnderAssumptions core =>
         classify UNSATISFIABLE ;;
         modify (set__pum_core (Some (Some core)))
     | UnderAssumptions_Unknown => classify UNKNOWN
     | _ => raise ValueError
     end
   else                                           (* satisfaction result without assumptions *)
     match result with
     | Satisfaction_Satisfiable _ => classify OPTIMAL
     | Satisfaction_Unsatisfiable => classify UNSATISFIABLE
     | Satisfaction_Unknown => classify UNKNOWN
     | _ => raise ValueError
     end) ;;
  (* translate solution (of user vars only) *)
  let* has_sol := gets (λ st, _solve_return (cpm_status (base st))) in
  let* uv := gets (λ st, elements (user_vars (base st))) in
  (if has_sol : bool then
     let* solution := attr (result_solution result) in
     classify OPTIMAL ;;
     (* fill in variable values *)
     for_each uv (λ cpm_var,
       let* sol_var := solver_var (Var cpm_var) in
       if is_PumpkinInt sol_var then
         write_value cpm_var (Some (PyInt (int_value solution sol_var)))
       else if is_PumpkinBool sol_var then
         write_value cpm_var (Some (PyBool (bool_value solution sol_var)))
       else raise NotSupportedError) ;;
     (* translate solution values *)
     if has_obj : bool then
       let* obj := gets _objective in
       let* obj_var := solver_var (default (Num 0) (Var <$> obj)) in
       modify (set_objective_value_ (Some (int_value solution obj_var)))
     else ret tt
   else                                           (* wipe results *)
     for_each uv (λ cpm_var, write_value cpm_var None)) ;;
  ret has_sol.

End WithLib.

(** ** [get_core] *)

Definition get_core : M State (list Expr) :=
  let* core := gets _pum_core in
  match core with
  | None => raise AttributeError                 (* no solve() yet *)
  | Some core =>
      assert (bool_decide (is_Some core)) ;;
      let* m := gets assump_map in
      let* m := attr m in
      mapM (λ pred, match dict_lookup pred m with
                    | Some x => ret x
                    | None => raise KeyError
                    end) (default [] core)
  end.

End Pumpkin.

(** * Sequences of calls

    What a caller does to an adapter between two solves: [add] and
    [objective], in any order.  A call that raises leaves the adapter as
    it was when the error occurred, and the caller may go on. *)
Inductive call :=
| Add (cpm_expr : Expr)                          (* [s += cpm_expr] *)
| Objective (expr : Expr) (minimize : bool).     (* [s.objective(expr, minimize)] *)

Definition ort_call (lib : CpmLib) (fuel : nat) (c : call) : M Ortools.State unit :=
  match c with
  | Add e => Ortools.add lib fuel e
  | Objective e minimize => Ortools.objective lib fuel e minimize
  end.

Definition pum_call (lib : CpmLib) (fuel : nat) (c : call) : M Pumpkin.State unit :=
  match c with
  | Add e => Pumpkin.__add__ lib fuel e
  | Objective e minimize => Pumpkin.objective lib fuel e minimize
  end.

Definition ort_calls (lib : CpmLib) (fuel : nat) (cs : list call)
    (st : Ortools.State) : Ortools.State :=
  foldl (λ st c, exec (ort_call lib fuel c) st) st cs.

Definition pum_calls (lib : CpmLib) (fuel : nat) (cs : list call)
    (st : Pumpkin.State) : Pumpkin.State :=
  foldl (λ st c, exec (pum_call lib fuel c) st) st cs.

(** * Sample instances: a stand-in for the CPMpy library and a few inputs,
    on which the theorems below are run *)
Module Samples.

(** The variables of an expression, a view counted as its variable. *)
Fixpoint vars_of (e : Expr) : gset cpm_variable :=
  match e with
  | Var (NegBoolView bv) => {[ BoolVarImpl bv ]}
  | Var v => {[ v ]}
  | Num _ | BoolVal _ => ∅
  | Lst l | Operator _ l | GlobalConstraint _ l | DirectConstraint _ l =>
      ⋃ (vars_of <$> l)
  | Comparison _ a b => vars_of a ∪ vars_of b
  end.

(** What [canonical_comparison] does to a comparison of two variables and
    to a comparison with a subtraction on the left: [x == y] becomes
    [wsum([1, -1], [x, y]) == 0], and [x - y == c] becomes
    [wsum([1, -1], [x, y]) == c]. *)
Definition canonical (e : Expr) : Expr :=
  match e with
  | Comparison n (Var a) (Var b) =>
      Comparison n (Operator "wsum" [Lst [Num 1; Num (-1)]; Lst [Var a; Var b]]) (Num 0)
  | Comparison n (Operator "sub" [a; b]) rhs =>
      Comparison n (Operator "wsum" [Lst [Num 1; Num (-1)]; Lst [a; b]]) rhs
  | _ => e
  end.

(** A small library: the transformations leave flat constraints as they
    are. *)
Definition lib0 : CpmLib :=
  {| get_variables := vars_of;
     toplevel_list := λ e _, match e with Lst l => l | _ => [e] end;
     no_partial_functions := λ l _, l;
     decompose_in_tree := λ l _ c, (l, c);
     flatten_constraint := λ l c, (l, c);
     reify_rewrite := λ l _ c, (l, c);
     only_numexpr_equality := λ l _ c, (l, c);
     only_bv_reifies := λ l c, (l, c);
     only_implies := λ l c, (l, c);
     canonical_comparison := λ l, canonical <$> l;
     flatten_objective := λ e, (e, []);
     get_or_make_var := λ e c, ((e, []), c);
     get_bounds := λ _, (0, 10);
     expr_eq := Comparison "==";
     expr_add := λ a b, Operator "sum" [a; b];
     expr_mul := λ a b, Operator "mul" [a; b];
     expr_neg := λ a, Operator "-" [a];
     intvar_name := λ n, "IV" +:+ pretty n;
     boolvar_name := λ n, "BV" +:+ pretty n |}.

Definition a : cpm_variable := BoolVarImpl "a".
Definition b : cpm_variable := BoolVarImpl "b".
Definition x : cpm_variable := IntVarImpl "x" 0 10.
Definition y : cpm_variable := IntVarImpl "y" 0 10.

End Samples.

(** Sample calls, native answers and adapter states. *)
Module Scenarios.
Import Samples.

(** A native Pumpkin solution: every integer is 0, every Boolean true. *)
Definition pum_solution0 : Pumpkin.pum_solution :=
  {| Pumpkin.int_value := λ _, 0; Pumpkin.bool_value := λ _, true |}.

Definition pum_resp (result : Pumpkin.pum_result) : Pumpkin.pum_response :=
  {| Pumpkin.resp_result := result; Pumpkin.resp_elapsed := 0 |}.

(** The predicate [a >= 1] of the assumption [a], the first native
    variable of a fresh adapter. *)
Definition pum_a_holds : Pumpkin.Predicate :=
  (Pumpkin.PumBoolAsInteger (Pumpkin.PumBool 0), Pumpkin.GreaterThanOrEqual, 1).

(** [solve()] *)
Definition pum_plain : Pumpkin.solve_args :=
  {| Pumpkin.time_limit := None; Pumpkin.proof := None;
     Pumpkin.assumptions := None; Pumpkin.kwargs := [] |}.

(** [solve(assumptions=[a])] *)
Definition pum_assuming : Pumpkin.solve_args :=
  {| Pumpkin.time_limit := None; Pumpkin.proof := None;
     Pumpkin.assumptions := Some [Var a]; Pumpkin.kwargs := [] |}.

(** [solve(time_limit=-1, assumptions=[a])] *)
Definition pum_negative_limit : Pumpkin.solve_args :=
  {| Pumpkin.time_limit := Some (-1 # 1)%Q; Pumpkin.proof := None;
     Pumpkin.assumptions := Some [Var a]; Pumpkin.kwargs := [] |}.



(** A Pumpkin adapter after [minimize(x)]. *)
Definition pum_minimizing : Pumpkin.State :=
  exec (Pumpkin.objective lib0 10 (Var x) true) Pumpkin.init.

(** A native OR-Tools answer: every parameter is taken, every variable has
    the value 1. *)
Definition ort_resp (status : Ortools.ort_native_status)
    (enumerated : list Ortools.ort_solution) : Ortools.OrtResponse :=
  {| Ortools.resp_setattr := λ _ _, None;
     Ortools.resp_status := status; Ortools.resp_walltime := 0;
     Ortools.resp_solution := λ _, Some 1; Ortools.resp_objective := 0;
     Ortools.resp_core := []; Ortools.resp_enumerated := enumerated |}.

(** The native answer INFEASIBLE, with the indices of a core. *)
Definition ort_infeasible (core : list Z) : Ortools.OrtResponse :=
  {| Ortools.resp_setattr := λ _ _, None;
     Ortools.resp_status := Ortools.ORT_INFEASIBLE; Ortools.resp_walltime := 0;
     Ortools.resp_solution := λ _, None; Ortools.resp_objective := 0;
     Ortools.resp_core := core; Ortools.resp_enumerated := [] |}.

(** [solve()] *)
Definition ort_plain : Ortools.solve_args :=
  {| Ortools.time_limit := None; Ortools.assumptions := None;
     Ortools.solution_callback := None; Ortools.kwargs := [];
     Ortools.stdout_redirected := false |}.

(** [solve(time_limit=-1)] *)
Definition ort_negative_limit : Ortools.solve_args :=
  {| Ortools.time_limit := Some (-1 # 1)%Q; Ortools.assumptions := None;
     Ortools.solution_callback := None; Ortools.kwargs := [];
     Ortools.stdout_redirected := false |}.

(** [solve(assumptions=[a])] *)
Definition ort_assuming : Ortools.solve_args :=
  {| Ortools.time_limit := None; Ortools.assumptions := Some [Var a];
     Ortools.solution_callback := None; Ortools.kwargs := [];
     Ortools.stdout_redirected := false |}.

(** An OR-Tools adapter whose user variables are [a] and [x], none of them
    known to the native model yet. *)
Definition ort_with_vars : Ortools.State :=
  exec (Ortools.collect_user_vars lib0 (Lst [Var a; Var x])) Ortools.init.

(** An OR-Tools adapter after [minimize(x)]. *)
Definition ort_minimizing : Ortools.State :=
  exec (Ortools.objective lib0 10 (Var x) true) Ortools.init.

End Scenarios.

(** * Properties

    The vocabulary of the theorems: frames, the contract of the variable
    cache, and, for each adapter, what its native log and its cache say. *)

(** [keeps R f m]: whatever [m] does and however it ends, the observation
    [f] of the state moves along [R].  With [R] equality this is a frame
    condition, with [R] an order it is monotonicity. *)
Definition keeps {S X A} (R : relation X) (f : S → X) (m : M S A) : Prop :=
  ∀ s, R (f s) (f (snd (m s))).

(** [l'] is [l] followed by events that all satisfy [P]. *)
Definition extends_by {E} (P : E → bool) : relation (list E) :=
  λ l l', ∃ evs, l' = l ++ evs ∧ Forall (λ e, P e = true) evs.

(** A negated view of a Boolean variable ([NegBoolView]). *)
Definition is_view (v : cpm_variable) : bool :=
  match v with NegBoolView _ => true | _ => false end.

(** The variables an adapter makes a native variable for. *)
Definition is_known (v : cpm_variable) : bool :=
  match v with BoolVarImpl _ | IntVarImpl _ _ _ => true | _ => false end.

(** The handle [solver_var] answers for a variable, read off a cache: a
    view resolves to the negation of the entry of its variable. *)
Definition handle_of {H} (negate : H → H) (varmap : gmap cpm_variable H)
    (v : cpm_variable) : option H :=
  match v with
  | NegBoolView bv => negate <$> varmap !! BoolVarImpl bv
  | _ => varmap !! v
  end.

(** What the spec asks of [solver_var], for any adapter: [varmap] reads
    the cache, [calls] counts the native calls made so far and [accepts]
    says which variables the native model makes a variable for. *)
Record solver_var_contract {S H} (solver_var : Expr → M S H)
    (varmap : S → gmap cpm_variable H) (calls : S → nat)
    (number : Z → H) (negate : H → H) (accepts : cpm_variable → bool) : Prop := {
  sv_number : ∀ n st, solver_var (Num n) st = (Ok (number n), st);
  sv_view : ∀ bv st,
    solver_var (Var (NegBoolView bv)) st
    = (let* h := solver_var (Var (BoolVarImpl bv)) in ret (negate h)) st;
  sv_view_not_stored : ∀ e bv st,
    varmap st !! NegBoolView bv = None →
    varmap (exec (solver_var e) st) !! NegBoolView bv = None;
  sv_first : ∀ v st,
    is_known v = true → accepts v = true → varmap st !! v = None →
    ∃ h st', solver_var (Var v) st = (Ok h, st')
             ∧ varmap st' = <[v := h]> (varmap st)
             ∧ calls st' = Datatypes.S (calls st);
  sv_refused : ∀ v st,
    is_known v = true → accepts v = false → varmap st !! v = None →
    ∃ e, solver_var (Var v) st = (Raise e, st);
  sv_cached : ∀ v h st,
    is_view v = false → varmap st !! v = Some h →
    solver_var (Var v) st = (Ok h, st);
  sv_stable : ∀ e v h st,
    varmap st !! v = Some h → varmap (exec (solver_var e) st) !! v = Some h;
  sv_unknown : ∀ n st,
    varmap st !! NumVarImpl n = None →
    solver_var (Var (NumVarImpl n)) st = (Raise NotImplementedError, st)
}.

(** ** Of the OR-Tools adapter *)
Module OrtSpec.
Import Ortools.

(** The adapter after it has made the native variable of [v], by the
    native call [ev]. *)
Definition created (v : cpm_variable) (ev : ort_event) (st : State) : State :=
  upd_base (λ b, set__varmap (<[v := OrtVar (ort_num_vars st)]> (_varmap b)) b)
    (set_ort_num_vars (Datatypes.S (ort_num_vars st)) (set_ort_log (ort_log st ++ [ev]) st)).

(** The native call that makes the variable of [v]. *)
Definition creation_event (v : cpm_variable) : ort_event :=
  match v with
  | IntVarImpl _ lb ub => NewIntVar lb ub (var_name v)
  | _ => NewBoolVar (var_name v)
  end.

(** The value [solve] stores for a user variable: the native value of its
    handle, as a Boolean for a Boolean variable. *)
Definition read_back (sol : ort_solution) (varmap : gmap cpm_variable ort_handle)
    (v : cpm_variable) : option pyvalue :=
  z ← handle_of OrtNot varmap v ≫= Value sol;
  Some (if is_BoolVarImpl v then PyBool (negb (z =? 0)) else PyInt z).

(** The loop that fills in the values. *)
Definition fill_value (sol : ort_solution) (cpm_var : cpm_variable) : M State unit :=
  let* h := solver_var (Var cpm_var) in
  match Value sol h with
  | None => raise ValueError
  | Some v =>
      write_value cpm_var (Some (PyInt v)) ;;
      if is_BoolVarImpl cpm_var
      then write_value cpm_var (Some (PyBool (truthy (PyInt v))))
      else ret tt
  end.

(** The last part of [solve]: from the classified status on. *)
Definition read_solution (resp : OrtResponse) (has_obj : bool) : M State bool :=
  let* has_sol := gets (λ st, _solve_return (cpm_status (base st))) in
  modify (set_objective_value_ None) ;;
  let* uv := gets (λ st, elements (user_vars (base st))) in
  (if has_sol : bool then
     for_each uv (fill_value (resp_solution resp)) ;;
     if has_obj : bool then modify (set_objective_value_ (Some (resp_objective resp)))
     else ret tt
   else
     for_each uv (λ cpm_var, write_value cpm_var None)) ;;
  ret has_sol.

(** How many solutions the callback has counted when the native solver is
    done with a list of solutions: it stops at the solution that brings the
    count to the limit. *)
Fixpoint reported (limit : option Z) (count : nat) (sols : list ort_solution) : nat :=
  match sols with
  | [] => count
  | _ :: rest =>
      if bool_decide (Some (Z.of_nat (S count)) = limit) then S count
      else reported limit (S count) rest
  end.

(** The solver-independent status for a native status this adapter
    knows; [None] for MODEL_INVALID and for a status it does not know. *)
Definition classified (status : ort_native_status) (has_obj enumerating : bool)
  : option ExitStatus :=
  match status with
  | ORT_FEASIBLE => Some FEASIBLE
  | ORT_OPTIMAL => Some (if has_obj || enumerating then OPTIMAL else FEASIBLE)
  | ORT_INFEASIBLE => Some UNSATISFIABLE
  | ORT_UNKNOWN => Some UNKNOWN
  | ORT_MODEL_INVALID | ORT_OTHER _ => None
  end.

End OrtSpec.

(** ** Of the Pumpkin adapter *)
Module PumSpec.
Import Pumpkin.

(** The adapter after it has made the native variable [h] of [v], by the
    native call [ev]. *)
Definition created (v : cpm_variable) (h : pum_expr) (ev : pum_event) (st : State) : State :=
  upd_base (λ b, set__varmap (<[v := h]> (_varmap b)) b)
    (set_pum_log (pum_log st ++ [ev]) (set_pum_num_vars (S (pum_num_vars st)) st)).

(** The native call that makes the variable of [v]. *)
Definition creation_event (v : cpm_variable) : pum_event :=
  match v with
  | IntVarImpl _ lb ub => new_integer_variable lb ub (var_name v)
  | _ => new_boolean_variable (var_name v)
  end.

(** The native variable the next creation returns. *)
Definition fresh_handle (v : cpm_variable) (st : State) : pum_expr :=
  match v with
  | IntVarImpl _ _ _ => PumInt (pum_num_vars st)
  | _ => PumBool (pum_num_vars st)
  end.

(** The value [solve] stores for a user variable: what the solution holds
    for its handle, read as an integer or as a Boolean by the kind of the
    handle. *)
Definition read_back (solution : pum_solution) (varmap : gmap cpm_variable pum_expr)
    (v : cpm_variable) : option pyvalue :=
  h ← handle_of PumNegate varmap v;
  if is_PumpkinInt h then Some (PyInt (int_value solution h))
  else if is_PumpkinBool h then Some (PyBool (bool_value solution h))
  else None.

(** The loop that fills in the values. *)
Definition fill_value (solution : pum_solution) (cpm_var : cpm_variable) : M State unit :=
  let* sol_var := solver_var (Var cpm_var) in
  if is_PumpkinInt sol_var then
    write_value cpm_var (Some (PyInt (int_value solution sol_var)))
  else if is_PumpkinBool sol_var then
    write_value cpm_var (Some (PyBool (bool_value solution sol_var)))
  else raise NotSupportedError.

(** The last part of [solve]: from the classified status on. *)
Definition read_solution (result : pum_result) (has_obj : bool) : M State bool :=
  let* has_sol := gets (λ st, _solve_return (cpm_status (base st))) in
  let* uv := gets (λ st, elements (user_vars (base st))) in
  (if has_sol : bool then
     let* solution := attr (result_solution result) in
     classify OPTIMAL ;;
     for_each uv (fill_value solution) ;;
     if has_obj : bool then
       let* obj := gets _objective in
       let* obj_var := solver_var (default (Num 0) (Var <$> obj)) in
       modify (set_objective_value_ (Some (int_value solution obj_var)))
     else ret tt
   else
     for_each uv (λ cpm_var, write_value cpm_var None)) ;;
  ret has_sol.

(** Every Boolean variable in the cache has a native Boolean expression. *)
Definition typed_cache (m : gmap cpm_variable pum_expr) : Prop :=
  ∀ v h, m !! v = Some h → is_BoolVarImpl v = true →
         is_PumpkinInt h = false ∧ is_PumpkinBool h = true.

Definition stays_typed : relation (gmap cpm_variable pum_expr) :=
  λ m m', typed_cache m → typed_cache m'.

End PumSpec.

(** * Solver utilities ([cpmpy/solvers/utils.py]) *)
Module Utils.

(** ** [param_combinations] *)

Section ParamCombinations.
Context {V : Type}.

(** A generator at work: the dict [cur_params] it shares with its recursive
    calls, and what it has yielded so far. *)
Record generator := {
  cur_params : gmap string V;
  yielded : list (gmap string V)
}.

(** [all_params[key]] on a dict given by its items, in insertion order. *)
Fixpoint dict_get {A} (d : list (string * A)) (key : string) : option A :=
  match d with
  | [] => None
  | (k, x) :: rest => if decide (k = key) then Some x else dict_get rest key
  end.

(** [cur_params[cur_key] = cur_value] *)
Definition set_param (cur_key : string) (cur_value : V) (g : generator) : generator :=
  {| cur_params := <[cur_key := cur_value]> (cur_params g); yielded := yielded g |}.

(** [yield dict(cur_params)]: a copy *)
Definition yield_copy (g : generator) : generator :=
  {| cur_params := cur_params g; yielded := yielded g ++ [cur_params g] |}.

(** The body of [param_combinations] once [remaining_keys] and
    [cur_params] are set. *)
Fixpoint param_combinations_from (all_params : list (string * list V))
    (remaining_keys : list string) : M generator unit :=
  match remaining_keys with
  | [] => raise IndexError                       (* remaining_keys[0] *)
  | cur_key :: rest =>
      let* values := match dict_get all_params cur_key with
                     | Some values => ret values
                     | None => raise KeyError
                     end in
      for_each values (λ cur_value,
        modify (set_param cur_key cur_value) ;;
        if bool_decide (length remaining_keys = 1%nat) then
          (* terminal, return copy *)
          modify yield_copy
        else
          (* recursive call *)
          param_combinations_from all_params rest)
  end.

(** [param_combinations(all_params, remaining_keys, cur_params)], run to
    its end: how it ends, and the generator then. *)
Definition param_combinations (all_params : list (string * list V))
    (remaining_keys : option (list string)) (cur_params : option (gmap string V))
  : res unit * generator :=
  match remaining_keys, cur_params with
  | Some remaining_keys, Some cur_params =>
      param_combinations_from all_params remaining_keys
        {| cur_params := cur_params; yielded := [] |}
  | _, _ =>
      (* init *)
      param_combinations_from all_params (fst <$> all_params)
        {| cur_params := ∅; yielded := [] |}
  end.

End ParamCombinations.

(** ** [SolverLookup] *)

Inductive solver_class :=
| CPM_ortools | CPM_z3 | CPM_minizinc | CPM_gcs | CPM_gurobi | CPM_pysat
| CPM_pysdd | CPM_exact | CPM_choco | CPM_pumpkin | CPM_cpo.

#[global] Instance solver_class_eq_dec : EqDecision solver_class.
Proof. solve_decision. Defined.

(** Return ordered list of (name, class) of base CPMpy solvers; first one
    is default. *)
Definition base_solvers : list (string * solver_class) :=
  [("ortools", CPM_ortools); ("z3", CPM_z3); ("minizinc", CPM_minizinc);
   ("gcs", CPM_gcs); ("gurobi", CPM_gurobi); ("pysat", CPM_pysat);
   ("pysdd", CPM_pysdd); ("exact", CPM_exact); ("choco", CPM_choco);
   ("pumpkin", CPM_pumpkin); ("cpo", CPM_cpo)].

(** What the solver classes answer on this system: [CPM_slv.supported()],
    and [CPM_slv.solvernames()] for a class that has this attribute. *)
Record installation := {
  cls_supported : solver_class → bool;
  cls_solvernames : solver_class → option (list string)
}.

(** [':' in s] and [s.split(':', maxsplit=1)] in one: the parts before and
    after the first colon, if there is a colon. *)
Fixpoint split_colon (s : string) : option (string * string) :=
  match s with
  | "" => None
  | String c rest =>
      if bool_decide (String c "" = ":") then Some ("", rest)
      else match split_colon rest with
           | Some (before, after) => Some (String c before, after)
           | None => None
           end
  end.

(** [SolverLookup.supported()] *)
Definition supported (sys : installation) : list string :=
  foldl (λ names '(basename, CPM_slv),
           if cls_supported sys CPM_slv then
             let names := names ++ [basename] in
             match cls_solvernames sys CPM_slv with
             | Some subnames => names ++ ((λ subn, basename +:+ ":" +:+ subn) <$> subnames)
             | None => names
             end
           else names)
        [] base_solvers.

(** [SolverLookup.solvernames()] *)
Definition solvernames (sys : installation) : list string := supported sys.

(** [SolverLookup.lookup(name)] *)
Definition lookup (name : option string) : res solver_class :=
  match name with
  | None =>
      (* first solver class *)
      match base_solvers with
      | (_, CPM_slv) :: _ => Ok CPM_slv
      | [] => Raise IndexError
      end
  | Some name =>
      (* split name if relevant *)
      let solvername := match split_colon name with
                        | Some (solvername, _) => solvername
                        | None => name
                        end in
      match List.find (λ '(basename, _), bool_decide (basename = solvername)) base_solvers with
      | Some (_, CPM_slv) => Ok CPM_slv          (* found the right solver *)
      | None => Raise ValueError
      end
  end.

(** [SolverLookup.get(name, model)], up to the call of the constructor it
    ends with: the class and the [subsolver] argument of that call. *)
Definition get (name : option string) : res (solver_class * option string) :=
  match lookup name with
  | Ok solver_cls =>
      (* check for a 'solver:subsolver' name *)
      let subname := match name with
                     | Some name => snd <$> split_colon name
                     | None => None
                     end in
      Ok (solver_cls, subname)
  | Raise e => Raise e
  end.

(** [builtin_solvers] and [get_supported_solvers()] *)
Definition builtin_solvers : list solver_class :=
  [CPM_ortools; CPM_gurobi; CPM_minizinc; CPM_pysat; CPM_exact; CPM_choco].

Definition get_supported_solvers (sys : installation) : list solver_class :=
  List.filter (cls_supported sys) builtin_solvers.

End Utils.

(** ** What [param_combinations] is to yield, and sample inputs *)
Module UtilsSpec.
Import Utils.

(** All combinations of one value per key, the first key varying slowest. *)
Fixpoint combinations {V} (ps : list (string * list V)) : list (gmap string V) :=
  match ps with
  | [] => [∅]
  | (k, vs) :: rest => vs ≫= λ v, (λ d, <[k := v]> d) <$> combinations rest
  end.

(** The example of the docstring: [{'val': [1,2], 'opt': [True,False]}]. *)
Definition docstring_params : list (string * list pyvalue) :=
  [("val", [PyInt 1; PyInt 2]); ("opt", [PyBool true; PyBool false])].

(** A system with OR-Tools and MiniZinc, the latter with two subsolvers. *)
Definition two_solvers : installation :=
  {| cls_supported := λ c, bool_decide (c = CPM_ortools ∨ c = CPM_minizinc);
     cls_solvernames := λ c, if decide (c = CPM_minizinc)
                             then Some ["gecode"; "chuffed"] else None |}.

End UtilsSpec.

(** * An adapter in use

    The states an adapter object goes through: made without a model, then
    used through its methods in any order.  A call that raises leaves the
    object as it was when the error occurred. *)
Inductive pum_reachable (lib : CpmLib) : Pumpkin.State → Prop :=
| pum_reach_init : pum_reachable lib Pumpkin.init
| pum_reach_add fuel e st :
    pum_reachable lib st → pum_reachable lib (exec (Pumpkin.__add__ lib fuel e) st)
| pum_reach_objective fuel e minimize st :
    pum_reachable lib st → pum_reachable lib (exec (Pumpkin.objective lib fuel e minimize) st)
| pum_reach_solve args resp st :
    pum_reachable lib st → pum_reachable lib (exec (Pumpkin.solve lib args resp) st)
| pum_reach_get_core st :
    pum_reachable lib st → pum_reachable lib (exec Pumpkin.get_core st)
| pum_reach_solver_var e st :
    pum_reachable lib st → pum_reachable lib (exec (Pumpkin.solver_var e) st).

(** [P] holds afterwards if it held before. *)
Definition preserved {X} (P : X → Prop) : relation X := λ a b, P a → P b.

(** The native calls that make a variable. *)
Definition pum_creates_variable (e : Pumpkin.pum_event) : bool :=
  match e with
  | Pumpkin.new_boolean_variable _ | Pumpkin.new_integer_variable _ _ _ => true
  | _ => false
  end.

(** What the cache of a Pumpkin adapter says of the native model, given
    the cache, the number of native variables and the native calls that
    made them, in order: every entry is the native variable made for that
    CPMpy variable, with its name and bounds (an integer variable has a
    native integer variable, every other one a native Boolean variable),
    and no two CPMpy variables share a native variable. *)
Definition pum_cache_sound
    (x : gmap cpm_variable Pumpkin.pum_expr * nat * list Pumpkin.pum_event) : Prop :=
  let '(m, n, made) := x in
  n = length made
  ∧ (∀ v h, m !! v = Some h →
       ∃ i, h = match v with
                | IntVarImpl _ _ _ => Pumpkin.PumInt i
                | _ => Pumpkin.PumBool i
                end
            ∧ made !! i = Some (PumSpec.creation_event v))
  ∧ (∀ v w h, m !! v = Some h → m !! w = Some h → v = w).

(** The native calls that change the assumptions of the OR-Tools model. *)
Definition touches_assumptions (e : Ortools.ort_event) : bool :=
  match e with
  | Ortools.ClearAssumptions | Ortools.AddAssumptions _ => true
  | _ => false
  end.

(** * Reading what Pumpkin is given *)

(** What a native predicate says of the value [z] of its variable, and
    what a CPMpy comparison with a constant says of it, by the names of
    the comparators. *)
Definition Comparator_holds (comp : Pumpkin.Comparator) (z rhs : Z) : bool :=
  match comp with
  | Pumpkin.Equal => z =? rhs
  | Pumpkin.LessThanOrEqual => z <=? rhs
  | Pumpkin.GreaterThanOrEqual => rhs <=? z
  | Pumpkin.NotEqual => negb (z =? rhs)
  end.

Definition comparison_holds (name : string) (z c : Z) : bool :=
  if decide (name = "==") then z =? c
  else if decide (name = "!=") then negb (z =? c)
  else if decide (name = "<=") then z <=? c
  else if decide (name = "<") then z <? c
  else if decide (name = ">=") then c <=? z
  else c <? z.

(** A term [x.scaled(w)] of a native sum with its weight negated. *)
Definition negated_term (t : Pumpkin.pum_expr) : Pumpkin.pum_expr :=
  match t with
  | Pumpkin.PumScaled x w => Pumpkin.PumScaled x (- w)
  | _ => t
  end.

(** [orig_expr in set(self.user_cons.values())] *)
Definition registered (st : Pumpkin.State) (orig_expr : Expr) : bool :=
  existsb (λ '(_, c), Pumpkin.Expr_eqb orig_expr c) (Pumpkin.user_cons st).





(** The native calls that post a constraint. *)
Definition posts_constraint (e : Pumpkin.pum_event) : bool :=
  match e with
  | Pumpkin.add_constraint _ _ | Pumpkin.add_implication _ _ _ => true
  | _ => false
  end.

(** The value of a native sum under a valuation of the native
    expressions: [x.scaled(w)] counts [w] times the value of [x]. *)
Definition term_value (val : Pumpkin.pum_expr → Z) (t : Pumpkin.pum_expr) : Z :=
  match t with
  | Pumpkin.PumScaled x w => w * val x
  | _ => val t
  end.

Definition sum_value (val : Pumpkin.pum_expr → Z) (ts : list Pumpkin.pum_expr) : Z :=
  foldr (λ t acc, term_value val t + acc) 0 ts.

Definition is_scaled (t : Pumpkin.pum_expr) : bool :=
  match t with Pumpkin.PumScaled _ _ => true | _ => false end.

(** The body of the loop of [__add__], for one top-level constraint. *)
Definition add_one (lib : CpmLib) (fuel : nat) (orig_expr : Expr) : M Pumpkin.State unit :=
  let* known := gets (λ st, existsb (λ '(_, c), Pumpkin.Expr_eqb orig_expr c)
                              (Pumpkin.user_cons st)) in
  if known : bool then ret tt
  else
    let* constraint_tag := gets (λ st, Z.of_nat (length (Pumpkin.user_cons st)) + 1) in
    modify (λ st, Pumpkin.set_user_cons
                    (Pumpkin.user_cons st ++ [(constraint_tag, orig_expr)]) st) ;;
    let* cpm_cons := Pumpkin.transform lib orig_expr in
    for_each cpm_cons (λ cpm_expr,
      let tag : option Z := None in
      match cpm_expr with
      | Operator "->" args =>
          let* (bv, subexpr) := unpack2 args in
          let* solver_constraints := Pumpkin._get_constraint lib fuel subexpr in
          for_each solver_constraints (λ cons,
            let* lit := Pumpkin.solver_var bv in
            Pumpkin.native (Pumpkin.add_implication cons lit tag))
      | _ =>
          let* solver_constraints := Pumpkin._get_constraint lib fuel cpm_expr in
          for_each solver_constraints (λ cons,
            Pumpkin.native (Pumpkin.add_constraint cons tag))
      end).

(** [isinstance(result, OptimisationResult)] *)
Definition is_OptimisationResult (r : Pumpkin.pum_result) : bool :=
  match r with
  | Pumpkin.Optimisation_Optimal _ | Pumpkin.Optimisation_Satisfiable _
  | Pumpkin.Optimisation_Unsatisfiable | Pumpkin.Optimisation_Unknown => true
  | _ => false
  end.

(** [isinstance(result, SatisfactionUnderAssumptionsResult)] *)
Definition is_UnderAssumptionsResult (r : Pumpkin.pum_result) : bool :=
  match r with
  | Pumpkin.UnderAssumptions_Satisfiable _ | Pumpkin.UnderAssumptions_Unsatisfiable
  | Pumpkin.UnderAssumptions_UnsatisfiableUnderAssumptions _
  | Pumpkin.UnderAssumptions_Unknown => true
  | _ => false
  end.

(** An assumption as [solve] documents it: a Boolean variable or its
    negation. *)
Definition is_literal (e : Expr) : bool :=
  match e with
  | Var (BoolVarImpl _) | Var (NegBoolView _) => true
  | _ => false
  end.

(** The predicate that stands for a literal, read off a cache: [>= 1] on
    the native variable as an integer, [<= 0] for the negation. *)
Definition literal_predicate (varmap : gmap cpm_variable Pumpkin.pum_expr) (e : Expr)
  : option Pumpkin.Predicate :=
  match e with
  | Var (BoolVarImpl bv) =>
      (λ b, (Pumpkin.PumBoolAsInteger b, Pumpkin.GreaterThanOrEqual, 1))
        <$> varmap !! BoolVarImpl bv
  | Var (NegBoolView bv) =>
      (λ b, (Pumpkin.PumBoolAsInteger b, Pumpkin.LessThanOrEqual, 0))
        <$> varmap !! BoolVarImpl bv
  | _ => None
  end.

(** * The constructors and the parameter suggestions of the adapters *)
Module Constructors.

(** [CPM_ortools(cpm_model=None, subsolver)]: [supported] is what
    [self.supported()] answers on this system. *)
Definition CPM_ortools (supported : bool) (subsolver : option string)
  : res Ortools.State :=
  if negb supported then Raise Exception
  else if bool_decide (subsolver = None) then
    (* initialise the native solver objects; assumption_dict = None;
       initialise everything else *)
    Ok Ortools.init
  else Raise AssertionError.

(** [CPM_pumpkin(cpm_model=None, subsolver)] *)
Definition CPM_pumpkin (supported : bool) (subsolver : option string)
  : res Pumpkin.State :=
  if negb supported then Raise Exception
  else if bool_decide (subsolver = None) then
    (* unless you support subsolvers, see pysat or minizinc *)
    Ok Pumpkin.init
  else Raise AssertionError.

(** [CPM_ortools.tunable_params()], the items in the order of the dict *)
Definition tunable_params : list (string * list pyvalue) :=
  [("optimize_with_core", [PyBool false; PyBool true]);
   ("search_branching", [PyInt 0; PyInt 1; PyInt 2; PyInt 3; PyInt 4; PyInt 5; PyInt 6]);
   ("boolean_encoding_level", [PyInt 0; PyInt 1; PyInt 2; PyInt 3]);
   ("linearization_level", [PyInt 0; PyInt 1; PyInt 2]);
   ("core_minimization_level", [PyInt 0; PyInt 1; PyInt 2]);
   ("cp_model_probing_level", [PyInt 0; PyInt 1; PyInt 2; PyInt 3]);
   ("cp_model_presolve", [PyBool false; PyBool true]);
   ("clause_cleanup_ordering", [PyInt 0; PyInt 1]);
   ("binary_minimization_algorithm", [PyInt 0; PyInt 1; PyInt 2; PyInt 3; PyInt 4]);
   ("minimization_algorithm", [PyInt 0; PyInt 1; PyInt 2; PyInt 3]);
   ("use_phase_saving", [PyBool false; PyBool true])].

(** [CPM_ortools.default_params()] *)
Definition default_params : list (string * pyvalue) :=
  [("optimize_with_core", PyBool false);
   ("search_branching", PyInt 0);
   ("boolean_encoding_level", PyInt 1);
   ("linearization_level", PyInt 1);
   ("core_minimization_level", PyInt 2);
   ("cp_model_probing_level", PyInt 2);
   ("cp_model_presolve", PyBool true);
   ("clause_cleanup_ordering", PyInt 0);
   ("binary_minimization_algorithm", PyInt 1);
   ("minimization_algorithm", PyInt 2);
   ("use_phase_saving", PyBool true)].

End Constructors.

(** * Reasoning principles *)

(** ** Running the monad *)

Lemma bind_Ok {S A B} (m : M S A) (k : A → M S B) s b s' :
  bind m k s = (Ok b, s') → ∃ a s1, m s = (Ok a, s1) ∧ k a s1 = (Ok b, s').
Proof.
  unfold bind. destruct (m s) as [[a|e] s1]; intros H; [eauto | discriminate].
Qed.

Lemma bind_run {S A B} (m : M S A) (k : A → M S B) s a s1 :
  m s = (Ok a, s1) → bind m k s = k a s1.
Proof. intros H. unfold bind. by rewrite H. Qed.

Lemma bind_raise {S A B} (m : M S A) (k : A → M S B) s e s1 :
  m s = (Raise e, s1) → bind m k s = (Raise e, s1).
Proof. intros H. unfold bind. by rewrite H. Qed.

(** An induction principle for expressions that reaches inside argument
    lists. *)
Lemma Expr_ind_nested (P : Expr → Prop) :
  (∀ n, P (Num n)) →
  (∀ v, P (Var v)) →
  (∀ l, Forall P l → P (Lst l)) →
  (∀ n l, Forall P l → P (Operator n l)) →
  (∀ n a b, P a → P b → P (Comparison n a b)) →
  (∀ n l, Forall P l → P (GlobalConstraint n l)) →
  (∀ b, P (BoolVal b)) →
  (∀ n l, Forall P l → P (DirectConstraint n l)) →
  ∀ e, P e.
Proof.
  intros HN HV HL HO HC HG HB HD.
  fix IH 1. intros [n|v|l|n l|n a b|n l|b|n l].
  - apply HN.
  - apply HV.
  - apply HL. induction l; constructor; [apply IH | assumption].
  - apply HO. induction l; constructor; [apply IH | assumption].
  - apply HC; apply IH.
  - apply HG. induction l; constructor; [apply IH | assumption].
  - apply HB.
  - apply HD. induction l; constructor; [apply IH | assumption].
Qed.

(** ** Frames: what a computation keeps *)

Section Keeps.
Context {S X : Type} (R : relation X) `{!PreOrder R} (f : S → X).

Lemma keeps_ret {A} (a : A) : keeps R f (ret a).
Proof. intros s. reflexivity. Qed.

Lemma keeps_raise {A} e : keeps R f (@raise S A e).
Proof. intros s. reflexivity. Qed.

Lemma keeps_gets {A} (g : S → A) : keeps R f (gets g).
Proof. intros s. reflexivity. Qed.

Lemma keeps_assert c : keeps R f (@assert S c).
Proof. destruct c; [apply keeps_ret | apply keeps_raise]. Qed.

Lemma keeps_item {A} (l : list A) i : keeps R f (@item S A l i).
Proof. unfold item. destruct (l !! i); [apply keeps_ret | apply keeps_raise]. Qed.

Lemma keeps_attr {A} (o : option A) : keeps R f (@attr S A o).
Proof. destruct o; [apply keeps_ret | apply keeps_raise]. Qed.

Lemma keeps_unpack2 {A} (l : list A) : keeps R f (@unpack2 S A l).
Proof.
  destruct l as [|a [|b [|c l]]]; simpl; first [apply keeps_ret | apply keeps_raise].
Qed.

Lemma keeps_modify (g : S → S) : (∀ s, R (f s) (f (g s))) → keeps R f (modify g).
Proof. intros H s. apply H. Qed.

Lemma keeps_bind {A B} (m : M S A) (k : A → M S B) :
  keeps R f m → (∀ a, keeps R f (k a)) → keeps R f (bind m k).
Proof.
  intros Hm Hk s. unfold bind. specialize (Hm s).
  destruct (m s) as [[a|e] s1]; simpl in *; [|assumption].
  etransitivity; [exact Hm | apply Hk].
Qed.

Lemma keeps_for_each {A} (l : list A) (body : A → M S unit) :
  (∀ x, x ∈ l → keeps R f (body x)) → keeps R f (for_each l body).
Proof.
  induction l as [|x l IH]; intros H; simpl.
  - apply keeps_ret.
  - apply keeps_bind; [apply H; left | intros _; apply IH].
    intros y Hy. apply H. by right.
Qed.

Lemma keeps_mapM {A B} (g : A → M S B) (l : list A) :
  Forall (λ x, keeps R f (g x)) l → keeps R f (mapM g l).
Proof.
  induction 1 as [|x l Hx _ IH]; simpl.
  - apply keeps_ret.
  - apply keeps_bind; [exact Hx | intros y].
    apply keeps_bind; [exact IH | intros ys; apply keeps_ret].
Qed.

Lemma keeps_mapM_all {A B} (g : A → M S B) (l : list A) :
  (∀ x, keeps R f (g x)) → keeps R f (mapM g l).
Proof. intros H. apply keeps_mapM, Forall_forall. auto. Qed.

End Keeps.

#[global] Instance extends_by_preorder {E} (P : E → bool) : PreOrder (extends_by P).
Proof.
  split.
  - intros l. exists []. by rewrite app_nil_r.
  - intros l1 l2 l3 (e1 & -> & H1) (e2 & -> & H2). exists (e1 ++ e2).
    split; [by rewrite app_assoc | by apply Forall_app].
Qed.

Lemma extends_by_one {E} (P : E → bool) l e : P e = true → extends_by P l (l ++ [e]).
Proof. intros H. exists [e]. split; [done | by constructor]. Qed.

(** The routine part of a frame proof: follow the structure of the
    computation, split on what it branches on, and leave each state update
    to [simpl]. *)
Ltac keeps_leaf :=
  intros ?; simpl;
  first [ reflexivity
        | set_solver
        | rewrite List.filter_app; simpl; by rewrite app_nil_r
        | by apply extends_by_one
        | solve [eauto] ].

Ltac keeps_step :=
  lazymatch goal with
  | |- keeps _ _ (ret _) => apply keeps_ret; try typeclasses eauto
  | |- keeps _ _ (raise _) => apply keeps_raise; try typeclasses eauto
  | |- keeps _ _ (gets _) => apply keeps_gets; try typeclasses eauto
  | |- keeps _ _ (assert _) => apply keeps_assert; try typeclasses eauto
  | |- keeps _ _ (item _ _) => apply keeps_item; try typeclasses eauto
  | |- keeps _ _ (attr _) => apply keeps_attr; try typeclasses eauto
  | |- keeps _ _ (unpack2 _) => apply keeps_unpack2; try typeclasses eauto
  | |- keeps _ _ (bind _ _) => apply keeps_bind; [try typeclasses eauto | | intros ?]
  | |- keeps _ _ (for_each _ _) => apply keeps_for_each; [try typeclasses eauto | intros ? ?]
  | |- keeps _ _ (mapM _ _) => apply keeps_mapM_all; [try typeclasses eauto | intros ?]
  | |- keeps _ _ (modify _) => apply keeps_modify; keeps_leaf
  | |- keeps _ _ (match ?x with _ => _ end) => destruct x eqn:?
  | |- keeps _ _ (if ?x then _ else _) => destruct x eqn:?
  | |- keeps _ _ (let '(_, _) := ?x in _) => destruct x eqn:?
  end.

Ltac keeps_auto := repeat first [progress eauto with keeps | keeps_step].

Create HintDb keeps discriminated.
Create HintDb adapter discriminated.

Lemma handle_of_weaken {H} (negate : H → H) (m m' : gmap cpm_variable H) v h :
  m ⊆ m' → handle_of negate m v = Some h → handle_of negate m' v = Some h.
Proof.
  intros Hsub. destruct v as [n|n lb ub|bv|n]; simpl;
    try (intros E; by apply (lookup_weaken _ _ _ _ E)).
  destruct (m !! BoolVarImpl bv) as [x|] eqn:E; [|discriminate].
  intros [= <-]. by rewrite (lookup_weaken _ _ _ _ E Hsub).
Qed.

Module OrtFacts.
Import Ortools.
Export OrtSpec.

#[export] Hint Unfold native new_var NewBoolVar_ NewIntVar_ setattr_parameter post
  has_objective solver_var_cached solver_var
  write_value resolve_cpm_vars on_solution_callback native_Solve run_stage with_csemap
  collect_user_vars intvar boolvar eval_comparison _make_numexpr zip3 new_intervals
  upd_base : adapter.

Lemma ort_keeps_solver_vars {X} (R : relation X) `{!PreOrder R} (f : State → X) :
  (∀ e, keeps R f (solver_var e)) → ∀ e, keeps R f (solver_vars e).
Proof.
  intros Hsv. induction e using Expr_ind_nested;
    lazymatch goal with
    | |- keeps _ _ (solver_vars (Lst ?l)) =>
        change (keeps R f (let* vs := mapM solver_vars l in ret (OL vs)));
        apply keeps_bind; [done | by apply keeps_mapM | intros; by apply keeps_ret]
    | |- keeps _ _ (solver_vars ?e) =>
        change (keeps R f (let* h := solver_var e in ret (OH h)));
        apply keeps_bind; [done | apply Hsv | intros; by apply keeps_ret]
    end.
Qed.

Lemma keeps_enumerate {X} (R : relation X) `{!PreOrder R} (f : State → X) :
  (∀ sol cb, keeps R f (on_solution_callback sol cb)) →
  ∀ sols cb, keeps R f (enumerate sols cb).
Proof.
  intros Hcb. induction sols as [|sol sols IH]; intros cb; simpl.
  - by apply keeps_ret.
  - apply keeps_bind; [done | apply Hcb | intros [cb' [|]]]; [by apply keeps_ret | apply IH].
Qed.

Ltac ort_keeps :=
  repeat first
    [ progress eauto with keeps
    | keeps_step
    | lazymatch goal with
      | |- keeps _ _ (solver_vars _) => apply ort_keeps_solver_vars; [typeclasses eauto | intros ?]
      | |- keeps _ _ (enumerate _ _) => apply keeps_enumerate; [typeclasses eauto | intros ? ?]
      end
    | progress autounfold with adapter ].

(** *** The cache *)

Lemma ort_solver_var_cached_hit v h st :
  _varmap (base st) !! v = Some h → solver_var_cached v st = (Ok h, st).
Proof. intros E. unfold solver_var_cached, bind, gets, ret. simpl. by rewrite !E. Qed.

Lemma ort_solver_var_cached_miss v st :
  accepts v = true → _varmap (base st) !! v = None →
  solver_var_cached v st = (Ok (OrtVar (ort_num_vars st)), created v (creation_event v) st).
Proof.
  intros K E. unfold solver_var_cached, bind, gets. simpl. rewrite E.
  destruct v; try discriminate; simpl; unfold NewIntVar_; simpl in K; rewrite ?K; simpl;
    by rewrite lookup_insert_eq.
Qed.

(** A variable the native model does not take: the call raises and
    nothing is made or cached. *)
Lemma ort_solver_var_cached_refused v st :
  accepts v = false → _varmap (base st) !! v = None →
  solver_var_cached v st
  = (Raise (if is_known v then TypeError else NotImplementedError), st).
Proof.
  intros K E. unfold solver_var_cached, bind, gets. simpl. rewrite E.
  destruct v; try discriminate; simpl; unfold NewIntVar_; simpl in K; rewrite ?K; done.
Qed.

Lemma ort_solver_var_cached_unknown n st :
  _varmap (base st) !! NumVarImpl n = None →
  solver_var_cached (NumVarImpl n) st = (Raise NotImplementedError, st).
Proof. intros E. unfold solver_var_cached, bind, gets. simpl. by rewrite E. Qed.

(** Whatever [solver_var] does, the cache only grows. *)
Lemma ort_solver_var_cached_grows v :
  keeps (⊆) (λ st, _varmap (base st)) (solver_var_cached v).
Proof.
  intros st. destruct (_varmap (base st) !! v) as [h|] eqn:E.
  - by rewrite (ort_solver_var_cached_hit _ _ _ E).
  - destruct (accepts v) eqn:K.
    + rewrite (ort_solver_var_cached_miss _ _ K E). simpl. by apply insert_subseteq.
    + by rewrite (ort_solver_var_cached_refused _ _ K E).
Qed.

Lemma ort_solver_var_grows e : keeps (⊆) (λ st, _varmap (base st)) (solver_var e).
Proof.
  destruct e as [| [] | | | | | |]; unfold solver_var;
    first [apply ort_solver_var_cached_grows | by keeps_step | idtac].
  apply keeps_bind; [apply _ | apply ort_solver_var_cached_grows | intros; by keeps_step].
Qed.

Lemma ort_solver_var_cached_no_view v bv st :
  is_view v = false →
  _varmap (base st) !! NegBoolView bv = None →
  _varmap (base (exec (solver_var_cached v) st)) !! NegBoolView bv = None.
Proof.
  intros V N. unfold exec. destruct (_varmap (base st) !! v) as [h|] eqn:E.
  - by rewrite (ort_solver_var_cached_hit _ _ _ E).
  - destruct (accepts v) eqn:K.
    + rewrite (ort_solver_var_cached_miss _ _ K E). simpl.
      rewrite lookup_insert_ne; [done | by destruct v].
    + by rewrite (ort_solver_var_cached_refused _ _ K E).
Qed.

Lemma ort_solver_var_no_view e bv st :
  _varmap (base st) !! NegBoolView bv = None →
  _varmap (base (exec (solver_var e) st)) !! NegBoolView bv = None.
Proof.
  intros N. destruct e as [| v | | | | | |]; try done.
  destruct v as [n|n lb ub|bv'|n]; try (by apply ort_solver_var_cached_no_view).
  unfold exec. simpl. unfold bind.
  pose proof (ort_solver_var_cached_no_view (BoolVarImpl bv') bv st eq_refl N) as H.
  unfold exec in H. by destruct (solver_var_cached (BoolVarImpl bv') st) as [[?|?] ?].
Qed.

Lemma solver_var_contract_ortools :
  solver_var_contract solver_var (λ st, _varmap (base st))
    (λ st, length (ort_log st)) OrtNum OrtNot accepts.
Proof.
  split.
  - done.
  - done.
  - apply ort_solver_var_no_view.
  - intros v st K A E. exists (OrtVar (ort_num_vars st)), (created v (creation_event v) st).
    split; [|split].
    + destruct v; try discriminate; by apply ort_solver_var_cached_miss.
    + done.
    + simpl. rewrite length_app. simpl. lia.
  - intros v st K A E. eexists.
    destruct v; try discriminate; by apply ort_solver_var_cached_refused.
  - intros v h st V E. destruct v; try discriminate; by apply ort_solver_var_cached_hit.
  - intros e v h st E. by apply (lookup_weaken _ _ _ _ E), ort_solver_var_grows.
  - intros n st. apply ort_solver_var_cached_unknown.
Qed.

(** *** Reading the solution back *)

Lemma ort_solver_var_cached_result v h st st' :
  solver_var_cached v st = (Ok h, st') → _varmap (base st') !! v = Some h.
Proof.
  destruct (_varmap (base st) !! v) as [h0|] eqn:E.
  - rewrite (ort_solver_var_cached_hit _ _ _ E). by intros [= <- <-].
  - destruct (accepts v) eqn:K.
    + rewrite (ort_solver_var_cached_miss _ _ K E). intros [= <- <-]. simpl.
      by rewrite lookup_insert_eq.
    + by rewrite (ort_solver_var_cached_refused _ _ K E).
Qed.

Lemma ort_solver_var_handle v h st st' :
  solver_var (Var v) st = (Ok h, st') →
  handle_of OrtNot (_varmap (base st')) v = Some h.
Proof.
  destruct v as [n|n lb ub|bv|n]; simpl; try apply ort_solver_var_cached_result.
  intros H. apply bind_Ok in H as (h0 & s1 & H0 & H1). injection H1 as <- <-.
  by rewrite (ort_solver_var_cached_result _ _ _ _ H0).
Qed.

Lemma ort_solver_var_value e : keeps eq (λ st, _value (base st)) (solver_var e).
Proof. ort_keeps. Qed.

Lemma solver_var_user_vars e : keeps eq (λ st, user_vars (base st)) (solver_var e).
Proof. ort_keeps. Qed.

Lemma ort_solver_var_status e : keeps eq (λ st, cpm_status (base st)) (solver_var e).
Proof. ort_keeps. Qed.

Lemma ort_read_back_weaken sol (m m' : gmap cpm_variable ort_handle) v val :
  m ⊆ m' → read_back sol m v = Some val → read_back sol m' v = Some val.
Proof.
  intros Hsub. unfold read_back.
  destruct (handle_of OrtNot m v) as [h|] eqn:E; [|discriminate].
  by rewrite (handle_of_weaken _ _ _ _ _ Hsub E).
Qed.

Lemma ort_fill_value_spec sol v st st' :
  fill_value sol v st = (Ok tt, st') →
  _varmap (base st) ⊆ _varmap (base st')
  ∧ (∃ val, read_back sol (_varmap (base st')) v = Some val
            ∧ _value (base st') !! v = Some val)
  ∧ (∀ w, w ≠ v → _value (base st') !! w = _value (base st) !! w).
Proof.
  intros H. apply bind_Ok in H as (h & s1 & Hsv & H).
  pose proof (ort_solver_var_grows (Var v) st) as Hg. rewrite Hsv in Hg. simpl in Hg.
  pose proof (ort_solver_var_value (Var v) st) as Hv. rewrite Hsv in Hv. simpl in Hv.
  pose proof (ort_solver_var_handle _ _ _ _ Hsv) as Hh.
  destruct (Value sol h) as [z|] eqn:Ez; [|discriminate].
  unfold read_back.
  destruct (is_BoolVarImpl v) eqn:Eb; injection H as <-; simpl.
  - split; [done | split].
    + exists (PyBool (negb (z =? 0))). rewrite Hh. simpl. rewrite Ez. simpl.
      by rewrite lookup_insert_eq.
    + intros w Hw. rewrite !lookup_insert_ne by done. by rewrite Hv.
  - split; [done | split].
    + exists (PyInt z). rewrite Hh. simpl. rewrite Ez. simpl.
      by rewrite lookup_insert_eq.
    + intros w Hw. rewrite lookup_insert_ne by done. by rewrite Hv.
Qed.

Lemma ort_fill_values_spec sol l : NoDup l → ∀ st st',
  for_each l (fill_value sol) st = (Ok tt, st') →
  _varmap (base st) ⊆ _varmap (base st')
  ∧ (∀ v, v ∈ l → ∃ val, read_back sol (_varmap (base st')) v = Some val
                          ∧ _value (base st') !! v = Some val)
  ∧ (∀ w, w ∉ l → _value (base st') !! w = _value (base st) !! w).
Proof.
  induction 1 as [|x l Hx Hnd IH]; intros st st' H; simpl in H.
  - injection H as <-. split; [done | split]; [|done]. intros v Hv. by apply elem_of_nil in Hv.
  - apply bind_Ok in H as ([] & s1 & H1 & H2).
    apply ort_fill_value_spec in H1 as (Hg1 & (val & Hr & Hval) & Hf1).
    apply IH in H2 as (Hg2 & Hin & Hf2).
    split; [by etransitivity | split].
    + intros v [->|Hv]%elem_of_cons; [|by apply Hin].
      exists val. split; [by apply (ort_read_back_weaken _ _ _ _ _ Hg2) |].
      by rewrite Hf2.
    + intros w [Hw1 Hw2]%not_elem_of_cons. rewrite Hf2 by done. by apply Hf1.
Qed.

Lemma ort_clear_values_spec l : ∀ st,
  for_each l (λ cpm_var, write_value cpm_var None) st
  = (Ok tt, upd_base (λ b, set__value (foldl (λ m v, delete v m) (_value b) l) b) st).
Proof.
  induction l as [|x l IH]; intros st; simpl.
  - by destruct st as [[]].
  - unfold bind. simpl. rewrite IH. by destruct st as [[]].
Qed.

Lemma foldl_delete_lookup (l : list cpm_variable) (m : gmap cpm_variable pyvalue) v :
  v ∈ l → foldl (λ m v, delete v m) m l !! v = None.
Proof.
  revert m. induction l as [|x l IH]; intros m Hv; [by apply elem_of_nil in Hv|].
  simpl. destruct (decide (v ∈ l)) as [Hl|Hl]; [by apply IH|].
  apply elem_of_cons in Hv as [->|?]; [|done].
  clear IH. revert m. induction l as [|y l IH]; intros m; simpl.
  - apply lookup_delete_eq.
  - apply not_elem_of_cons in Hl as [Hxy Hl]. rewrite delete_delete. by apply IH.
Qed.

Ltac peel H := apply bind_Ok in H as (? & ? & ? & H).


Lemma ort_fill_values_status sol l :
  keeps eq (λ st, cpm_status (base st)) (for_each l (fill_value sol)).
Proof. unfold fill_value. ort_keeps. Qed.

Lemma read_solution_frame resp has_obj :
  keeps eq (λ st, (user_vars (base st), cpm_status (base st))) (read_solution resp has_obj).
Proof. unfold read_solution, fill_value. ort_keeps. Qed.

Lemma ort_read_solution_spec resp has_obj st b st' :
  read_solution resp has_obj st = (Ok b, st') →
  b = _solve_return (cpm_status (base st'))
  ∧ if b
    then ∀ v, v ∈ user_vars (base st') →
           ∃ val, read_back (resp_solution resp) (_varmap (base st')) v = Some val
                  ∧ _value (base st') !! v = Some val
    else ∀ v, v ∈ user_vars (base st') → _value (base st') !! v = None.
Proof.
  intros H.
  pose proof (read_solution_frame resp has_obj st) as Hf. rewrite H in Hf.
  simpl in Hf. injection Hf as Huv Hst. rewrite <- Huv, <- Hst. clear Huv Hst.
  unfold read_solution in H.
  apply bind_Ok in H as (has_sol & s1 & [= <- <-] & H).
  apply bind_Ok in H as ([] & s2 & [= <-] & H).
  apply bind_Ok in H as (uv & s3 & [= <- <-] & H).
  apply bind_Ok in H as ([] & s4 & Hloop & [= <- <-]).
  simpl in Hloop. split; [done|].
  destruct (_solve_return (cpm_status (base st))).
  - apply bind_Ok in Hloop as ([] & s5 & Hfill & Hobj).
    apply ort_fill_values_spec in Hfill as (_ & Hin & _); [|apply NoDup_elements].
    intros v Hv. apply elem_of_elements in Hv. destruct (Hin v Hv) as (val & Hr & Hval).
    exists val. destruct has_obj; injection Hobj as <-; simpl; done.
  - rewrite ort_clear_values_spec in Hloop. injection Hloop as <-. simpl.
    intros v Hv. apply foldl_delete_lookup. by apply elem_of_elements.
Qed.

Lemma ortools_solve_values args resp st b st' :
  solve args resp st = (Ok b, st') →
  b = _solve_return (cpm_status (base st'))
  ∧ if b
    then ∀ v, v ∈ user_vars (base st') →
           ∃ val, read_back (resp_solution resp) (_varmap (base st')) v = Some val
                  ∧ _value (base st') !! v = Some val
    else ∀ v, v ∈ user_vars (base st') → _value (base st') !! v = None.
Proof.
  intros H. unfold solve in H. do 9 peel H.
  apply bind_Ok in H as (has_obj & s1 & _ & H). peel H.
  by apply (ort_read_solution_spec resp has_obj) in H.
Qed.

End OrtFacts.

Module PumFacts.
Import Pumpkin.
Export PumSpec.

#[export] Hint Unfold native next_index new_bool new_int has_objective solver_var_cached
  solver_var write_value run_stage collect_user_vars intvar boolvar classify
  one_expr is_bool sum_term all_is_num task_equations isinstance_of_object
  subscript_by_itself upd_base : adapter.

Lemma pum_keeps_solver_vars {X} (R : relation X) `{!PreOrder R} (f : State → X) :
  (∀ e, keeps R f (solver_var e)) → ∀ e, keeps R f (solver_vars e).
Proof.
  intros Hsv. induction e using Expr_ind_nested;
    lazymatch goal with
    | |- keeps _ _ (solver_vars (Lst ?l)) =>
        change (keeps R f (let* vs := mapM solver_vars l in ret (PL vs)));
        apply keeps_bind; [done | by apply keeps_mapM | intros; by apply keeps_ret]
    | |- keeps _ _ (solver_vars ?e) =>
        change (keeps R f (let* h := solver_var e in ret (PV h)));
        apply keeps_bind; [done | apply Hsv | intros; by apply keeps_ret]
    end.
Qed.

Ltac pum_keeps_with tac :=
  repeat first
    [ progress eauto with keeps
    | keeps_step
    | lazymatch goal with
      | |- keeps _ _ (solver_vars _) => apply pum_keeps_solver_vars; [typeclasses eauto | intros ?]
      end
    | tac
    | progress autounfold with adapter ].

Ltac pum_keeps := pum_keeps_with fail.

Ltac peel H := apply bind_Ok in H as (? & ? & ? & H).

(** *** The cache *)

Lemma pum_solver_var_cached_hit v h st :
  _varmap (base st) !! v = Some h → solver_var_cached v st = (Ok h, st).
Proof. intros E. unfold solver_var_cached, bind, gets, ret. simpl. by rewrite !E. Qed.

Lemma pum_solver_var_cached_miss v st :
  is_BoolVarImpl v || is_known v = true → _varmap (base st) !! v = None →
  solver_var_cached v st
  = (Ok (fresh_handle v st), created v (fresh_handle v st) (creation_event v) st).
Proof.
  intros K E. unfold solver_var_cached, bind, gets. simpl. rewrite E.
  destruct v; try discriminate; simpl; by rewrite lookup_insert_eq.
Qed.

Lemma pum_solver_var_cached_unknown n st :
  _varmap (base st) !! NumVarImpl n = None →
  solver_var_cached (NumVarImpl n) st = (Raise NotImplementedError, st).
Proof. intros E. unfold solver_var_cached, bind, gets. simpl. by rewrite E. Qed.

Lemma pum_solver_var_cached_grows v :
  keeps (⊆) (λ st, _varmap (base st)) (solver_var_cached v).
Proof.
  intros st. destruct (_varmap (base st) !! v) as [h|] eqn:E.
  - by rewrite (pum_solver_var_cached_hit _ _ _ E).
  - destruct (is_BoolVarImpl v || is_known v) eqn:K.
    + rewrite (pum_solver_var_cached_miss _ _ K E). simpl. by apply insert_subseteq.
    + unfold solver_var_cached, bind, gets. simpl. rewrite E.
      destruct v; try discriminate; simpl; reflexivity.
Qed.

Lemma pum_solver_var_grows e : keeps (⊆) (λ st, _varmap (base st)) (solver_var e).
Proof.
  destruct e as [| [] | | | | | |]; unfold solver_var;
    first [apply pum_solver_var_cached_grows | by keeps_step | idtac].
  apply keeps_bind; [apply _ | apply pum_solver_var_cached_grows | intros; by keeps_step].
Qed.

Lemma pum_solver_var_cached_no_view v bv st :
  is_view v = false →
  _varmap (base st) !! NegBoolView bv = None →
  _varmap (base (exec (solver_var_cached v) st)) !! NegBoolView bv = None.
Proof.
  intros V N. unfold exec. destruct (_varmap (base st) !! v) as [h|] eqn:E.
  - by rewrite (pum_solver_var_cached_hit _ _ _ E).
  - destruct (is_BoolVarImpl v || is_known v) eqn:K.
    + rewrite (pum_solver_var_cached_miss _ _ K E). simpl.
      rewrite lookup_insert_ne; [done | by destruct v].
    + unfold solver_var_cached, bind, gets. simpl. rewrite E. by destruct v.
Qed.

Lemma pum_solver_var_no_view e bv st :
  _varmap (base st) !! NegBoolView bv = None →
  _varmap (base (exec (solver_var e) st)) !! NegBoolView bv = None.
Proof.
  intros N. destruct e as [| v | | | | | |]; try done.
  destruct v as [n|n lb ub|bv'|n]; try (by apply pum_solver_var_cached_no_view).
  unfold exec. simpl. unfold bind.
  pose proof (pum_solver_var_cached_no_view (BoolVarImpl bv') bv st eq_refl N) as H.
  unfold exec in H. by destruct (solver_var_cached (BoolVarImpl bv') st) as [[?|?] ?].
Qed.

Lemma solver_var_contract_pumpkin :
  solver_var_contract solver_var (λ st, _varmap (base st))
    (λ st, length (pum_log st)) PumNum PumNegate (λ _, true).
Proof.
  split.
  - done.
  - done.
  - apply pum_solver_var_no_view.
  - intros v st K _ E.
    exists (fresh_handle v st), (created v (fresh_handle v st) (creation_event v) st).
    split; [|split].
    + destruct v; try discriminate; by apply pum_solver_var_cached_miss.
    + done.
    + simpl. rewrite length_app. simpl. lia.
  - intros v st _ [=].
  - intros v h st V E. destruct v; try discriminate; by apply pum_solver_var_cached_hit.
  - intros e v h st E. by apply (lookup_weaken _ _ _ _ E), pum_solver_var_grows.
  - intros n st. apply pum_solver_var_cached_unknown.
Qed.

(** *** Reading the solution back *)

Lemma pum_solver_var_cached_result v h st st' :
  solver_var_cached v st = (Ok h, st') → _varmap (base st') !! v = Some h.
Proof.
  destruct (_varmap (base st) !! v) as [h0|] eqn:E.
  - rewrite (pum_solver_var_cached_hit _ _ _ E). by intros [= <- <-].
  - destruct (is_BoolVarImpl v || is_known v) eqn:K.
    + rewrite (pum_solver_var_cached_miss _ _ K E). intros [= <- <-]. simpl.
      by rewrite lookup_insert_eq.
    + destruct v; try discriminate. by rewrite (pum_solver_var_cached_unknown _ _ E).
Qed.

Lemma pum_solver_var_handle v h st st' :
  solver_var (Var v) st = (Ok h, st') →
  handle_of PumNegate (_varmap (base st')) v = Some h.
Proof.
  destruct v as [n|n lb ub|bv|n]; simpl; try apply pum_solver_var_cached_result.
  intros H. apply bind_Ok in H as (h0 & s1 & H0 & H1). injection H1 as <- <-.
  by rewrite (pum_solver_var_cached_result _ _ _ _ H0).
Qed.

Lemma pum_solver_var_value e : keeps eq (λ st, _value (base st)) (solver_var e).
Proof. pum_keeps. Qed.

Lemma pum_read_back_weaken sol (m m' : gmap cpm_variable pum_expr) v val :
  m ⊆ m' → read_back sol m v = Some val → read_back sol m' v = Some val.
Proof.
  intros Hsub. unfold read_back.
  destruct (handle_of PumNegate m v) as [h|] eqn:E; [|discriminate].
  by rewrite (handle_of_weaken _ _ _ _ _ Hsub E).
Qed.

Lemma pum_fill_value_spec sol v st st' :
  fill_value sol v st = (Ok tt, st') →
  _varmap (base st) ⊆ _varmap (base st')
  ∧ (∃ val, read_back sol (_varmap (base st')) v = Some val
            ∧ _value (base st') !! v = Some val)
  ∧ (∀ w, w ≠ v → _value (base st') !! w = _value (base st) !! w).
Proof.
  intros H. apply bind_Ok in H as (h & s1 & Hsv & H).
  pose proof (pum_solver_var_grows (Var v) st) as Hg. rewrite Hsv in Hg. simpl in Hg.
  pose proof (pum_solver_var_value (Var v) st) as Hv. rewrite Hsv in Hv. simpl in Hv.
  pose proof (pum_solver_var_handle _ _ _ _ Hsv) as Hh.
  unfold read_back.
  destruct (is_PumpkinInt h) eqn:Ei; [|destruct (is_PumpkinBool h) eqn:Eb];
    [| |discriminate]; injection H as <-; simpl.
  - split; [done | split].
    + eexists. rewrite Hh. simpl. rewrite Ei. split; [done|]. by rewrite lookup_insert_eq.
    + intros w Hw. rewrite lookup_insert_ne by done. by rewrite Hv.
  - split; [done | split].
    + eexists. rewrite Hh. simpl. rewrite Ei, Eb. split; [done|]. by rewrite lookup_insert_eq.
    + intros w Hw. rewrite lookup_insert_ne by done. by rewrite Hv.
Qed.

Lemma pum_fill_values_spec sol l : NoDup l → ∀ st st',
  for_each l (fill_value sol) st = (Ok tt, st') →
  _varmap (base st) ⊆ _varmap (base st')
  ∧ (∀ v, v ∈ l → ∃ val, read_back sol (_varmap (base st')) v = Some val
                          ∧ _value (base st') !! v = Some val)
  ∧ (∀ w, w ∉ l → _value (base st') !! w = _value (base st) !! w).
Proof.
  induction 1 as [|x l Hx Hnd IH]; intros st st' H; simpl in H.
  - injection H as <-. split; [done | split]; [|done]. intros v Hv. by apply elem_of_nil in Hv.
  - apply bind_Ok in H as ([] & s1 & H1 & H2).
    apply pum_fill_value_spec in H1 as (Hg1 & (val & Hr & Hval) & Hf1).
    apply IH in H2 as (Hg2 & Hin & Hf2).
    split; [by etransitivity | split].
    + intros v [->|Hv]%elem_of_cons; [|by apply Hin].
      exists val. split; [by apply (pum_read_back_weaken _ _ _ _ _ Hg2) |].
      by rewrite Hf2.
    + intros w [Hw1 Hw2]%not_elem_of_cons. rewrite Hf2 by done. by apply Hf1.
Qed.

Lemma pum_clear_values_spec l : ∀ st,
  for_each l (λ cpm_var, write_value cpm_var None) st
  = (Ok tt, upd_base (λ b, set__value (foldl (λ m v, delete v m) (_value b) l) b) st).
Proof.
  induction l as [|x l IH]; intros st; simpl.
  - by destruct st as [[]].
  - unfold bind. simpl. rewrite IH. by destruct st as [[]].
Qed.

Lemma read_solution_user_vars result has_obj :
  keeps eq (λ st, user_vars (base st)) (read_solution result has_obj).
Proof. unfold read_solution, fill_value. pum_keeps. Qed.

Lemma pum_fill_values_status sol l :
  keeps eq (λ st, cpm_status (base st)) (for_each l (fill_value sol)).
Proof. unfold fill_value. pum_keeps. Qed.

Lemma pum_solver_var_status e : keeps eq (λ st, cpm_status (base st)) (solver_var e).
Proof. pum_keeps. Qed.

Lemma pum_read_solution_spec result has_obj st b st' :
  read_solution result has_obj st = (Ok b, st') →
  b = _solve_return (cpm_status (base st'))
  ∧ if b
    then exitstatus (cpm_status (base st')) = Some OPTIMAL
         ∧ ∃ solution, result_solution result = Some solution
           ∧ ∀ v, v ∈ user_vars (base st') →
               ∃ val, read_back solution (_varmap (base st')) v = Some val
                      ∧ _value (base st') !! v = Some val
    else ∀ v, v ∈ user_vars (base st') → _value (base st') !! v = None.
Proof.
  intros H.
  pose proof (read_solution_user_vars result has_obj st) as Hf. rewrite H in Hf.
  simpl in Hf. rewrite <- Hf. clear Hf.
  unfold read_solution in H.
  apply bind_Ok in H as (has_sol & s1 & [= <- <-] & H).
  apply bind_Ok in H as (uv & s3 & [= <- <-] & H).
  apply bind_Ok in H as ([] & s4 & Hloop & [= <- <-]).
  simpl in Hloop.
  destruct (_solve_return (cpm_status (base st))) eqn:Ehas.
  - apply bind_Ok in Hloop as (solution & s5 & Hsol & Hloop).
    destruct (result_solution result) as [sol|] eqn:Er; [|discriminate].
    injection Hsol as -> <-.
    apply bind_Ok in Hloop as ([] & s6 & [= <-] & Hloop).
    apply bind_Ok in Hloop as ([] & s7 & Hfill & Hobj).
    pose proof (pum_fill_values_status solution (elements (user_vars (base st)))
                  (upd_base (set_exitstatus OPTIMAL) st)) as Hst.
    rewrite Hfill in Hst. simpl in Hst.
    assert (cpm_status (base s4) = cpm_status (base s7)) as Hst'.
    { destruct has_obj; [|by injection Hobj as <-].
      apply bind_Ok in Hobj as (obj & s8 & [= <- <-] & Hobj).
      apply bind_Ok in Hobj as (obj_var & s9 & Hov & [= <-]).
      pose proof (pum_solver_var_status (default (Num 0) (Var <$> _objective s7)) s7) as Hs.
      rewrite Hov in Hs. simpl in Hs. by rewrite Hs. }
    rewrite Hst', <- Hst. split; [done|]. split; [done|].
    exists solution. split; [done|].
    apply pum_fill_values_spec in Hfill as (_ & Hin & _); [|apply NoDup_elements].
    intros v Hv. apply elem_of_elements in Hv. destruct (Hin v Hv) as (val & Hr & Hval).
    exists val.
    destruct has_obj; [|by injection Hobj as <-].
    apply bind_Ok in Hobj as (obj & s8 & [= <- <-] & Hobj).
    apply bind_Ok in Hobj as (obj_var & s9 & Hov & [= <-]). simpl.
    pose proof (pum_solver_var_grows (default (Num 0) (Var <$> _objective s7)) s7) as Hg.
    pose proof (pum_solver_var_value (default (Num 0) (Var <$> _objective s7)) s7) as Hvv.
    rewrite Hov in Hg, Hvv. simpl in Hg, Hvv.
    split; [by apply (pum_read_back_weaken _ _ _ _ _ Hg) | by rewrite <- Hvv].
  - rewrite pum_clear_values_spec in Hloop. injection Hloop as <-. simpl.
    rewrite Ehas. split; [done|].
    intros v Hv. apply OrtFacts.foldl_delete_lookup. by apply elem_of_elements.
Qed.

Section WithLib.
Context (lib : CpmLib).

Lemma keeps__ivars {X} (R : relation X) `{!PreOrder R} (f : State → X) :
  (∀ e, keeps R f (solver_var e)) →
  (∀ lb ub, keeps R f (intvar lib lb ub)) →
  ∀ e, keeps R f (_ivars lib e).
Proof.
  intros Hsv Hiv. induction e as [n|v|l IH|n l IH|n a b IHa IHb|n l IH|b|n l IH]
    using Expr_ind_nested.
  - change (keeps R f (let* v := intvar lib n n in
                       let* h := solver_var (Var v) in ret (PV h))).
    apply keeps_bind; [done | apply Hiv | intros v].
    apply keeps_bind; [done | apply Hsv | intros; by apply keeps_ret].
  - change (keeps R f (if is_BoolVarImpl v
                       then let* b := solver_var (Var v) in ret (PV (PumBoolAsInteger b))
                       else let* h := solver_var (Var v) in ret (PV h))).
    destruct (is_BoolVarImpl v);
      (apply keeps_bind; [done | apply Hsv | intros; by apply keeps_ret]).
  - change (keeps R f (let* vs := mapM (_ivars lib) l in ret (PL vs))).
    apply keeps_bind; [done | by apply keeps_mapM | intros; by apply keeps_ret].
  - change (keeps R f (let* h := solver_var (Operator n l) in ret (PV h))).
    apply keeps_bind; [done | apply Hsv | intros; by apply keeps_ret].
  - change (keeps R f (let* h := solver_var (Comparison n a b) in ret (PV h))).
    apply keeps_bind; [done | apply Hsv | intros; by apply keeps_ret].
  - change (keeps R f (let* h := solver_var (GlobalConstraint n l) in ret (PV h))).
    apply keeps_bind; [done | apply Hsv | intros; by apply keeps_ret].
  - change (keeps R f (let* h := solver_var (BoolVal b) in ret (PV h))).
    apply keeps_bind; [done | apply Hsv | intros; by apply keeps_ret].
  - change (keeps R f (let* h := solver_var (DirectConstraint n l) in ret (PV h))).
    apply keeps_bind; [done | apply Hsv | intros; by apply keeps_ret].
Qed.

Ltac lib_keeps :=
  pum_keeps_with ltac:(
    idtac;
    lazymatch goal with
    | |- keeps _ _ (_ivars _ _) => apply keeps__ivars; [typeclasses eauto | intros ? | intros ? ?]
    | |- keeps _ _ (to_predicate _ _) => unfold to_predicate
    end).


Lemma pumpkin_solve_values args resp st b st' :
  solve lib args resp st = (Ok b, st') →
  b = _solve_return (cpm_status (base st'))
  ∧ if b
    then exitstatus (cpm_status (base st')) = Some OPTIMAL
         ∧ ∃ solution, result_solution (resp_result resp) = Some solution
           ∧ ∀ v, v ∈ user_vars (base st') →
               ∃ val, read_back solution (_varmap (base st')) v = Some val
                      ∧ _value (base st') !! v = Some val
    else ∀ v, v ∈ user_vars (base st') → _value (base st') !! v = None.
Proof.
  intros H. unfold solve in H. do 3 peel H.
  apply bind_Ok in H as (has_obj & s1 & _ & H). do 5 peel H.
  by apply (pum_read_solution_spec (resp_result resp) has_obj) in H.
Qed.

End WithLib.

End PumFacts.

Module OrtAdd.
Import Ortools OrtFacts.

Section WithLib.
Context (lib : CpmLib).

#[local] Abbreviation uv := (λ st : State, user_vars (base st)).

Lemma keeps_pow_chain {X} (R : relation X) `{!PreOrder R} (f : State → X) self_add b :
  (∀ e, keeps R f (self_add e)) →
  (∀ A (g : Csemap → A * Csemap), keeps R f (with_csemap g)) →
  ∀ k new_lhs, keeps R f (pow_chain lib self_add b k new_lhs).
Proof.
  intros Hadd Hcse. induction k as [|k IH]; intros new_lhs; simpl.
  - by apply keeps_ret.
  - apply keeps_bind; [done | apply Hcse | intros [new_lhs' new_cons]].
    apply keeps_bind; [done | apply Hadd | intros _; apply IH].
Qed.

Ltac add_keeps :=
  repeat first
    [ progress eauto with keeps
    | keeps_step
    | lazymatch goal with
      | |- keeps _ _ (solver_vars _) => apply ort_keeps_solver_vars; [typeclasses eauto | intros ?]
      | |- keeps _ _ (pow_chain _ _ _ _ _) =>
          apply keeps_pow_chain; [typeclasses eauto | intros ? | intros ? ?]
      | |- keeps _ _ (transform _ _) => unfold transform
      | |- keeps _ _ (post_numexpr_equality _ _ _ _ _) => unfold post_numexpr_equality
      | |- keeps _ _ (_post_constraint_body _ _ _ _) => unfold _post_constraint_body
      end
    | progress autounfold with adapter ].

Lemma post_body_mono self_add self_post cpm_expr :
  (∀ e, keeps (⊆) uv (self_add e)) →
  (∀ e, keeps (⊆) uv (self_post e)) →
  keeps (⊆) uv (_post_constraint_body lib self_add self_post cpm_expr).
Proof. intros Hadd Hpost. add_keeps. Qed.

Lemma add_post_mono fuel :
  (∀ e, keeps (⊆) uv (add lib fuel e))
  ∧ (∀ e r, keeps (⊆) uv (_post_constraint lib fuel e r)).
Proof.
  induction fuel as [|fuel [IHadd IHpost]].
  - split; intros; simpl; by keeps_step.
  - split.
    + intros e. simpl. add_keeps.
    + intros e r. simpl. apply post_body_mono; [apply IHadd | intros; apply IHpost].
Qed.

Lemma ort_add_mono fuel e : keeps (⊆) uv (add lib fuel e).
Proof. apply add_post_mono. Qed.

Lemma ort_objective_mono fuel expr minimize : keeps (⊆) uv (objective lib fuel expr minimize).
Proof.
  unfold objective. destruct (flatten_objective lib expr) as [flat_obj flat_cons].
  apply keeps_bind; [apply _ | apply ort_add_mono | intros _]. add_keeps.
Qed.

(** The variables of an added expression are user variables afterwards,
    whether or not posting went through. *)
Lemma add_collects fuel e st :
  get_variables lib e ⊆ user_vars (base (exec (add lib (S fuel) e) st)).
Proof.
  destruct (add_post_mono fuel) as [_ Hpost].
  unfold exec. simpl. unfold bind at 1. simpl.
  match goal with |- _ ⊆ user_vars (base (snd (?m ?s))) =>
    assert (keeps (⊆) uv m) as Hk by add_keeps; specialize (Hk s) end.
  simpl in Hk. set_solver.
Qed.

End WithLib.
End OrtAdd.

Module PumAdd.
Import Pumpkin PumFacts.

Section WithLib.
Context (lib : CpmLib).

#[local] Abbreviation uv := (λ st : State, user_vars (base st)).

Ltac add_keeps :=
  pum_keeps_with ltac:(
    idtac;
    lazymatch goal with
    | |- keeps _ _ (_ivars _ _) => apply keeps__ivars; [typeclasses eauto | intros ? | intros ? ?]
    | |- keeps _ _ (to_predicate _ _) => unfold to_predicate
    | |- keeps _ _ (transform _ _) => unfold transform
    | |- keeps _ _ (_sum_args _ _) => unfold _sum_args
    | |- keeps _ _ (get_equality _ _ _) => unfold get_equality
    | |- keeps _ _ (_get_constraint_body _ _ _) => unfold _get_constraint_body
    end).

Lemma get_constraint_body_frame {X} (R : relation X) `{!PreOrder R} (f : State → X)
    self_get cpm_expr :
  (∀ e, keeps R f (solver_var e)) →
  (∀ lb ub, keeps R f (intvar lib lb ub)) →
  keeps R f (boolvar lib) →
  (∀ s, keeps R f (run_stage s)) →
  (∀ e, keeps R f (self_get e)) →
  keeps R f (_get_constraint_body lib self_get cpm_expr).
Proof. intros Hsv Hiv Hbv Hst Hget. add_keeps. Qed.

Lemma get_constraint_frame {X} (R : relation X) `{!PreOrder R} (f : State → X) :
  (∀ e, keeps R f (solver_var e)) →
  (∀ lb ub, keeps R f (intvar lib lb ub)) →
  keeps R f (boolvar lib) →
  (∀ s, keeps R f (run_stage s)) →
  ∀ fuel e, keeps R f (_get_constraint lib fuel e).
Proof.
  intros Hsv Hiv Hbv Hst. induction fuel as [|fuel IH]; intros e; simpl.
  - by apply keeps_raise.
  - by apply get_constraint_body_frame.
Qed.

Lemma get_constraint_user_vars fuel e : keeps eq uv (_get_constraint lib fuel e).
Proof. apply get_constraint_frame; [apply _ | intros ..]; pum_keeps. Qed.

Lemma add_user_vars fuel e st :
  user_vars (base (exec (__add__ lib fuel e) st))
  = user_vars (base st) ∪ get_variables lib e.
Proof.
  unfold exec, __add__. unfold bind at 1. simpl.
  match goal with |- user_vars (base (snd (?m ?s))) = _ =>
    assert (keeps eq uv m) as Hk;
      [pose proof (get_constraint_user_vars fuel); add_keeps | specialize (Hk s)] end.
  by rewrite <- Hk.
Qed.

Lemma objective_user_vars fuel expr minimize st :
  user_vars (base (exec (objective lib fuel expr minimize) st))
  = user_vars (base st)
    ∪ get_variables lib
        (expr_eq lib expr
           (Var (IntVarImpl (intvar_name lib (iv_counter (base st)))
                   (fst (get_bounds lib expr)) (snd (get_bounds lib expr))))).
Proof.
  unfold exec, objective. destruct (get_bounds lib expr) as [lb ub]. simpl.
  unfold bind at 1. simpl.
  pose proof (add_user_vars fuel
    (expr_eq lib expr (Var (IntVarImpl (intvar_name lib (iv_counter (base st))) lb ub)))
    (upd_base (set_iv_counter (S (iv_counter (base st)))) st)) as Ha.
  unfold exec in Ha. unfold bind.
  destruct (__add__ lib fuel _ _) as [[[]|err] s1]; simpl in *; exact Ha.
Qed.

Lemma pum_add_mono fuel e : keeps (⊆) uv (__add__ lib fuel e).
Proof.
  intros st. pose proof (add_user_vars fuel e st) as H. unfold exec in H.
  rewrite H. apply union_subseteq_l.
Qed.

Lemma pum_objective_mono fuel expr minimize :
  keeps (⊆) uv (objective lib fuel expr minimize).
Proof.
  intros st. pose proof (objective_user_vars fuel expr minimize st) as H.
  unfold exec in H. rewrite H. apply union_subseteq_l.
Qed.

End WithLib.
End PumAdd.

Module OrtLog.
Import Ortools OrtFacts.

Lemma solver_var_log e :
  keeps (extends_by creates_variable) ort_log (solver_var e).
Proof.
  ort_keeps.
Qed.

(** [solver_var] returns on every variable the native model takes. *)
Lemma solver_var_ok v st :
  accepts v = true → ∃ h st', solver_var (Var v) st = (Ok h, st').
Proof.
  intros Hv.
  assert (∀ w, accepts w = true → ∃ h st', solver_var_cached w st = (Ok h, st')) as Hc.
  { intros w Hw. destruct (_varmap (base st) !! w) as [h|] eqn:E.
    - rewrite (ort_solver_var_cached_hit _ _ _ E). eauto.
    - rewrite ort_solver_var_cached_miss; [eauto | done | done]. }
  destruct v as [n|n lb ub|bv|n]; simpl; try (by apply Hc).
  destruct (Hc (BoolVarImpl bv)) as (h & st' & E); [done|].
  exists (OrtNot h), st'. unfold bind. by rewrite E.
Qed.

Lemma solver_vars_ok (l : list cpm_variable) : ∀ st,
  (∀ v, v ∈ l → accepts v = true) →
  ∃ vs st', solver_vars (Lst (Var <$> l)) st = (Ok vs, st').
Proof.
  intros st Hl.
  assert (∃ vs st', mapM solver_vars (Var <$> l) st = (Ok vs, st')) as (vs & st' & E).
  { revert st. induction l as [|v l IH]; intros st; [by eexists _, _|].
    destruct (solver_var_ok v st) as (h & s1 & E1).
    { apply Hl. by left. }
    destruct (IH (λ w Hw, Hl w (list_elem_of_further _ _ _ Hw)) s1) as (vs & s2 & E2).
    exists (OH h :: vs), s2.
    change (mapM solver_vars (Var <$> v :: l))
      with (let* y := (let* h := solver_var (Var v) in ret (OH h)) in
            let* ys := mapM solver_vars (Var <$> l) in ret (y :: ys)).
    unfold bind at 1. unfold bind at 1. rewrite E1. simpl.
    unfold bind. by rewrite E2. }
  exists (OL vs), st'. simpl. unfold bind. by rewrite E.
Qed.

(** [solve] with a time limit that is not positive. *)
Lemma solve_nonpositive_time_limit args resp st t :
  time_limit args = Some t → Qle_bool t 0 = true →
  ∃ e st', solve args resp st = (Raise e, st')
           ∧ extends_by creates_variable (ort_log st) (ort_log st')
           ∧ ((∀ v, v ∈ user_vars (base st) → accepts v = true) → e = ValueError).
Proof.
  intros Ht Hle. unfold solve.
  unfold bind at 1, gets at 1; cbv beta iota.
  pose proof (ort_keeps_solver_vars _ ort_log solver_var_log
                (Lst (Var <$> elements (user_vars (base st)))) st) as Hlog.
  destruct (solver_vars _ st) as [[vs|e] s1] eqn:E; simpl in Hlog.
  - exists ValueError, s1. rewrite (bind_run _ _ _ _ _ E), Ht, Hle.
    by rewrite (bind_raise (raise ValueError) _ s1 ValueError s1 eq_refl).
  - exists e, s1. rewrite (bind_raise _ _ _ _ _ E).
    split; [done | split; [done|]]. intros Hk.
    destruct (solver_vars_ok (elements (user_vars (base st))) st) as (vs & s2 & E2).
    { intros v Hv. apply Hk. by apply elem_of_elements. }
    congruence.
Qed.

(** *** Counting native solves *)

#[local] Abbreviation solves := (λ st : State, List.filter is_Solve (ort_log st)).

Lemma read_solution_solves resp has_obj : keeps eq solves (read_solution resp has_obj).
Proof. unfold read_solution, fill_value. ort_keeps. Qed.

Ltac frame_of_tac f H :=
  lazymatch type of H with
  | ?m ?s = _ =>
      let K := fresh "K" in
      assert (keeps eq f m) as K by ort_keeps;
      specialize (K s); rewrite H in K; simpl in K
  end.

Tactic Notation "frame_of" constr(f) hyp(H) := frame_of_tac f H.

Lemma native_Solve_solves resp cb st status st' :
  native_Solve resp cb st = (Ok status, st') →
  status = resp_status resp
  ∧ solves st' = solves st ++ [Solve (bool_decide (is_Some cb))].
Proof.
  intros H. unfold native_Solve in H.
  apply bind_Ok in H as ([] & s1 & [= <-] & H).
  apply bind_Ok in H as ([] & s2 & [= <-] & H).
  apply bind_Ok in H as ([] & s3 & Hcb & [= <- <-]).
  split; [done|].
  frame_of solves Hcb. rewrite <- K. simpl. by rewrite List.filter_app.
Qed.

(** A [solve] that returns has called the native [Solve] exactly once. *)
Lemma solve_solves_once args resp st b st' :
  solve args resp st = (Ok b, st') →
  solves st' = solves st ++ [Solve (bool_decide (is_Some (solution_callback args)))].
Proof.
  intros H. unfold solve in H.
  apply bind_Ok in H as (uv & s1 & [= <- <-] & H).
  apply bind_Ok in H as (vs & s2 & H2 & H).
  apply bind_Ok in H as ([] & s3 & H3 & H).
  apply bind_Ok in H as ([] & s4 & H4 & H).
  apply bind_Ok in H as ([] & s5 & H5 & H).
  apply bind_Ok in H as ([] & s6 & H6 & H).
  apply bind_Ok in H as (status & s7 & H7 & H).
  apply bind_Ok in H as ([] & s8 & [= <-] & H).
  apply bind_Ok in H as ([] & s9 & [= <-] & H).
  apply bind_Ok in H as (has_obj & s10 & [= <- <-] & H).
  apply bind_Ok in H as ([] & s11 & H11 & H).
  change (read_solution resp (ort_has_objective s7) s11 = (Ok b, st')) in H.
  pose proof (read_solution_solves resp (ort_has_objective s7) s11) as K. rewrite H in K.
  simpl in K. rewrite <- K. clear K H.
  frame_of solves H11. rewrite <- K. clear K H11. simpl.
  apply native_Solve_solves in H7 as [_ ->].
  frame_of solves H6. frame_of solves H5. frame_of solves H4. frame_of solves H3.
  frame_of solves H2. congruence.
Qed.

(** *** Enumeration *)

Lemma reported_closed limit sols : ∀ count,
  reported limit count sols
  = match limit with
    | Some k =>
        if bool_decide (Z.of_nat count < k ≤ Z.of_nat (count + length sols))
        then Z.to_nat k else (count + length sols)%nat
    | None => (count + length sols)%nat
    end.
Proof.
  induction sols as [|sol sols IH]; intros count; simpl.
  - destruct limit as [k|]; [|lia]. case_bool_decide; lia.
  - case_bool_decide as E.
    + subst limit. case_bool_decide; lia.
    + rewrite IH. destruct limit as [k|]; [|lia].
      assert (k ≠ Z.of_nat (S count)) by congruence.
      repeat case_bool_decide; lia.
Qed.

Lemma on_solution_callback_result sol cb st cb1 stop st1 :
  on_solution_callback sol cb st = (Ok (cb1, stop), st1) →
  solution_count cb1 = S (solution_count cb)
  ∧ _solution_limit cb1 = _solution_limit cb
  ∧ stop = bool_decide (Some (Z.of_nat (S (solution_count cb))) = _solution_limit cb).
Proof.
  intros H. unfold on_solution_callback in H.
  apply bind_Ok in H as (vars & s1 & _ & H).
  apply bind_Ok in H as ([] & s2 & _ & H). simpl in H.
  case_bool_decide.
  - apply bind_Ok in H as ([] & s3 & _ & [= <- <- <-]). done.
  - injection H as <- <- <-. done.
Qed.

Lemma enumerate_count sols : ∀ cb st cb' st',
  enumerate sols cb st = (Ok cb', st') →
  solution_count cb' = reported (_solution_limit cb) (solution_count cb) sols.
Proof.
  induction sols as [|sol sols IH]; intros cb st cb' st' H; simpl in H.
  - by injection H as <- <-.
  - apply bind_Ok in H as ([cb1 stop] & s1 & H1 & H).
    apply on_solution_callback_result in H1 as (Hc & Hl & ->). simpl.
    case_bool_decide.
    + injection H as <- <-. done.
    + apply IH in H. by rewrite H, Hl, Hc.
Qed.

#[local] Abbreviation callback := (λ st : State, callback_obj st).

Lemma read_solution_callback resp has_obj : keeps eq callback (read_solution resp has_obj).
Proof. unfold read_solution, fill_value. ort_keeps. Qed.

(** After a [solve] with a callback that returned, the callback object
    holds the number of solutions reported to it. *)
Lemma solve_callback_count args resp st b st' cb :
  solve args resp st = (Ok b, st') →
  solution_callback args = Some cb →
  ∃ cb', callback_obj st' = Some cb'
         ∧ solution_count cb'
           = reported (_solution_limit cb) (solution_count cb) (resp_enumerated resp).
Proof.
  intros H Hcb. unfold solve in H.
  do 6 peel H.
  apply bind_Ok in H as (status & s7 & H7 & H).
  apply bind_Ok in H as ([] & s8 & [= <-] & H).
  apply bind_Ok in H as ([] & s9 & [= <-] & H).
  apply bind_Ok in H as (has_obj & s10 & [= <- <-] & H).
  apply bind_Ok in H as ([] & s11 & H11 & H).
  change (read_solution resp (ort_has_objective s7) s11 = (Ok b, st')) in H.
  pose proof (read_solution_callback resp (ort_has_objective s7) s11) as K. rewrite H in K.
  simpl in K. rewrite <- K. clear K H.
  frame_of callback H11. rewrite <- K. clear K H11. simpl.
  rewrite Hcb in H7. unfold native_Solve in H7.
  apply bind_Ok in H7 as ([] & t1 & [= <-] & H7).
  apply bind_Ok in H7 as ([] & t2 & [= <-] & H7).
  apply bind_Ok in H7 as ([] & t3 & H7 & [= <- <-]).
  apply bind_Ok in H7 as (cb' & t4 & Hen & [= <-]).
  exists cb'. split; [done|]. by apply enumerate_count in Hen.
Qed.

#[local] Abbreviation log := (λ st : State, ort_log st).

Lemma read_solution_log resp has_obj : keeps (⊆) log (read_solution resp has_obj).
Proof. unfold read_solution, fill_value. ort_keeps. Qed.

Lemma set_parameters_logged answer (kwargs : list (string * pyvalue)) : ∀ st st' kw val,
  for_each kwargs (λ '(kw, val), setattr_parameter answer kw val) st = (Ok tt, st') →
  (kw, val) ∈ kwargs → SetParameter kw val ∈ ort_log st'.
Proof.
  induction kwargs as [|[k v] kwargs IH]; intros st st' kw val H Hin.
  - by apply elem_of_nil in Hin.
  - simpl in H. apply bind_Ok in H as ([] & s1 & H1 & H).
    unfold setattr_parameter in H1. destruct (answer k v); [discriminate|].
    injection H1 as <-.
    apply elem_of_cons in Hin as [[= -> ->]|Hin]; [|by eapply IH].
    assert (keeps (⊆) log
              (for_each kwargs (λ '(kw, val), setattr_parameter answer kw val))) as K
      by ort_keeps.
    specialize (K (set_ort_log (ort_log st ++ [SetParameter k v]) st)).
    rewrite H in K. simpl in K. apply K. set_solver.
Qed.

(** Every keyword argument of a [solve] that returned has been set on the
    native solver. *)
Lemma solve_sets_parameters args resp st b st' kw val :
  solve args resp st = (Ok b, st') →
  (kw, val) ∈ kwargs args → SetParameter kw val ∈ ort_log st'.
Proof.
  intros H Hin. unfold solve in H.
  do 4 peel H.
  apply bind_Ok in H as ([] & s5 & H5 & H).
  apply (set_parameters_logged _ _ _ _ kw val) in H5; [|done].
  match type of H with ?m ?s = _ =>
    assert (keeps (⊆) log m) as K by (fold (read_solution resp); ort_keeps) end.
  specialize (K s5). rewrite H in K. simpl in K. by apply K.
Qed.

Section WithLib.
Context (lib : CpmLib).

Lemma solveAll_rejects_objective display tl sl assum kwargs redirected resp st :
  ort_has_objective st = true →
  solveAll lib display tl sl assum kwargs redirected resp st = (Raise NotSupportedError, st).
Proof. intros H. unfold solveAll, bind, has_objective, gets. by rewrite H. Qed.

Lemma solveAll_counts display tl sl assum kwargs redirected resp st n st' :
  solveAll lib display tl sl assum kwargs redirected resp st = (Ok n, st') →
  ort_has_objective st = false
  ∧ solves st' = solves st ++ [Solve true]
  ∧ SetParameter "enumerate_all_solutions" (PyBool true) ∈ ort_log st'
  ∧ n = reported sl 0 (resp_enumerated resp).
Proof.
  intros H. unfold solveAll in H.
  apply bind_Ok in H as (has_obj & s1 & [= <- <-] & H).
  destruct (ort_has_objective st) eqn:Eobj; [discriminate|]. split; [done|].
  apply bind_Ok in H as ([] & s2 & Hkw & H).
  case_bool_decide; [discriminate|]. injection Hkw as <-.
  apply bind_Ok in H as (b & s3 & Hsolve & H).
  apply bind_Ok in H as (cb' & s4 & [= <- <-] & H).
  pose proof (solve_solves_once _ _ _ _ _ Hsolve) as Hs.
  pose proof (solve_sets_parameters _ _ _ _ _ "enumerate_all_solutions" (PyBool true) Hsolve) as Hp.
  destruct (solve_callback_count _ _ _ _ _ _ Hsolve eq_refl) as (cb1 & Ecb & Hc).
  rewrite Ecb in H. injection H as <- <-.
  split; [done | split]; [apply Hp; by left | done].
Qed.

End WithLib.

End OrtLog.

Module OrtCore.
Import Ortools OrtFacts.

Lemma make_assumption_dict_values assum : ∀ ort_vars d0 d,
  make_assumption_dict assum ort_vars d0 = Some d →
  ∀ i x, d !! i = Some x → d0 !! i = Some x ∨ x ∈ assum.
Proof.
  induction assum as [|a assum IH]; intros ort_vars d0 d H i x Hx.
  - destruct ort_vars; injection H as <-; by left.
  - destruct ort_vars as [|[h| | |] ort_vars]; simpl in H; try discriminate.
    + injection H as <-. by left.
    + destruct (Index h) as [j|]; [|discriminate]. simpl in H.
      destruct (IH _ _ _ H i x Hx) as [Hd|Hin]; [|right; by right].
      destruct (decide (j = i)) as [->|Hne].
      * rewrite lookup_insert_eq in Hd. injection Hd as <-. right. by left.
      * rewrite lookup_insert_ne in Hd by done. by left.
Qed.

Lemma lookup_all_values (d : gmap Z Expr) idx : ∀ (st : State) l st',
  lookup_all d idx st = (Ok l, st') → ∀ x, x ∈ l → ∃ i, d !! i = Some x.
Proof.
  induction idx as [|i idx IH]; intros st l st' H x Hx; simpl in H.
  - injection H as <- <-. by apply elem_of_nil in Hx.
  - apply bind_Ok in H as (y & s1 & Hy & H).
    apply bind_Ok in H as (ys & s2 & Hys & [= <- <-]).
    apply elem_of_cons in Hx as [->|Hx]; [|by eapply IH].
    exists i. destruct (d !! i); [by injection Hy as <- | discriminate].
Qed.

#[local] Abbreviation adict := (λ st : State, assumption_dict st).

(** After a [solve] under assumptions that returned, the reverse map holds
    assumption variables only. *)
Lemma solve_records_assumptions args resp st b st' assum :
  solve args resp st = (Ok b, st') →
  assumptions args = Some assum →
  ∃ d, assumption_dict st' = Some d ∧ ∀ i x, d !! i = Some x → x ∈ assum.
Proof.
  intros H Hassum. unfold solve in H. do 3 peel H.
  apply bind_Ok in H as ([] & s4 & H4 & H).
  match type of H with ?m ?s = _ =>
    assert (keeps eq adict m) as K by (fold (read_solution resp); ort_keeps) end.
  specialize (K s4). rewrite H in K. simpl in K. rewrite <- K. clear K H.
  rewrite Hassum in H4.
  apply bind_Ok in H4 as (ort_assum_vars & t1 & _ & H4).
  apply bind_Ok in H4 as ([] & t2 & Hd & H4).
  destruct (make_assumption_dict assum ort_assum_vars ∅) as [d|] eqn:Ed; [|discriminate].
  injection Hd as <-.
  apply bind_Ok in H4 as ([] & t3 & [= <-] & H4).
  apply bind_Ok in H4 as ([] & t4 & [= <-] & [= <-]). simpl.
  exists d. split; [done|]. intros i a Ha.
  destruct (make_assumption_dict_values _ _ _ _ Ed i a Ha) as [Hemp|]; [|done].
  by rewrite lookup_empty in Hemp.
Qed.

(** [get_core] returns only when the last native status is INFEASIBLE and a
    reverse map has been recorded, and then what it returns comes out of
    that map. *)
Lemma ort_get_core_returns st l st' :
  get_core st = (Ok l, st') →
  ort_status st = Some ORT_INFEASIBLE
  ∧ ∃ d, assumption_dict st = Some d ∧ ∀ x, x ∈ l → ∃ i, d !! i = Some x.
Proof.
  intros H. unfold get_core in H.
  apply bind_Ok in H as (status & s1 & [= <- <-] & H).
  destruct (ort_status st) as [status|]; [|discriminate].
  apply bind_Ok in H as ([] & s2 & Ha & H).
  unfold assert in Ha. case_bool_decide; [|discriminate]. injection Ha as <-. subst status.
  split; [done|].
  apply bind_Ok in H as (d & s3 & [= <- <-] & H).
  destruct (assumption_dict st) as [d|]; [|discriminate].
  apply bind_Ok in H as (resp & s4 & [= <- <-] & H).
  destruct (ort_response st) as [resp|]; [|discriminate].
  exists d. split; [done|]. by eapply lookup_all_values.
Qed.

Lemma ort_get_core_unsolved : get_core init = (Raise AttributeError, init).
Proof. reflexivity. Qed.

Lemma lookup_all_each (d : gmap Z Expr) idx : ∀ (st : State) l st',
  lookup_all d idx st = (Ok l, st') → Forall2 (λ i x, d !! i = Some x) idx l.
Proof.
  induction idx as [|i idx IH]; intros st l st' H; simpl in H.
  - injection H as <- <-. constructor.
  - apply bind_Ok in H as (y & s1 & Hy & H).
    apply bind_Ok in H as (ys & s2 & Hys & [= <- <-]).
    constructor; [|by eapply IH].
    destruct (d !! i); [by injection Hy as <- | discriminate].
Qed.

(** What [get_core] returns is the native core read through the reverse
    map, index by index. *)
Lemma ort_get_core_reads_map st l st' :
  get_core st = (Ok l, st') →
  ∃ d resp, assumption_dict st = Some d ∧ ort_response st = Some resp
            ∧ Forall2 (λ i x, d !! i = Some x) (resp_core resp) l.
Proof.
  intros H. unfold get_core in H.
  apply bind_Ok in H as (status & s1 & [= <- <-] & H).
  destruct (ort_status st) as [status|]; [|discriminate].
  apply bind_Ok in H as ([] & s2 & Ha & H).
  unfold assert in Ha. case_bool_decide; [|discriminate]. injection Ha as <-.
  apply bind_Ok in H as (d & s3 & [= <- <-] & H).
  destruct (assumption_dict st) as [d|]; [|discriminate].
  apply bind_Ok in H as (resp & s4 & [= <- <-] & H).
  destruct (ort_response st) as [resp|]; [|discriminate].
  exists d, resp. split; [done | split; [done|]]. by eapply lookup_all_each.
Qed.

(** The reverse map a [solve] under assumptions records is the one built
    from the assumptions and the literals it has handed to the native
    model. *)
Lemma solve_hands_assumptions args resp st b st' assum :
  solve args resp st = (Ok b, st') →
  assumptions args = Some assum →
  ∃ ort_assum_vars d,
    make_assumption_dict assum ort_assum_vars ∅ = Some d
    ∧ assumption_dict st' = Some d
    ∧ AddAssumptions (OL ort_assum_vars) ∈ ort_log st'.
Proof.
  intros H Hassum. unfold solve in H. do 3 peel H.
  apply bind_Ok in H as ([] & s4 & H4 & H).
  match type of H with ?m ?s = _ =>
    assert (keeps eq adict m) as K by (fold (read_solution resp); ort_keeps);
    assert (keeps (⊆) (λ st : State, ort_log st) m) as L
      by (fold (read_solution resp); unfold read_solution, fill_value; ort_keeps)
  end.
  specialize (K s4). specialize (L s4). rewrite H in K, L. simpl in K, L. clear H.
  rewrite Hassum in H4.
  apply bind_Ok in H4 as (ort_assum_vars & t1 & _ & H4).
  apply bind_Ok in H4 as ([] & t2 & Hd & H4).
  destruct (make_assumption_dict assum ort_assum_vars ∅) as [d|] eqn:Ed; [|discriminate].
  injection Hd as <-.
  apply bind_Ok in H4 as ([] & t3 & [= <-] & H4).
  apply bind_Ok in H4 as ([] & t4 & [= <-] & [= <-]). simpl in K, L.
  exists ort_assum_vars, d. split; [done | split; [by rewrite <- K|]].
  apply L. set_solver.
Qed.

End OrtCore.

Module PumCore.
Import Pumpkin PumFacts.

Lemma dict_lookup_value k (d : list (Predicate * Expr)) x :
  dict_lookup k d = Some x → x ∈ d.*2.
Proof.
  induction d as [|[k' v] d IH]; simpl; [discriminate|].
  destruct (dict_lookup k d) as [y|].
  - intros [= <-]. right. by apply IH.
  - case_decide; [|discriminate]. intros [= <-]. by left.
Qed.

Lemma zip_values {A B} (l : list A) (k : list B) x : x ∈ (zip l k).*2 → x ∈ k.
Proof.
  revert k. induction l as [|a l IH]; intros [|b k]; simpl; try (by intros ?%elem_of_nil).
  intros [->|H]%elem_of_cons; [by left | right; by apply IH].
Qed.

Lemma pum_get_core_unsolved : get_core init = (Raise AttributeError, init).
Proof. reflexivity. Qed.

(** [get_core] returns only when [_pum_core] holds a core, and then what it
    returns comes out of the reverse map. *)
Lemma pum_get_core_returns st l st' :
  get_core st = (Ok l, st') →
  ∃ core m, _pum_core st = Some (Some core) ∧ assump_map st = Some m
            ∧ ∀ x, x ∈ l → x ∈ m.*2.
Proof.
  intros H. unfold get_core in H.
  apply bind_Ok in H as (core & s1 & [= <- <-] & H).
  destruct (_pum_core st) as [[core|]|]; try discriminate.
  apply bind_Ok in H as ([] & s2 & [= <-] & H).
  apply bind_Ok in H as (m0 & s3 & [= <- <-] & H).
  apply bind_Ok in H as (m & s4 & Hm & H).
  destruct (assump_map st) as [m1|]; [|discriminate]. injection Hm as <- <-.
  exists core, m1. split; [done | split; [done|]]. simpl in H.
  clear -H. revert st l st' H. induction core as [|p core IH]; intros st l st' H x Hx.
  - injection H as <- <-. by apply elem_of_nil in Hx.
  - simpl in H. apply bind_Ok in H as (y & s1 & Hy & H).
    apply bind_Ok in H as (ys & s2 & Hys & [= <- <-]).
    apply elem_of_cons in Hx as [->|Hx]; [|by eapply IH].
    destruct (dict_lookup p m1) eqn:E; [|discriminate]. injection Hy as <- <-.
    by eapply dict_lookup_value.
Qed.

(** What [get_core] returns is the recorded core read through the reverse
    map, predicate by predicate. *)
Lemma pum_get_core_reads_map st l st' :
  get_core st = (Ok l, st') →
  ∃ core m, _pum_core st = Some (Some core) ∧ assump_map st = Some m
            ∧ Forall2 (λ p x, dict_lookup p m = Some x) core l.
Proof.
  intros H. unfold get_core in H.
  apply bind_Ok in H as (core & s1 & [= <- <-] & H).
  destruct (_pum_core st) as [[core|]|]; try discriminate.
  apply bind_Ok in H as ([] & s2 & [= <-] & H).
  apply bind_Ok in H as (m0 & s3 & [= <- <-] & H).
  apply bind_Ok in H as (m & s4 & Hm & H).
  destruct (assump_map st) as [m1|]; [|discriminate]. injection Hm as <- <-.
  exists core, m1. split; [done | split; [done|]]. simpl in H.
  clear -H. revert st l st' H. induction core as [|p core IH]; intros st l st' H.
  - injection H as <- <-. constructor.
  - simpl in H. apply bind_Ok in H as (y & s1 & Hy & H).
    apply bind_Ok in H as (ys & s2 & Hys & [= <- <-]).
    constructor; [|by eapply IH].
    destruct (dict_lookup p m1) eqn:E; [|discriminate]. by injection Hy as <- <-.
Qed.

Section WithLib.
Context (lib : CpmLib).

#[local] Abbreviation core_and_map := (λ st : State, (_pum_core st, assump_map st)).

Ltac lib_keeps :=
  pum_keeps_with ltac:(
    idtac;
    lazymatch goal with
    | |- keeps _ _ (_ivars _ _) => apply keeps__ivars; [typeclasses eauto | intros ? | intros ? ?]
    | |- keeps _ _ (to_predicate _ _) => unfold to_predicate
    end).

Lemma read_solution_core result has_obj :
  keeps eq core_and_map (read_solution result has_obj).
Proof. unfold read_solution, fill_value. pum_keeps. Qed.

Lemma read_solution_no_solution result has_obj st st' :
  read_solution result has_obj st = (Ok false, st') →
  cpm_status (base st') = cpm_status (base st).
Proof.
  intros H. unfold read_solution in H.
  apply bind_Ok in H as (hs & t1 & [= <- <-] & H).
  apply bind_Ok in H as (uv & t2 & [= <- <-] & H).
  apply bind_Ok in H as ([] & t3 & H & [= E <-]). rewrite E in H.
  rewrite pum_clear_values_spec in H. by injection H as <-.
Qed.

(** What a [solve] that returned leaves for [get_core]: a core only after a
    native UnsatisfiableUnderAssumptions, and then the reverse map of the
    assumptions of this call. *)
Lemma solve_core args resp st b st' :
  solve lib args resp st = (Ok b, st') →
  match _pum_core st' with
  | Some (Some core) =>
      b = false
      ∧ exitstatus (cpm_status (base st')) = Some UNSATISFIABLE
      ∧ resp_result resp = UnderAssumptions_UnsatisfiableUnderAssumptions core
      ∧ ∃ assum preds, assumptions args = Some assum
                       ∧ assump_map st' = Some (zip preds assum)
                       ∧ satisfy_under_assumptions preds (kwargs args) ∈ pum_log st'
  | Some None => True
  | None => False
  end.
Proof.
  intros H.
  destruct (pumpkin_solve_values lib _ _ _ _ _ H) as [Hb _].
  unfold solve in H.
  apply bind_Ok in H as (uv0 & s1 & _ & H).
  apply bind_Ok in H as (vs & s2 & _ & H).
  apply bind_Ok in H as ([] & s3 & _ & H).
  apply bind_Ok in H as (has_obj & s4 & [= <- <-] & H).
  apply bind_Ok in H as (call & s5 & Hcall & H).
  apply bind_Ok in H as ([] & s6 & [= <-] & H).
  apply bind_Ok in H as ([] & s7 & [= <-] & H).
  apply bind_Ok in H as ([] & s8 & [= <-] & H).
  apply bind_Ok in H as ([] & s9 & Hcls & H).
  change (read_solution (resp_result resp) (bool_decide (is_Some (_objective s3))) s9
          = (Ok b, st')) in H.
  pose proof (read_solution_core (resp_result resp) (bool_decide (is_Some (_objective s3))) s9)
    as K.
  pose proof (pum_read_solution_spec _ _ _ _ _ H) as [Hb' Hrs].
  assert (keeps (⊆) (λ st : State, pum_log st)
            (read_solution (resp_result resp) (bool_decide (is_Some (_objective s3)))))
    as L by (unfold read_solution, fill_value; pum_keeps).
  specialize (L s9). rewrite H in L. simpl in L.
  rewrite H in K. simpl in K. injection K as K1 K2. rewrite <- K1, <- K2. clear K1 K2.
  assert (b = _solve_return (cpm_status (base s9))) as Hbs.
  { unfold read_solution in H. apply bind_Ok in H as (hs & t1 & [= <- <-] & H).
    apply bind_Ok in H as (uv & t2 & _ & H).
    by apply bind_Ok in H as ([] & t3 & _ & [= <- _]). }
  assert (b = false → cpm_status (base st') = cpm_status (base s9)) as Hst.
  { intros ->. by eapply read_solution_no_solution. }
  clear H Hb Hb' Hrs.
  destruct (bool_decide (is_Some (_objective s3))) eqn:Eobj.
  - destruct (resp_result resp); simpl in Hcls; try discriminate;
      injection Hcls as <-; simpl; done.
  - destruct (assumptions args) as [assum|] eqn:Ea; simpl in Hcls.
    + apply bind_Ok in Hcall as ([] & t1 & _ & Hcall).
      apply bind_Ok in Hcall as (preds & t2 & _ & Hcall).
      apply bind_Ok in Hcall as ([] & t3 & [= <-] & [= <- <-]).
      destruct (resp_result resp) eqn:Er; simpl in Hcls; try discriminate;
        try (injection Hcls as <-; simpl; done).
      apply bind_Ok in Hcls as ([] & t4 & [= <-] & [= <-]). simpl in *.
      split; [done | split; [by rewrite Hst | split; [done|]]]. exists assum, preds.
      split; [done | split; [done|]]. apply L. set_solver.
    + by apply bind_Ok in Hcall as (extra & t1 & [=] & _).
Qed.


End WithLib.
End PumCore.

(** ** The kinds of the cached Pumpkin handles *)
Module PumTyped.
Import Pumpkin PumFacts.

#[global] Instance stays_typed_preorder : PreOrder stays_typed.
Proof.
  split; [intros m H; exact H | intros m1 m2 m3 H1 H2 H; apply H2, H1, H].
Qed.


Lemma solver_var_cached_typed v :
  keeps stays_typed (λ st, _varmap (base st)) (solver_var_cached v).
Proof.
  intros st. destruct (_varmap (base st) !! v) as [h|] eqn:E.
  - by rewrite (pum_solver_var_cached_hit _ _ _ E).
  - destruct (is_BoolVarImpl v || is_known v) eqn:K.
    + rewrite (pum_solver_var_cached_miss _ _ K E). simpl.
      intros Ht w h. destruct (decide (v = w)) as [<-|Hne].
      * rewrite lookup_insert_eq. intros [= <-] Hb. by destruct v.
      * rewrite lookup_insert_ne by done. apply Ht.
    + destruct v; try discriminate. by rewrite (pum_solver_var_cached_unknown _ _ E).
Qed.

#[export] Hint Resolve solver_var_cached_typed : keeps.

Section WithLib.
Context (lib : CpmLib).

Ltac lib_keeps :=
  pum_keeps_with ltac:(
    idtac;
    lazymatch goal with
    | |- keeps _ _ (_ivars _ _) => apply keeps__ivars; [typeclasses eauto | intros ? | intros ? ?]
    | |- keeps _ _ (to_predicate _ _) => unfold to_predicate
    end).


End WithLib.


End PumTyped.

Module OrtStatus.
Import Ortools OrtFacts OrtLog.

#[local] Abbreviation status_of := (λ st : State, (cpm_status (base st), ort_status st)).

Lemma read_solution_status resp has_obj : keeps eq status_of (read_solution resp has_obj).
Proof. unfold read_solution, fill_value. ort_keeps. Qed.

Lemma solve_classifies args resp st b st' :
  solve args resp st = (Ok b, st') →
  ort_status st' = Some (resp_status resp)
  ∧ exitstatus (cpm_status (base st'))
    = classified (resp_status resp) (ort_has_objective st)
        (default false (truthy <$> kwargs_get "enumerate_all_solutions" (kwargs args)))
  ∧ is_Some (exitstatus (cpm_status (base st'))).
Proof.
  intros H. unfold solve in H.
  apply bind_Ok in H as (uv & s1 & [= <- <-] & H).
  apply bind_Ok in H as (vs & s2 & H2 & H).
  apply bind_Ok in H as ([] & s3 & H3 & H).
  apply bind_Ok in H as ([] & s4 & H4 & H).
  apply bind_Ok in H as ([] & s5 & H5 & H).
  apply bind_Ok in H as ([] & s6 & H6 & H).
  apply bind_Ok in H as (status & s7 & H7 & H).
  apply bind_Ok in H as ([] & s8 & [= <-] & H).
  apply bind_Ok in H as ([] & s9 & [= <-] & H).
  apply bind_Ok in H as (has_obj & s10 & [= <- <-] & H).
  apply bind_Ok in H as ([] & s11 & H11 & H).
  change (read_solution resp (ort_has_objective s7) s11 = (Ok b, st')) in H.
  pose proof (read_solution_status resp (ort_has_objective s7) s11) as K. rewrite H in K.
  simpl in K. injection K as K1 K2. rewrite <- K1, <- K2. clear K1 K2 H.
  assert (ort_has_objective s7 = ort_has_objective st) as Eobj.
  { frame_of ort_has_objective H7. frame_of ort_has_objective H6.
    frame_of ort_has_objective H5. frame_of ort_has_objective H4.
    frame_of ort_has_objective H3. frame_of ort_has_objective H2. congruence. }
  rewrite Eobj in H11. clear Eobj.
  apply OrtLog.native_Solve_solves in H7 as [-> _].
  destruct (resp_status resp); simpl in *; try discriminate;
    repeat match goal with
           | H : (if ?c then _ else _) _ = _ |- _ => destruct c
           end;
    injection H11 as <-; simpl; eauto.
Qed.


End OrtStatus.

(** ** A plain [solve] on each adapter *)

Lemma run_eq {S A} (m : M S A) (s : S) (r : res A) :
  outcome m s = r → m s = (r, exec m s).
Proof. unfold outcome, exec. intros <-. by destruct (m s). Qed.

(** The user variables [a] and [x] of the sample adapter are variables the
    native OR-Tools model takes. *)
Lemma ort_with_vars_accepted v :
  v ∈ user_vars (Ortools.base Scenarios.ort_with_vars) → Ortools.accepts v = true.
Proof.
  intros Hv. apply elem_of_elements in Hv. vm_compute in Hv.
  repeat (apply elem_of_cons in Hv as [->|Hv]; [reflexivity|]).
  by apply elem_of_nil in Hv.
Qed.


Lemma bind_Ok_intro {S A B} (m : M S A) (k : A → M S B) s a s1 :
  m s = (Ok a, s1) →
  (∃ b s', k a s1 = (Ok b, s')) → ∃ b s', bind m k s = (Ok b, s').
Proof. intros H (b & s' & Hk). exists b, s'. by rewrite (bind_run _ _ _ _ _ H). Qed.

Module OrtReturns.
Import Ortools OrtFacts OrtLog OrtStatus.

Lemma Value_total sol h : (∀ i, is_Some (sol i)) → is_Some (Value sol h).
Proof.
  intros Hs. induction h as [n|i|h IH]; simpl; [done | apply Hs |].
  destruct IH as [v ->]. done.
Qed.

Lemma fill_values_ok sol l : (∀ i, is_Some (sol i)) → ∀ st,
  (∀ v, v ∈ l → accepts v = true) → ∃ st', for_each l (fill_value sol) st = (Ok tt, st').
Proof.
  intros Hs. induction l as [|v l IH]; intros st Hl; simpl; [by eexists|].
  destruct (solver_var_ok v st) as (h & s1 & E1).
  { apply Hl. by left. }
  destruct (Value_total sol h Hs) as [z Ez].
  assert (∃ s2, fill_value sol v st = (Ok tt, s2)) as (s2 & E2).
  { unfold fill_value. rewrite (bind_run _ _ _ _ _ E1), Ez.
    destruct (is_BoolVarImpl v); by eexists. }
  destruct (IH s2) as (st' & E3).
  { intros w Hw. apply Hl. by right. }
  exists st'. by rewrite (bind_run _ _ _ _ _ E2).
Qed.

(** The parameters are set when the native side takes every one of them. *)
Lemma set_parameters_ok answer (kwargs : list (string * pyvalue)) : ∀ st,
  (∀ kw val, (kw, val) ∈ kwargs → answer kw val = None) →
  ∃ st', for_each kwargs (λ '(kw, val), setattr_parameter answer kw val) st = (Ok tt, st').
Proof.
  induction kwargs as [|[k v] kwargs IH]; intros st Hk; simpl; [by eexists|].
  destruct (IH (set_ort_log (ort_log st ++ [SetParameter k v]) st)) as (st' & E).
  { intros kw val Hin. apply Hk. by right. }
  exists st'. unfold bind at 1, setattr_parameter. rewrite (Hk k v) by left. simpl. exact E.
Qed.

Ltac step_with tac :=
  lazymatch goal with
  | |- ∃ _ _, bind ?m _ ?s = _ =>
      let Hstep := fresh "Hstep" in
      assert (∃ a s', m s = (Ok a, s')) as (? & ? & Hstep) by tac;
      eapply bind_Ok_intro; [exact Hstep|]
  end.

(** A callback that displays nothing never fails. *)
Lemma enumerate_ok sols : ∀ cb st,
  _cpm_vars cb = FixedVars [] → ∃ cb' st', enumerate sols cb st = (Ok cb', st').
Proof.
  induction sols as [|sol sols IH]; intros cb st Hcb; simpl; [by eexists _, _|].
  unfold on_solution_callback. simpl. rewrite Hcb. simpl.
  unfold bind at 1. unfold bind at 1. simpl. unfold bind at 1. simpl.
  case_bool_decide; simpl; [by eexists _, _|].
  by apply IH.
Qed.

Lemma native_Solve_ok resp cb st :
  (∀ c, cb = Some c → _cpm_vars c = FixedVars []) →
  ∃ st', native_Solve resp cb st = (Ok (resp_status resp), st').
Proof.
  intros Hcb. unfold native_Solve.
  unfold bind at 1. simpl. unfold bind at 1. simpl.
  destruct cb as [c|].
  - match goal with |- ∃ _, _ ?s = _ =>
      destruct (enumerate_ok (resp_enumerated resp) c s (Hcb c eq_refl))
        as (cb' & s' & E) end.
    eexists. unfold bind at 1. unfold bind at 1. rewrite E. reflexivity.
  - unfold bind. simpl. by eexists.
Qed.

(** A [solve] without assumptions returns: when the time limit is absent or
    positive, the callback, if any, displays nothing, the native status is
    one the adapter knows and the native solution gives every variable a
    value. *)
Lemma solve_returns args resp st :
  (∀ v, v ∈ user_vars (base st) → accepts v = true) →
  (∀ kw val, (kw, val) ∈ kwargs args → resp_setattr resp kw val = None) →
  (∀ t, time_limit args = Some t → Qle_bool t 0 = false) →
  assumptions args = None →
  (∀ c, solution_callback args = Some c → _cpm_vars c = FixedVars []) →
  resp_status resp ∈ [ORT_FEASIBLE; ORT_OPTIMAL; ORT_INFEASIBLE; ORT_UNKNOWN] →
  (∀ i, is_Some (resp_solution resp i)) →
  ∃ b st', solve args resp st = (Ok b, st').
Proof.
  intros Hknown Hparams Htl Hassum Hcb Hstatus Hsol. unfold solve.
  eapply bind_Ok_intro; [reflexivity|].
  destruct (solver_vars_ok (elements (user_vars (base st))) st) as (vs & s2 & E2).
  { intros v Hv. apply Hknown. by apply elem_of_elements. }
  assert (user_vars (base s2) = user_vars (base st)) as Huv.
  { pose proof (ort_keeps_solver_vars eq (λ st, user_vars (base st)) solver_var_user_vars
                  (Lst (Var <$> elements (user_vars (base st)))) st) as K.
    rewrite E2 in K. by simpl in K. }
  eapply bind_Ok_intro; [exact E2|].
  step_with ltac:(destruct (time_limit args) as [t|] eqn:Et;
                  [rewrite (Htl t eq_refl)|]; by eexists _, _).
  rewrite Hassum.
  eapply bind_Ok_intro; [reflexivity|].
  step_with ltac:(match goal with |- ∃ _ _, for_each ?kw _ ?s = _ =>
                    destruct (set_parameters_ok (resp_setattr resp) kw s Hparams)
                      as (s5 & E5) end;
                  by exists tt, s5).
  step_with ltac:(destruct (_ && _); by eexists _, _).
  match goal with |- ∃ _ _, bind (native_Solve resp ?cb) _ ?s = _ =>
    destruct (native_Solve_ok resp cb s Hcb) as (s7 & E7) end.
  eapply bind_Ok_intro; [exact E7|].
  eapply bind_Ok_intro; [reflexivity|].
  eapply bind_Ok_intro; [reflexivity|].
  eapply bind_Ok_intro; [reflexivity|].
  step_with ltac:(
    simpl; repeat (apply elem_of_cons in Hstatus as [->|Hstatus]);
    [..|by apply elem_of_nil in Hstatus]; simpl;
    repeat match goal with |- ∃ _ _, (if ?c then _ else _) _ = _ => destruct c end;
    by eexists _, _).
  eapply bind_Ok_intro; [reflexivity|].
  eapply bind_Ok_intro; [reflexivity|].
  eapply bind_Ok_intro; [reflexivity|].
  frame_of (λ st : State, user_vars (base st)) Hstep.
  frame_of (λ st : State, user_vars (base st)) Hstep0.
  frame_of (λ st : State, user_vars (base st)) Hstep1.
  frame_of (λ st : State, user_vars (base st)) E7.
  frame_of (λ st : State, user_vars (base st)) Hstep2.
  step_with ltac:(
    match goal with |- ∃ _ _, (if ?c then _ else _) ?s = _ => destruct c end;
    [ match goal with |- ∃ _ _, bind (for_each ?l _) ?k ?s = _ =>
        destruct (fill_values_ok (resp_solution resp) l Hsol s) as (s' & E);
        [ intros v Hv; apply elem_of_elements in Hv; simpl in Hv;
          apply Hknown; congruence
        | unfold fill_value in E; rewrite (bind_run _ k _ _ _ E);
          destruct (ort_has_objective _); by eexists _, _ ] end
    | rewrite ort_clear_values_spec; by eexists _, _ ]).
  by eexists _, _.
Qed.

(** [solveAll] without an objective and without a display returns the
    number of solutions the native enumeration reported. *)
Lemma solveAll_returns lib tl sl kwargs redirected resp st :
  ort_has_objective st = false →
  (∀ v, v ∈ user_vars (base st) → accepts v = true) →
  (∀ kw val, (kw, val) ∈ ("enumerate_all_solutions", PyBool true) :: kwargs →
             resp_setattr resp kw val = None) →
  (∀ t, tl = Some t → Qle_bool t 0 = false) →
  kwargs_get "enumerate_all_solutions" kwargs = None →
  resp_status resp ∈ [ORT_FEASIBLE; ORT_OPTIMAL; ORT_INFEASIBLE; ORT_UNKNOWN] →
  (∀ i, is_Some (resp_solution resp i)) →
  ∃ st', solveAll lib DisplayNone tl sl None kwargs redirected resp st
         = (Ok (reported sl 0 (resp_enumerated resp)), st').
Proof.
  intros Hobj Hknown Hparams Htl Hkw Hstatus Hsol.
  assert (∃ n st', solveAll lib DisplayNone tl sl None kwargs redirected resp st
                   = (Ok n, st')) as (n & st' & E).
  { unfold solveAll.
    eapply bind_Ok_intro; [reflexivity|]. unfold has_objective. rewrite Hobj, Hkw. simpl.
    eapply bind_Ok_intro; [reflexivity|].
    match goal with |- ∃ _ _, bind (solve ?args resp) _ st = _ =>
      destruct (solve_returns args resp st Hknown Hparams Htl eq_refl) as (b & s1 & Es);
        [by intros c [= <-] | done | done |];
      destruct (solve_callback_count _ _ _ _ _ _ Es eq_refl) as (cb' & Ecb & _)
    end.
    eapply bind_Ok_intro; [exact Es|].
    eapply bind_Ok_intro; [reflexivity|]. rewrite Ecb. by eexists _, _. }
  exists st'. rewrite E.
  by destruct (solveAll_counts _ _ _ _ _ _ _ _ _ _ _ E) as (_ & _ & _ & ->).
Qed.

End OrtReturns.

(** ** A plain [solve] on the Pumpkin adapter *)
Module PumPlain.
Import Pumpkin PumFacts.

#[local] Abbreviation solve_calls := (λ st : State, List.filter is_solve_call (pum_log st)).

Lemma pum_solver_var_ok v st :
  (∀ n, v ≠ NumVarImpl n) → ∃ h st', solver_var (Var v) st = (Ok h, st').
Proof.
  intros Hv.
  assert (∀ w, (∀ n, w ≠ NumVarImpl n) → ∃ h st', solver_var_cached w st = (Ok h, st')) as Hc.
  { intros w Hw. destruct (_varmap (base st) !! w) as [h|] eqn:E.
    - rewrite (pum_solver_var_cached_hit _ _ _ E). eauto.
    - rewrite pum_solver_var_cached_miss; [eauto | | done]. destruct w; try done. by destruct (Hw name). }
  destruct v as [n|n lb ub|bv|n]; simpl; try (by apply Hc).
  destruct (Hc (BoolVarImpl bv)) as (h & st' & E); [done|].
  exists (PumNegate h), st'. unfold bind. by rewrite E.
Qed.

Lemma pum_solver_vars_ok (l : list cpm_variable) : ∀ st,
  (∀ n, NumVarImpl n ∉ l) → ∃ vs st', solver_vars (Lst (Var <$> l)) st = (Ok vs, st').
Proof.
  intros st Hl.
  assert (∃ vs st', mapM solver_vars (Var <$> l) st = (Ok vs, st')) as (vs & st' & E).
  { revert st. induction l as [|v l IH]; intros st; [by eexists _, _|].
    destruct (pum_solver_var_ok v st) as (h & s1 & E1).
    { intros n ->. apply (Hl n). by left. }
    destruct (IH (λ n Hn, Hl n (list_elem_of_further _ _ _ Hn)) s1) as (vs & s2 & E2).
    exists (PV h :: vs), s2.
    change (mapM solver_vars (Var <$> v :: l))
      with (let* y := (let* h := solver_var (Var v) in ret (PV h)) in
            let* ys := mapM solver_vars (Var <$> l) in ret (y :: ys)).
    unfold bind at 1. unfold bind at 1. rewrite E1. simpl.
    unfold bind. by rewrite E2. }
  exists (PL vs), st'. simpl. unfold bind. by rewrite E.
Qed.

Lemma solver_vars_solve_calls e : keeps eq solve_calls (solver_vars e).
Proof. pum_keeps. Qed.

Lemma solver_vars_objective e : keeps eq _objective (solver_vars e).
Proof. pum_keeps. Qed.

(** C2, where the code departs from it.
    A [solve] of the Pumpkin adapter without assumptions and
    without an objective never returns and never reaches the native solver:
    it raises, and the native solve calls in the log are those that were
    there before.  When every user variable is of a known kind the error is
    the TypeError of [kwargs.update(proof[proof])]. *)
Theorem pumpkin_plain_solve_raises lib args resp st :
  assumptions args = None → _objective st = None →
  ∃ e st', solve lib args resp st = (Raise e, st')
           ∧ List.filter is_solve_call (pum_log st')
             = List.filter is_solve_call (pum_log st)
           ∧ ((∀ n, NumVarImpl n ∉ user_vars (base st)) → e = TypeError).
Proof.
  intros Hassum Hobj. unfold solve.
  unfold bind at 1, gets at 1; cbv beta iota.
  pose proof (solver_vars_solve_calls (Lst (Var <$> elements (user_vars (base st)))) st) as Hlog.
  pose proof (solver_vars_objective (Lst (Var <$> elements (user_vars (base st)))) st) as Ho.
  destruct (solver_vars _ st) as [[vs|e] s1] eqn:E; simpl in Hlog, Ho.
  - rewrite (bind_run _ _ _ _ _ E).
    assert (∃ s2, (match proof args with
                   | Some p => modify (set_prefix (Some p))
                   | None => ret tt
                   end) s1 = (Ok tt, s2)
                  ∧ _objective s2 = _objective s1 ∧ pum_log s2 = pum_log s1)
      as (s2 & E2 & Ho2 & Hl2) by (destruct (proof args); by eexists).
    rewrite (bind_run _ _ _ _ _ E2).
    unfold bind at 1, has_objective at 1, gets at 1; cbv beta iota.
    rewrite Ho2, <- Ho, Hobj, Hassum. simpl.
    exists TypeError, s2. split; [done|]. rewrite Hl2. done.
  - exists e, s1. rewrite (bind_raise _ _ _ _ _ E).
    split; [done | split; [done|]]. intros Hk.
    destruct (pum_solver_vars_ok (elements (user_vars (base st))) st) as (vs & s2 & E2).
    { intros n Hn. apply (Hk n). by apply elem_of_elements. }
    congruence.
Qed.

(** [solve()] on a fresh Pumpkin adapter: TypeError, and no native call at
    all. *)
Lemma pumpkin_plain_solve_raises_on_init :
  assumptions Scenarios.pum_plain = None
  ∧ _objective init = None
  ∧ ∃ e st',
      solve Samples.lib0 Scenarios.pum_plain
        (Scenarios.pum_resp Satisfaction_Unsatisfiable) init
      = (Raise e, st')
      ∧ List.filter is_solve_call (pum_log st')
        = List.filter is_solve_call (pum_log init)
      ∧ ((∀ n, NumVarImpl n ∉ user_vars (base init)) → e = TypeError).
Proof.
  split; [reflexivity | split; [reflexivity|]].
  apply (pumpkin_plain_solve_raises Samples.lib0 Scenarios.pum_plain
           (Scenarios.pum_resp Satisfaction_Unsatisfiable) init); reflexivity.
Defined.

(** The same call, run: the error is the TypeError and the adapter is
    untouched. *)
Lemma pumpkin_plain_solve_on_init :
  solve Samples.lib0 Scenarios.pum_plain
    (Scenarios.pum_resp Satisfaction_Unsatisfiable) init
  = (Raise TypeError, init).
Proof. reflexivity. Qed.


End PumPlain.

(** ** Posting numeric comparisons to Pumpkin *)
Module PumPost.
Import Pumpkin PumFacts.

Section WithLib.
Context (lib : CpmLib).

Lemma sum_args_sub args negate st :
  _sum_args (Operator "sub" args) negate st = (Raise TypeError, st).
Proof. reflexivity. Qed.

Lemma ivars_constant n st : ∃ v st', _ivars lib (Num n) st = (Ok v, st').
Proof.
  change (_ivars lib (Num n)) with (let* v := intvar lib n n in
                                    let* h := solver_var (Var v) in ret (PV h)).
  eapply bind_Ok_intro; [reflexivity|].
  match goal with |- ∃ _ _, bind (solver_var (Var ?v)) _ ?s = _ =>
    destruct (PumPlain.pum_solver_var_ok v s) as (h & s1 & E); [done|] end.
  eapply bind_Ok_intro; [exact E|]. by eexists _, _.
Qed.

Lemma ivars_variable v st :
  (∀ n, v ≠ NumVarImpl n) → ∃ h st', _ivars lib (Var v) st = (Ok h, st').
Proof.
  intros Hv. destruct (PumPlain.pum_solver_var_ok v st Hv) as (h & s1 & E).
  change (_ivars lib (Var v))
    with (if is_BoolVarImpl v
          then let* b := solver_var (Var v) in ret (PV (PumBoolAsInteger b))
          else let* h := solver_var (Var v) in ret (PV h)).
  destruct (is_BoolVarImpl v); unfold bind; rewrite E; by eexists _, _.
Qed.

(** The branches of [_sum_args] and [_get_constraint] for [sub] and
    [abs] cannot post: reached, they raise.  A comparison with [sub] on its
    left raises the TypeError of [isinstance(Operator, expr)]; an equality
    with [abs] on its left applies [solver_var] to the [abs] expression
    itself, which is no variable. *)
Lemma sub_and_abs_branches_raise fuel st :
  (∀ name args rhs, mem_string name comparison_names = true →
     _get_constraint lib (S fuel) (Comparison name (Operator "sub" args) rhs) st
     = (Raise TypeError, st))
  ∧ (∀ args rhs, ∃ e st',
       _get_constraint lib (S fuel) (Comparison "==" (Operator "abs" args) rhs) st
       = (Raise e, st')
       ∧ (is_num rhs = true ∨ (∃ v, rhs = Var v ∧ ∀ n, v ≠ NumVarImpl n) →
          e = NotImplementedError)).
Proof.
  split.
  - intros name args rhs Hname.
    apply bool_decide_eq_true in Hname.
    repeat (apply elem_of_cons in Hname as [->|Hname]);
      [reflexivity.. | by apply elem_of_nil in Hname].
  - intros args rhs. simpl. unfold get_equality.
    rewrite (bind_run (ret ()) _ st () st eq_refl).
    rewrite (bind_run (attr (expr_name (Operator "abs" args))) _ st "abs" st eq_refl).
    change (contains "sum" "abs" || bool_decide ("abs" = "sub")) with false. cbv iota.
    destruct (_ivars lib rhs st) as [[pum_rhs|e] s1] eqn:E.
    + exists NotImplementedError, s1. rewrite (bind_run _ _ _ _ _ E). done.
    + exists e, s1. rewrite (bind_raise _ _ _ _ _ E). split; [done|].
      intros [Hnum|(v & -> & Hv)].
      * destruct rhs; try discriminate.
        destruct (ivars_constant n st) as (h & s2 & E2). congruence.
      * destruct (ivars_variable v st Hv) as (h & s2 & E2). congruence.
Qed.

(** *** Sums and weighted sums *)

#[local] Abbreviation posted := (λ st : State, List.filter posts_constraint (pum_log st)).













End WithLib.


End PumPost.

(** ** Time limits *)

Lemma creations_are_not_on_solver l l' :
  extends_by Ortools.creates_variable l l' →
  List.filter Ortools.on_solver l' = List.filter Ortools.on_solver l.
Proof.
  intros (evs & -> & Hevs). rewrite List.filter_app.
  assert (List.filter Ortools.on_solver evs = []) as ->; [|by rewrite app_nil_r].
  induction Hevs as [|ev evs Hev _ IH]; [done|]. simpl.
  destruct ev; try discriminate; exact IH.
Qed.

(** C5, as it holds of the code.
    The OR-Tools [solve] with a time limit that is not
    positive raises, with nothing called on the native solver object; what
    it has done before is create, in the native model, user variables the
    model did not know yet, in whatever order.  The error is the ValueError
    of the time-limit check when the native model takes every user
    variable; a variable it refuses (an integer variable with a bound that
    is no 64-bit integer, a variable of an unknown kind) raises before the
    check is reached.  The Pumpkin [solve] never reads its [time_limit]:
    two calls that differ in it only behave alike. *)
Theorem solve_nonpositive_time_limit_raises :
  (∀ args resp st t,
     Ortools.time_limit args = Some t → Qle_bool t 0 = true →
     ∃ e st', Ortools.solve args resp st = (Raise e, st')
       ∧ extends_by Ortools.creates_variable (Ortools.ort_log st) (Ortools.ort_log st')
       ∧ List.filter Ortools.on_solver (Ortools.ort_log st')
         = List.filter Ortools.on_solver (Ortools.ort_log st)
       ∧ ((∀ v, v ∈ user_vars (Ortools.base st) → Ortools.accepts v = true) →
          e = ValueError))
  ∧ (∀ lib args1 args2 resp,
       Pumpkin.proof args1 = Pumpkin.proof args2 →
       Pumpkin.assumptions args1 = Pumpkin.assumptions args2 →
       Pumpkin.kwargs args1 = Pumpkin.kwargs args2 →
       Pumpkin.solve lib args1 resp = Pumpkin.solve lib args2 resp).
Proof.
  split.
  - intros args resp st t Ht Hle.
    destruct (OrtLog.solve_nonpositive_time_limit args resp st t Ht Hle)
      as (e & st' & E & Hlog & He).
    exists e, st'. split; [done | split; [done | split; [|done]]].
    by apply creations_are_not_on_solver.
  - intros lib [tl1 p1 a1 k1] [tl2 p2 a2 k2] resp. simpl.
    intros -> -> ->. reflexivity.
Qed.

(** [solve(time_limit=-1)] on an OR-Tools adapter with the user variables
    [a] and [x], both taken by the native model, and two Pumpkin calls that
    differ in the time limit. *)
Lemma solve_nonpositive_time_limit_raises_sample :
  (Ortools.time_limit Scenarios.ort_negative_limit = Some (-1 # 1)%Q
   ∧ Qle_bool (-1 # 1) 0 = true
   ∧ (∀ v, v ∈ user_vars (Ortools.base Scenarios.ort_with_vars) →
           Ortools.accepts v = true)
   ∧ ∃ st',
       Ortools.solve Scenarios.ort_negative_limit
         (Scenarios.ort_resp Ortools.ORT_OPTIMAL []) Scenarios.ort_with_vars
       = (Raise ValueError, st')
       ∧ extends_by Ortools.creates_variable
           (Ortools.ort_log Scenarios.ort_with_vars) (Ortools.ort_log st')
       ∧ List.filter Ortools.on_solver (Ortools.ort_log st')
         = List.filter Ortools.on_solver (Ortools.ort_log Scenarios.ort_with_vars))
  ∧ Pumpkin.solve Samples.lib0 Scenarios.pum_negative_limit
      (Scenarios.pum_resp Pumpkin.UnderAssumptions_Unknown)
    = Pumpkin.solve Samples.lib0 Scenarios.pum_assuming
        (Scenarios.pum_resp Pumpkin.UnderAssumptions_Unknown).
Proof.
  pose proof ort_with_vars_accepted as Hacc.
  split; [split; [reflexivity | split; [reflexivity | split; [exact Hacc|]]]|].
  - destruct (proj1 solve_nonpositive_time_limit_raises
                Scenarios.ort_negative_limit (Scenarios.ort_resp Ortools.ORT_OPTIMAL [])
                Scenarios.ort_with_vars (-1 # 1)%Q eq_refl eq_refl)
      as (e & st' & E & Hlog & Hsolver & He).
    exists st'. rewrite <- (He Hacc). exact (conj E (conj Hlog Hsolver)).
  - apply (proj2 solve_nonpositive_time_limit_raises); reflexivity.
Defined.

(** [solve(time_limit=-1, assumptions=[a])] on a fresh Pumpkin adapter
    raises nothing: it calls the native solver and returns its answer.  And
    the OR-Tools [solve(time_limit=-1)] has created two native variables by
    the time it raises, in one order or the other. *)
Lemma pumpkin_ignores_time_limit :
  Pumpkin.time_limit Scenarios.pum_negative_limit = Some (-1 # 1)%Q
  ∧ outcome (Pumpkin.solve Samples.lib0 Scenarios.pum_negative_limit
               (Scenarios.pum_resp (Pumpkin.UnderAssumptions_Satisfiable
                                      Scenarios.pum_solution0)))
      Pumpkin.init
    = Ok true
  ∧ List.filter Pumpkin.is_solve_call
      (Pumpkin.pum_log
         (exec (Pumpkin.solve Samples.lib0 Scenarios.pum_negative_limit
                  (Scenarios.pum_resp (Pumpkin.UnderAssumptions_Satisfiable
                                         Scenarios.pum_solution0)))
            Pumpkin.init))
    = [Pumpkin.satisfy_under_assumptions
         [(Pumpkin.PumBoolAsInteger (Pumpkin.PumBool 0), Pumpkin.GreaterThanOrEqual, 1)]
         []]
  ∧ Ortools.ort_log
      (exec (Ortools.solve Scenarios.ort_negative_limit
               (Scenarios.ort_resp Ortools.ORT_OPTIMAL []))
         Scenarios.ort_with_vars)
    ≡ₚ [Ortools.NewBoolVar "a"; Ortools.NewIntVar 0 10 "x"].
Proof.
  split; [reflexivity | split; [vm_compute; reflexivity | split; [vm_compute; reflexivity|]]].
  assert (Ortools.ort_log
            (exec (Ortools.solve Scenarios.ort_negative_limit
                     (Scenarios.ort_resp Ortools.ORT_OPTIMAL []))
               Scenarios.ort_with_vars)
          = [Ortools.NewBoolVar "a"; Ortools.NewIntVar 0 10 "x"]) as ->
    by (vm_compute; reflexivity).
  reflexivity.
Qed.

(** ** Unsatisfiable cores *)
Module OrtCoreSound.
Import Ortools OrtFacts OrtLog OrtStatus OrtCore.

(** After a [solve] that returned, the adapter holds the native answer. *)
Lemma solve_response args resp st b st' :
  solve args resp st = (Ok b, st') → ort_response st' = Some resp.
Proof.
  intros H. unfold solve in H. do 6 peel H.
  apply bind_Ok in H as (status & s7 & H7 & H).
  match type of H with ?m ?s = _ =>
    assert (keeps eq (λ st : State, ort_response st) m) as K
      by (fold (read_solution resp); ort_keeps) end.
  specialize (K s7). rewrite H in K. simpl in K. rewrite <- K. clear K H.
  unfold native_Solve in H7.
  apply bind_Ok in H7 as ([] & t1 & [= <-] & H7).
  apply bind_Ok in H7 as ([] & t2 & [= <-] & H7).
  apply bind_Ok in H7 as ([] & t3 & H7 & [= <- <-]).
  frame_of (λ st : State, ort_response st) H7. by rewrite <- K.
Qed.

Lemma lookup_all_ok (d : gmap Z Expr) idx (st : State) :
  (∀ i, i ∈ idx → is_Some (d !! i)) → ∃ l, lookup_all d idx st = (Ok l, st).
Proof.
  induction idx as [|i idx IH]; intros Hd; [by eexists|].
  destruct (Hd i) as [x Ex]; [by left|].
  destruct IH as (l & El); [intros j Hj; apply Hd; by right|].
  exists (x :: l). unfold lookup_all in *. simpl.
  unfold bind at 1. rewrite Ex. simpl. unfold bind. by rewrite El.
Qed.

(** What [get_core] returns after a [solve] under assumptions: the native
    core of that [solve], read index by index through the reverse map that
    the [solve] built from its assumptions and the literals it handed to
    the native model. *)
Lemma solve_then_get_core args resp st b st' assum l st'' :
  solve args resp st = (Ok b, st') →
  assumptions args = Some assum →
  get_core st' = (Ok l, st'') →
  b = false
  ∧ exitstatus (cpm_status (base st')) = Some UNSATISFIABLE
  ∧ (∃ ort_assum_vars d,
       AddAssumptions (OL ort_assum_vars) ∈ ort_log st'
       ∧ make_assumption_dict assum ort_assum_vars ∅ = Some d
       ∧ assumption_dict st' = Some d
       ∧ Forall2 (λ i x, d !! i = Some x) (resp_core resp) l)
  ∧ ∀ x, x ∈ l → x ∈ assum.
Proof.
  intros Hsolve Hassum Hcore.
  destruct (ort_get_core_returns _ _ _ Hcore) as (Hst & d & Hd & Hl).
  destruct (ort_get_core_reads_map _ _ _ Hcore) as (d1 & resp1 & Hd1 & Hr1 & Hread).
  destruct (solve_records_assumptions _ _ _ _ _ _ Hsolve Hassum) as (d' & Hd' & Hin).
  destruct (solve_hands_assumptions _ _ _ _ _ _ Hsolve Hassum) as (vs & d2 & Hmk & Hd2 & Hlog).
  pose proof (solve_response _ _ _ _ _ Hsolve) as Hr.
  destruct (solve_classifies _ _ _ _ _ Hsolve) as (Hs & Hex & _).
  destruct (ortools_solve_values _ _ _ _ _ Hsolve) as [Hb _].
  assert (resp_status resp = ORT_INFEASIBLE) as E by congruence.
  rewrite E in Hex. simpl in Hex.
  split; [|split; [done | split]].
  - rewrite Hb. unfold _solve_return. by rewrite Hex.
  - exists vs, d2. split; [done | split; [done | split; [done|]]].
    assert (d1 = d2) as <- by congruence. assert (resp1 = resp) as <- by congruence.
    exact Hread.
  - intros x Hx. destruct (Hl x Hx) as (i & Hi).
    apply (Hin i). congruence.
Qed.

(** [get_core] returns after a [solve] under assumptions that the native
    solver found infeasible, when the native core names assumptions only. *)
Lemma get_core_after_infeasible args resp st b st' assum :
  solve args resp st = (Ok b, st') →
  assumptions args = Some assum →
  resp_status resp = ORT_INFEASIBLE →
  (∀ d, assumption_dict st' = Some d → ∀ i, i ∈ resp_core resp → is_Some (d !! i)) →
  ∃ l, get_core st' = (Ok l, st').
Proof.
  intros Hsolve Hassum Hst Hcore.
  destruct (solve_records_assumptions _ _ _ _ _ _ Hsolve Hassum) as (d & Hd & _).
  destruct (solve_classifies _ _ _ _ _ Hsolve) as (Hs & _ & _).
  pose proof (solve_response _ _ _ _ _ Hsolve) as Hr.
  destruct (lookup_all_ok d (resp_core resp) st' (Hcore d Hd)) as (l & El).
  exists l. unfold get_core.
  unfold bind at 1, gets at 1. rewrite Hs, Hst. simpl.
  unfold bind at 1. simpl.
  unfold bind at 1, gets at 1. rewrite Hd.
  unfold bind at 1, gets at 1. rewrite Hr. exact El.
Qed.

(** [get_core] raises unless the last native status is INFEASIBLE and a
    reverse map has been recorded. *)
Lemma get_core_precondition st :
  ort_status st ≠ Some ORT_INFEASIBLE ∨ assumption_dict st = None →
  ∃ e, get_core st = (Raise e, st).
Proof.
  intros H. unfold get_core, bind, gets, assert.
  destruct (ort_status st) as [status|]; [|by eexists].
  case_bool_decide as E; simpl; [|by eexists].
  subst status. destruct H as [H|H]; [done|]. rewrite H. by eexists.
Qed.

End OrtCoreSound.

Module PumCoreSound.
Import Pumpkin PumFacts PumCore.

Lemma get_core_requires_core st :
  (∀ core, _pum_core st ≠ Some (Some core)) → ∃ e, get_core st = (Raise e, st).
Proof.
  intros H. unfold get_core. unfold bind at 1, gets at 1.
  destruct (_pum_core st) as [[core|]|]; [by destruct (H core) | |]; by eexists.
Qed.

Lemma dict_lookup_ok p (d : list (Predicate * Expr)) :
  p ∈ d.*1 → is_Some (dict_lookup p d).
Proof.
  induction d as [|[k v] d IH]; simpl; [by intros ?%elem_of_nil|].
  intros Hp. destruct (dict_lookup p d) as [y|] eqn:E; [done|].
  apply elem_of_cons in Hp as [->|Hp]; [|by destruct (IH Hp)].
  by rewrite decide_True.
Qed.

(** [get_core] returns when every predicate of the recorded core is a key
    of the reverse map. *)
Lemma get_core_ok st core m :
  _pum_core st = Some (Some core) → assump_map st = Some m →
  (∀ p, p ∈ core → p ∈ m.*1) → ∃ l, get_core st = (Ok l, st).
Proof.
  intros Hc Hm Hin. unfold get_core.
  unfold bind at 1, gets at 1. rewrite Hc. simpl.
  unfold bind at 1. simpl. unfold bind at 1, gets at 1.
  unfold bind at 1, attr. rewrite Hm. simpl.
  clear Hc. induction core as [|p core IH]; [by eexists|].
  destruct (dict_lookup_ok p m) as [x Ex]; [apply Hin; by left|].
  destruct IH as (l & El); [intros q Hq; apply Hin; by right|].
  exists (x :: l). simpl. unfold bind at 1. rewrite Ex. simpl.
  unfold bind. simpl in El. by rewrite El.
Qed.

Section WithLib.
Context (lib : CpmLib).

(** What [get_core] returns after a [solve]: the native core of that
    [solve], read predicate by predicate through the map that pairs the
    predicates handed to the native solver with the assumptions. *)
Lemma pumpkin_solve_then_get_core args resp st b st' l st'' :
  solve lib args resp st = (Ok b, st') →
  get_core st' = (Ok l, st'') →
  b = false
  ∧ exitstatus (cpm_status (base st')) = Some UNSATISFIABLE
  ∧ ∃ assum core preds,
      assumptions args = Some assum
      ∧ resp_result resp = UnderAssumptions_UnsatisfiableUnderAssumptions core
      ∧ satisfy_under_assumptions preds (kwargs args) ∈ pum_log st'
      ∧ assump_map st' = Some (zip preds assum)
      ∧ Forall2 (λ p x, dict_lookup p (zip preds assum) = Some x) core l
      ∧ ∀ x, x ∈ l → x ∈ assum.
Proof.
  intros Hsolve Hcore.
  destruct (pum_get_core_returns _ _ _ Hcore) as (core & m & Hc & Hm & Hl).
  destruct (pum_get_core_reads_map _ _ _ Hcore) as (core1 & m1 & Hc1 & Hm1 & Hread).
  pose proof (solve_core lib _ _ _ _ _ Hsolve) as Hs. rewrite Hc in Hs.
  destruct Hs as (Hb & Hex & Hres & assum & preds & Hassum & Hmap & Hlog).
  split; [done | split; [done|]]. exists assum, core, preds.
  split; [done | split; [done | split; [done | split; [done | split]]]].
  - assert (core1 = core) as -> by congruence.
    assert (m1 = zip preds assum) as -> by congruence. exact Hread.
  - intros x Hx. apply (zip_values preds). specialize (Hl x Hx). congruence.
Qed.

(** A [solve] that returned on a native UnsatisfiableUnderAssumptions has
    recorded the native core and the reverse map of its assumptions. *)
Lemma solve_records_core args resp st b st' core :
  solve lib args resp st = (Ok b, st') →
  resp_result resp = UnderAssumptions_UnsatisfiableUnderAssumptions core →
  _pum_core st' = Some (Some core)
  ∧ ∃ assum preds, assumptions args = Some assum
                   ∧ assump_map st' = Some (zip preds assum).
Proof.
  intros H Hres. unfold solve in H.
  apply bind_Ok in H as (uv0 & s1 & _ & H).
  apply bind_Ok in H as (vs & s2 & _ & H).
  apply bind_Ok in H as ([] & s3 & _ & H).
  apply bind_Ok in H as (has_obj & s4 & [= <- <-] & H).
  apply bind_Ok in H as (call & s5 & Hcall & H).
  apply bind_Ok in H as ([] & s6 & [= <-] & H).
  apply bind_Ok in H as ([] & s7 & [= <-] & H).
  apply bind_Ok in H as ([] & s8 & [= <-] & H).
  apply bind_Ok in H as ([] & s9 & Hcls & H).
  change (read_solution (resp_result resp) (bool_decide (is_Some (_objective s3))) s9
          = (Ok b, st')) in H.
  pose proof (read_solution_core (resp_result resp) (bool_decide (is_Some (_objective s3))) s9)
    as K.
  rewrite H in K. simpl in K. injection K as K1 K2. rewrite <- K1, <- K2. clear K1 K2 H.
  rewrite Hres in Hcls.
  destruct (bool_decide (is_Some (_objective s3))); [discriminate|].
  destruct (assumptions args) as [assum|] eqn:Ea; simpl in Hcls.
  - apply bind_Ok in Hcall as ([] & t1 & _ & Hcall).
    apply bind_Ok in Hcall as (preds & t2 & _ & Hcall).
    apply bind_Ok in Hcall as ([] & t3 & [= <-] & [= <- <-]).
    apply bind_Ok in Hcls as ([] & t4 & [= <-] & [= <-]). simpl.
    split; [done|]. by exists assum, preds.
  - by apply bind_Ok in Hcall as (extra & t1 & [=] & _).
Qed.

(** [get_core] returns after such a [solve], when the native core holds
    predicates of the assumptions only. *)
Lemma get_core_after_unsat_under_assumptions args resp st b st' core :
  solve lib args resp st = (Ok b, st') →
  resp_result resp = UnderAssumptions_UnsatisfiableUnderAssumptions core →
  (∀ m, assump_map st' = Some m → ∀ p, p ∈ core → p ∈ m.*1) →
  ∃ l, get_core st' = (Ok l, st').
Proof.
  intros Hsolve Hres Hin.
  destruct (solve_records_core _ _ _ _ _ _ Hsolve Hres) as (Hc & assum & preds & _ & Hm).
  apply (get_core_ok st' core (zip preds assum) Hc Hm). by apply Hin.
Qed.

End WithLib.
End PumCoreSound.

(** C6, as it holds of the code.
    [get_core] on an adapter that has not solved raises.
    The OR-Tools [get_core] raises unless the last native status is
    INFEASIBLE and a reverse map has been recorded; the Pumpkin [get_core]
    raises unless the last [solve] ended on a native
    UnsatisfiableUnderAssumptions.  Whenever [get_core] returns after a
    [solve] under assumptions, that [solve] returned false with the status
    UNSATISFIABLE, and what is returned is the native core of that [solve]
    read, element by element and in its order, through the reverse map the
    [solve] recorded: on OR-Tools the map from the index of each literal
    handed to [AddAssumptions] to its assumption, on Pumpkin the map from
    each predicate handed to [satisfy_under_assumptions] to its assumption.
    So the variables returned are among the assumptions.  And [get_core]
    does return when the native core names assumptions only. *)
Theorem get_core_after_solve :
  (Ortools.get_core Ortools.init = (Raise AttributeError, Ortools.init)
   ∧ Pumpkin.get_core Pumpkin.init = (Raise AttributeError, Pumpkin.init))
  ∧ (∀ st,
       Ortools.ort_status st ≠ Some Ortools.ORT_INFEASIBLE
       ∨ Ortools.assumption_dict st = None →
       ∃ e, Ortools.get_core st = (Raise e, st))
  ∧ (∀ st,
       (∀ core, Pumpkin._pum_core st ≠ Some (Some core)) →
       ∃ e, Pumpkin.get_core st = (Raise e, st))
  ∧ (∀ args resp st b st' assum,
       Ortools.solve args resp st = (Ok b, st') →
       Ortools.assumptions args = Some assum →
       (∀ l st2, Ortools.get_core st' = (Ok l, st2) →
          b = false
          ∧ exitstatus (cpm_status (Ortools.base st')) = Some UNSATISFIABLE
          ∧ (∃ ort_assum_vars d,
               Ortools.AddAssumptions (Ortools.OL ort_assum_vars) ∈ Ortools.ort_log st'
               ∧ Ortools.make_assumption_dict assum ort_assum_vars ∅ = Some d
               ∧ Ortools.assumption_dict st' = Some d
               ∧ Forall2 (λ i x, d !! i = Some x) (Ortools.resp_core resp) l)
          ∧ ∀ x, x ∈ l → x ∈ assum)
       ∧ (Ortools.resp_status resp = Ortools.ORT_INFEASIBLE →
          (∀ d, Ortools.assumption_dict st' = Some d →
                ∀ i, i ∈ Ortools.resp_core resp → is_Some (d !! i)) →
          ∃ l, Ortools.get_core st' = (Ok l, st')))
  ∧ (∀ lib args resp st b st',
       Pumpkin.solve lib args resp st = (Ok b, st') →
       (∀ l st2, Pumpkin.get_core st' = (Ok l, st2) →
          b = false
          ∧ exitstatus (cpm_status (Pumpkin.base st')) = Some UNSATISFIABLE
          ∧ ∃ assum core preds,
              Pumpkin.assumptions args = Some assum
              ∧ Pumpkin.resp_result resp
                = Pumpkin.UnderAssumptions_UnsatisfiableUnderAssumptions core
              ∧ Pumpkin.satisfy_under_assumptions preds (Pumpkin.kwargs args)
                ∈ Pumpkin.pum_log st'
              ∧ Pumpkin.assump_map st' = Some (zip preds assum)
              ∧ Forall2 (λ p x, Pumpkin.dict_lookup p (zip preds assum) = Some x) core l
              ∧ ∀ x, x ∈ l → x ∈ assum)
       ∧ (∀ core,
            Pumpkin.resp_result resp
            = Pumpkin.UnderAssumptions_UnsatisfiableUnderAssumptions core →
            (∀ m, Pumpkin.assump_map st' = Some m → ∀ p, p ∈ core → p ∈ m.*1) →
            ∃ l, Pumpkin.get_core st' = (Ok l, st'))).
Proof.
  split; [split; reflexivity|].
  split; [apply OrtCoreSound.get_core_precondition|].
  split; [apply PumCoreSound.get_core_requires_core|].
  split.
  - intros args resp st b st' assum Hsolve Hassum. split.
    + intros l st2 Hcore. by eapply OrtCoreSound.solve_then_get_core.
    + intros Hst Hcore. by eapply OrtCoreSound.get_core_after_infeasible.
  - intros lib args resp st b st' Hsolve. split.
    + intros l st2 Hcore. by eapply PumCoreSound.pumpkin_solve_then_get_core.
    + intros core Hres Hin. by eapply PumCoreSound.get_core_after_unsat_under_assumptions.
Qed.

(** [solve(assumptions=[a])] on fresh adapters whose native solvers answer
    with the core [a], then [get_core()]. *)
Lemma get_core_after_solve_sample :
  let pum := Scenarios.pum_resp
               (Pumpkin.UnderAssumptions_UnsatisfiableUnderAssumptions
                  [Scenarios.pum_a_holds]) in
  let pst := exec (Pumpkin.solve Samples.lib0 Scenarios.pum_assuming pum) Pumpkin.init in
  let ort := Scenarios.ort_infeasible [0] in
  let ost := exec (Ortools.solve Scenarios.ort_assuming ort) Ortools.init in
  (Pumpkin.solve Samples.lib0 Scenarios.pum_assuming pum Pumpkin.init = (Ok false, pst)
   ∧ Pumpkin.get_core pst = (Ok [Var Samples.a], pst)
   ∧ false = false
   ∧ exitstatus (cpm_status (Pumpkin.base pst)) = Some UNSATISFIABLE
   ∧ ∃ assum core preds,
       Pumpkin.assumptions Scenarios.pum_assuming = Some assum
       ∧ Pumpkin.resp_result pum
         = Pumpkin.UnderAssumptions_UnsatisfiableUnderAssumptions core
       ∧ Pumpkin.satisfy_under_assumptions preds (Pumpkin.kwargs Scenarios.pum_assuming)
         ∈ Pumpkin.pum_log pst
       ∧ Pumpkin.assump_map pst = Some (zip preds assum)
       ∧ Forall2 (λ p x, Pumpkin.dict_lookup p (zip preds assum) = Some x) core
           [Var Samples.a]
       ∧ ∀ x, x ∈ [Var Samples.a] → x ∈ assum)
  ∧ (Ortools.solve Scenarios.ort_assuming ort Ortools.init = (Ok false, ost)
     ∧ Ortools.assumptions Scenarios.ort_assuming = Some [Var Samples.a]
     ∧ Ortools.get_core ost = (Ok [Var Samples.a], ost)
     ∧ false = false
     ∧ exitstatus (cpm_status (Ortools.base ost)) = Some UNSATISFIABLE
     ∧ (∃ ort_assum_vars d,
          Ortools.AddAssumptions (Ortools.OL ort_assum_vars) ∈ Ortools.ort_log ost
          ∧ Ortools.make_assumption_dict [Var Samples.a] ort_assum_vars ∅ = Some d
          ∧ Ortools.assumption_dict ost = Some d
          ∧ Forall2 (λ i x, d !! i = Some x) (Ortools.resp_core ort) [Var Samples.a])
     ∧ ∀ x, x ∈ [Var Samples.a] → x ∈ [Var Samples.a]).
Proof.
  intros pum pst ort ost.
  assert (Pumpkin.solve Samples.lib0 Scenarios.pum_assuming pum Pumpkin.init
          = (Ok false, pst)) as Hp
    by (refine (run_eq (Pumpkin.solve Samples.lib0 Scenarios.pum_assuming pum)
                  Pumpkin.init (Ok false) _); vm_compute; reflexivity).
  assert (Pumpkin.get_core pst = (Ok [Var Samples.a], pst)) as Hpc
    by (vm_compute; reflexivity).
  assert (Ortools.solve Scenarios.ort_assuming ort Ortools.init = (Ok false, ost)) as Ho
    by (refine (run_eq (Ortools.solve Scenarios.ort_assuming ort) Ortools.init (Ok false) _);
        vm_compute; reflexivity).
  assert (Ortools.get_core ost = (Ok [Var Samples.a], ost)) as Hoc
    by (vm_compute; reflexivity).
  destruct get_core_after_solve as (_ & _ & _ & Hort & Hpum).
  split.
  - split; [exact Hp | split; [exact Hpc|]].
    exact (proj1 (Hpum _ _ _ _ _ _ Hp) _ _ Hpc).
  - split; [exact Ho | split; [reflexivity | split; [exact Hoc|]]].
    exact (proj1 (Hort _ _ _ _ _ _ Ho eq_refl) _ _ Hoc).
Defined.

(** [solve(assumptions=[a])] on a fresh Pumpkin adapter whose native solver
    answers Unsatisfiable returns false, with the status UNSATISFIABLE, and
    [get_core()] then fails its assertion. *)
Lemma pumpkin_unsat_without_core :
  let resp := Scenarios.pum_resp Pumpkin.UnderAssumptions_Unsatisfiable in
  let st' := exec (Pumpkin.solve Samples.lib0 Scenarios.pum_assuming resp) Pumpkin.init in
  outcome (Pumpkin.solve Samples.lib0 Scenarios.pum_assuming resp) Pumpkin.init = Ok false
  ∧ exitstatus (cpm_status (Pumpkin.base st')) = Some UNSATISFIABLE
  ∧ outcome Pumpkin.get_core st' = Raise AssertionError.
Proof. repeat split; vm_compute; reflexivity. Qed.

(** ** The cache of a Pumpkin adapter in use *)
Module PumReach.
Import Pumpkin PumFacts PumTyped.

Section WithLib.
Context (lib : CpmLib).

#[local] Abbreviation cache := (λ st : State, _varmap (base st)).

Ltac reach_keeps :=
  pum_keeps_with ltac:(
    idtac;
    lazymatch goal with
    | |- keeps _ _ (_ivars _ _) => apply keeps__ivars; [typeclasses eauto | intros ? | intros ? ?]
    | |- keeps _ _ (to_predicate _ _) => unfold to_predicate
    | |- keeps _ _ (transform _ _) => unfold transform
    | |- keeps _ _ (_get_constraint _ _ _) =>
        apply PumAdd.get_constraint_frame; [typeclasses eauto | intros ? | intros ? ? | | intros ?]
    end).

Lemma add_typed fuel e : keeps stays_typed cache (__add__ lib fuel e).
Proof. unfold __add__. reach_keeps. Qed.

Lemma objective_typed fuel expr minimize :
  keeps stays_typed cache (objective lib fuel expr minimize).
Proof.
  unfold objective. destruct (get_bounds lib expr) as [lb ub].
  pose proof add_typed. reach_keeps.
Qed.

(** Every Boolean variable in the cache has a Boolean handle, whatever has
    been added to a fresh adapter. *)
Lemma pum_calls_typed fuel cs : ∀ st,
  typed_cache (cache st) → typed_cache (cache (pum_calls lib fuel cs st)).
Proof.
  induction cs as [|c cs IH]; intros st Hty; [done|]. simpl. apply IH.
  destruct c as [e|e minimize]; simpl.
  - by apply (add_typed fuel e st).
  - by apply (objective_typed fuel e minimize st).
Qed.

End WithLib.
End PumReach.

(** * The adapters against their specification *)

(** ** The transformation pipelines *)

(** C1, as it holds of the code.
    The stages of [transform] run in the order of the source,
    whatever the input and the state, each on the list the stage before it
    has returned.  In the OR-Tools adapter safening
    ([no_partial_functions]) runs before decomposition
    ([decompose_in_tree]): decomposition is given the safened list, and
    every later stage the list and the CSE map of the one before.  In the
    Pumpkin adapter decomposition runs first and safening works on its
    result; the later stages, too, run in an order of their own. *)
Theorem transform_stage_order (lib : CpmLib) (cpm_expr : Expr) :
  (∀ st, ∃ st',
      let safened :=
        no_partial_functions lib (toplevel_list lib cpm_expr None) ["div"; "mod"] in
      let decomposed :=
        decompose_in_tree lib safened Ortools.supported (_csemap (Ortools.base st)) in
      let flat := flatten_constraint lib (fst decomposed) (snd decomposed) in
      let rewritten := reify_rewrite lib (fst flat) ["sum"; "wsum"] (snd flat) in
      let equalities :=
        only_numexpr_equality lib (fst rewritten) ["sum"; "wsum"; "sub"] (snd rewritten) in
      let reified := only_bv_reifies lib (fst equalities) (snd equalities) in
      let implied := only_implies lib (fst reified) (snd reified) in
      Ortools.transform lib cpm_expr st = (Ok (fst implied), st')
      ∧ _csemap (Ortools.base st') = snd implied
      ∧ pipeline_trace (Ortools.base st')
        = pipeline_trace (Ortools.base st)
          ++ [ToplevelList; Safening; Decomposition; Flattening; ReifyRewrite;
              NumexprEquality; BvReifies; OnlyImplies])
  ∧ (∀ st, ∃ st',
      let decomposed :=
        fst (decompose_in_tree lib (toplevel_list lib cpm_expr None)
               Pumpkin.supported None) in
      let safened := no_partial_functions lib decomposed ["element"] in
      let flat := fst (flatten_constraint lib safened None) in
      let reified := fst (only_implies lib (fst (only_bv_reifies lib flat None)) None) in
      let rewritten := fst (reify_rewrite lib reified Pumpkin.supported_halfreif None) in
      let equalities :=
        fst (only_numexpr_equality lib rewritten ["sum"; "wsum"; "sub"] None) in
      Pumpkin.transform lib cpm_expr st = (Ok (canonical_comparison lib equalities), st')
      ∧ pipeline_trace (Pumpkin.base st')
        = pipeline_trace (Pumpkin.base st)
          ++ [ToplevelList; Decomposition; Safening; Flattening; BvReifies;
              OnlyImplies; ReifyRewrite; NumexprEquality; CanonicalComparison]).
Proof.
  split; intros st.
  - unfold Ortools.transform, Ortools.run_stage, Ortools.with_csemap.
    eexists. split; [reflexivity|]. simpl. split; [reflexivity|].
    by rewrite <- !app_assoc.
  - unfold Pumpkin.transform, Pumpkin.run_stage.
    eexists. split; [reflexivity|]. simpl.
    by rewrite <- !app_assoc.
Qed.

(** On a Boolean variable posted to a fresh Pumpkin adapter, safening does
    not run before decomposition: it runs after it. *)
Lemma transform_pumpkin_decomposes_first :
  let trace :=
    pipeline_trace
      (Pumpkin.base (exec (Pumpkin.transform Samples.lib0 (Var Samples.a)) Pumpkin.init)) in
  runs_before Safening Decomposition trace = false
  ∧ runs_before Decomposition Safening trace = true.
Proof. split; reflexivity. Qed.

(** ** Enumerating all solutions *)

(** C7.  With an objective set, the OR-Tools [solveAll] raises
    NotSupportedError and leaves the adapter, the log of native calls
    included, as it was.  Without one, a [solveAll] that returns has called
    the native [Solve] once, with a callback and with
    [enumerate_all_solutions] set, and returns the number of solutions the
    native solver reported, up to the solution limit; and it does return
    when nothing is displayed, the time limit is absent or positive, the
    native side takes what it is given (every user variable, and every
    parameter: [enumerate_all_solutions] and the keyword arguments) and the
    native answer is one the adapter can read. *)
Theorem solveAll_counts_solutions lib display tl sl assum kwargs redirected resp st :
  (Ortools.ort_has_objective st = true →
   Ortools.solveAll lib display tl sl assum kwargs redirected resp st
   = (Raise NotSupportedError, st))
  ∧ (∀ n st',
       Ortools.solveAll lib display tl sl assum kwargs redirected resp st = (Ok n, st') →
       Ortools.ort_has_objective st = false
       ∧ List.filter Ortools.is_Solve (Ortools.ort_log st')
         = List.filter Ortools.is_Solve (Ortools.ort_log st) ++ [Ortools.Solve true]
       ∧ Ortools.SetParameter "enumerate_all_solutions" (PyBool true) ∈ Ortools.ort_log st'
       ∧ n = OrtSpec.reported sl 0 (Ortools.resp_enumerated resp))
  ∧ (Ortools.ort_has_objective st = false →
     display = Ortools.DisplayNone → assum = None →
     (∀ v, v ∈ user_vars (Ortools.base st) → Ortools.accepts v = true) →
     (∀ kw val, (kw, val) ∈ ("enumerate_all_solutions", PyBool true) :: kwargs →
                Ortools.resp_setattr resp kw val = None) →
     (∀ t, tl = Some t → Qle_bool t 0 = false) →
     kwargs_get "enumerate_all_solutions" kwargs = None →
     Ortools.resp_status resp
     ∈ [Ortools.ORT_FEASIBLE; Ortools.ORT_OPTIMAL; Ortools.ORT_INFEASIBLE;
        Ortools.ORT_UNKNOWN] →
     (∀ i, is_Some (Ortools.resp_solution resp i)) →
     ∃ st', Ortools.solveAll lib display tl sl assum kwargs redirected resp st
            = (Ok (OrtSpec.reported sl 0 (Ortools.resp_enumerated resp)), st')).
Proof.
  split; [apply OrtLog.solveAll_rejects_objective | split].
  - intros n st'. apply OrtLog.solveAll_counts.
  - intros Hobj -> ->. by apply OrtReturns.solveAll_returns.
Qed.

(** [solveAll()] after [minimize(x)], and [solveAll()] on an adapter with
    two user variables whose native solver reports three solutions. *)
Lemma solveAll_counts_solutions_sample :
  let three := Scenarios.ort_resp Ortools.ORT_OPTIMAL [λ _, Some 0; λ _, Some 1; λ _, Some 2] in
  (Ortools.ort_has_objective Scenarios.ort_minimizing = true
   ∧ Ortools.solveAll Samples.lib0 Ortools.DisplayNone None None None [] false three
       Scenarios.ort_minimizing
     = (Raise NotSupportedError, Scenarios.ort_minimizing))
  ∧ (Ortools.ort_has_objective Scenarios.ort_with_vars = false
     ∧ ∃ st', Ortools.solveAll Samples.lib0 Ortools.DisplayNone None None None [] false three
                Scenarios.ort_with_vars
              = (Ok 3%nat, st')).
Proof.
  intros three.
  pose proof (solveAll_counts_solutions Samples.lib0 Ortools.DisplayNone None None None []
                false three) as H.
  split.
  - split; [reflexivity|]. apply (proj1 (H Scenarios.ort_minimizing)). reflexivity.
  - split; [reflexivity|].
    apply (proj2 (proj2 (H Scenarios.ort_with_vars))); try reflexivity.
    + exact ort_with_vars_accepted.
    + intros t Ht. discriminate.
    + right; left.
    + intros i. by eexists.
Defined.

(** ** The variable cache *)

(** C8.  Both adapters keep the contract of [solver_var]: a number is
    returned as it is; a negated view is answered with the negation of the
    handle of its variable and never gets a cache entry of its own; a
    Boolean or integer variable not yet in the cache that the native model
    takes gets one native variable, made by one native call, and one cache
    entry, and one that the native model refuses (for OR-Tools an integer
    variable with a bound that is no 64-bit integer) raises with nothing
    made or cached; a variable in the cache is answered from it with no
    native call, and no later call changes its entry; a variable of an
    unknown kind raises NotImplementedError. *)
Theorem solver_var_keeps_contract :
  solver_var_contract Ortools.solver_var (λ st, _varmap (Ortools.base st))
    (λ st, length (Ortools.ort_log st)) Ortools.OrtNum Ortools.OrtNot Ortools.accepts
  ∧ solver_var_contract Pumpkin.solver_var (λ st, _varmap (Pumpkin.base st))
      (λ st, length (Pumpkin.pum_log st)) Pumpkin.PumNum Pumpkin.PumNegate (λ _, true).
Proof.
  split.
  - apply OrtFacts.solver_var_contract_ortools.
  - apply PumFacts.solver_var_contract_pumpkin.
Qed.

(** The first and the second [solver_var(x)] on fresh adapters: one native
    variable, one cache entry, and then the same handle with no native
    call.  And [solver_var] of an integer variable with the upper bound
    [2 ** 63] on a fresh OR-Tools adapter: an error, and the adapter is as
    it was. *)
Lemma solver_var_keeps_contract_sample :
  (is_known Samples.x = true
   ∧ Ortools.accepts Samples.x = true
   ∧ _varmap (Ortools.base Ortools.init) !! Samples.x = None
   ∧ ∃ h st',
       Ortools.solver_var (Var Samples.x) Ortools.init = (Ok h, st')
       ∧ _varmap (Ortools.base st') = <[Samples.x := h]> (_varmap (Ortools.base Ortools.init))
       ∧ length (Ortools.ort_log st') = S (length (Ortools.ort_log Ortools.init)))
  ∧ (let st1 := exec (Pumpkin.solver_var (Var Samples.x)) Pumpkin.init in
     is_view Samples.x = false
     ∧ _varmap (Pumpkin.base st1) !! Samples.x = Some (Pumpkin.PumInt 0)
     ∧ Pumpkin.solver_var (Var Samples.x) st1 = (Ok (Pumpkin.PumInt 0), st1))
  ∧ (let big := IntVarImpl "z" 0 (2 ^ 63) in
     is_known big = true
     ∧ Ortools.accepts big = false
     ∧ _varmap (Ortools.base Ortools.init) !! big = None
     ∧ ∃ e, Ortools.solver_var (Var big) Ortools.init = (Raise e, Ortools.init)).
Proof.
  split; [|split].
  - split; [reflexivity | split; [reflexivity | split; [reflexivity|]]].
    apply (sv_first _ _ _ _ _ _ (proj1 solver_var_keeps_contract)); reflexivity.
  - intros st1. split; [reflexivity|].
    assert (_varmap (Pumpkin.base st1) !! Samples.x = Some (Pumpkin.PumInt 0)) as E
      by (vm_compute; reflexivity).
    split; [exact E|].
    exact (sv_cached _ _ _ _ _ _ (proj2 solver_var_keeps_contract) Samples.x
             (Pumpkin.PumInt 0) st1 eq_refl E).
  - intros big. split; [reflexivity | split; [reflexivity | split; [reflexivity|]]].
    apply (sv_refused _ _ _ _ _ _ (proj1 solver_var_keeps_contract)); reflexivity.
Defined.

(** ** The user variables *)

Lemma ort_calls_mono lib fuel cs : ∀ st,
  user_vars (Ortools.base st) ⊆ user_vars (Ortools.base (ort_calls lib fuel cs st)).
Proof.
  induction cs as [|c cs IH]; intros st; [done|]. simpl.
  etrans; [|apply IH].
  destruct c as [e|e minimize]; simpl.
  - apply (OrtAdd.ort_add_mono lib fuel e st).
  - apply (OrtAdd.ort_objective_mono lib fuel e minimize st).
Qed.

Lemma pum_calls_mono lib fuel cs : ∀ st,
  user_vars (Pumpkin.base st) ⊆ user_vars (Pumpkin.base (pum_calls lib fuel cs st)).
Proof.
  induction cs as [|c cs IH]; intros st; [done|]. simpl.
  etrans; [|apply IH].
  destruct c as [e|e minimize]; simpl.
  - apply (PumAdd.pum_add_mono lib fuel e st).
  - apply (PumAdd.pum_objective_mono lib fuel e minimize st).
Qed.

(** C9, as it holds of the code.
    Across every sequence of [add] and [objective] calls
    the set of user variables only grows, on both adapters, and the
    variables of an added expression are in it.  On the Pumpkin adapter it
    is known exactly: [add] adds the variables of its expression, and
    [objective] adds those of [expr == obj_var], where [obj_var] is the
    integer variable the adapter has just made for the objective: a
    variable the caller never gave. *)
Theorem user_vars_grow lib fuel :
  (∀ cs1 cs2 st,
     user_vars (Ortools.base (ort_calls lib fuel cs1 st))
     ⊆ user_vars (Ortools.base (ort_calls lib fuel (cs1 ++ cs2) st)))
  ∧ (∀ cs1 cs2 st,
       user_vars (Pumpkin.base (pum_calls lib fuel cs1 st))
       ⊆ user_vars (Pumpkin.base (pum_calls lib fuel (cs1 ++ cs2) st)))
  ∧ (∀ e st,
       get_variables lib e
       ⊆ user_vars (Ortools.base (exec (Ortools.add lib (S fuel) e) st)))
  ∧ (∀ e st,
       user_vars (Pumpkin.base (exec (Pumpkin.__add__ lib fuel e) st))
       = user_vars (Pumpkin.base st) ∪ get_variables lib e)
  ∧ (∀ expr minimize st,
       let obj_var :=
         IntVarImpl (intvar_name lib (iv_counter (Pumpkin.base st)))
           (fst (get_bounds lib expr)) (snd (get_bounds lib expr)) in
       user_vars (Pumpkin.base (exec (Pumpkin.objective lib fuel expr minimize) st))
       = user_vars (Pumpkin.base st) ∪ get_variables lib (expr_eq lib expr (Var obj_var))).
Proof.
  split; [|split; [|split; [|split]]].
  - intros cs1 cs2 st. unfold ort_calls. rewrite foldl_app. apply ort_calls_mono.
  - intros cs1 cs2 st. unfold pum_calls. rewrite foldl_app. apply pum_calls_mono.
  - intros e st. apply OrtAdd.add_collects.
  - intros e st. apply PumAdd.add_user_vars.
  - intros expr minimize st. apply PumAdd.objective_user_vars.
Qed.

(** After [minimize(x)] on a fresh Pumpkin adapter the user variables are
    [x] and the adapter's own [IV0], which is no variable of [x]. *)
Lemma pumpkin_objective_variable_is_user_variable :
  elements (user_vars (Pumpkin.base
              (pum_calls Samples.lib0 10 [Objective (Var Samples.x) true] Pumpkin.init)))
  = [IntVarImpl "IV0" 0 10; Samples.x]
  ∧ elements (get_variables Samples.lib0 (Var Samples.x)) = [Samples.x].
Proof. split; vm_compute; reflexivity. Qed.

(** ** The values and the status after [solve] *)





(** C10.  A Pumpkin [solve] that returns true leaves the status OPTIMAL:
    whatever the native result, and whether or not an objective is set. *)
Theorem pumpkin_solution_is_optimal lib args resp st st' :
  Pumpkin.solve lib args resp st = (Ok true, st') →
  exitstatus (cpm_status (Pumpkin.base st')) = Some OPTIMAL
  ∧ exitstatus (cpm_status (Pumpkin.base st')) ≠ Some FEASIBLE.
Proof.
  intros H.
  destruct (PumFacts.pumpkin_solve_values lib _ _ _ _ _ H) as (_ & Hopt & _).
  rewrite Hopt. by split.
Qed.

(** [solve()] after [minimize(x)], with a native Satisfiable: a solution
    that is not known to be optimal, reported as OPTIMAL. *)
Lemma pumpkin_solution_is_optimal_sample :
  let resp := Scenarios.pum_resp (Pumpkin.Optimisation_Satisfiable Scenarios.pum_solution0) in
  let st' := exec (Pumpkin.solve Samples.lib0 Scenarios.pum_plain resp)
               Scenarios.pum_minimizing in
  Pumpkin.solve Samples.lib0 Scenarios.pum_plain resp Scenarios.pum_minimizing
  = (Ok true, st')
  ∧ exitstatus (cpm_status (Pumpkin.base st')) = Some OPTIMAL
  ∧ exitstatus (cpm_status (Pumpkin.base st')) ≠ Some FEASIBLE.
Proof.
  intros resp st'.
  assert (Pumpkin.solve Samples.lib0 Scenarios.pum_plain resp Scenarios.pum_minimizing
          = (Ok true, st')) as H
    by (refine (run_eq (Pumpkin.solve Samples.lib0 Scenarios.pum_plain resp)
                  Scenarios.pum_minimizing (Ok true) _); vm_compute; reflexivity).
  split; [exact H|].
  exact (pumpkin_solution_is_optimal Samples.lib0 Scenarios.pum_plain resp
           Scenarios.pum_minimizing st' H).
Defined.

(** * Further properties of the code *)

(** ** [param_combinations] *)
Module ParamFacts.
Import Utils UtilsSpec.

Section WithValues.
Context {V : Type}.
Implicit Types (d cur : gmap string V) (ps : list (string * list V)).

Lemma combinations_dom ps d :
  d ∈ combinations ps → ∀ k, is_Some (d !! k) ↔ k ∈ ps.*1.
Proof.
  revert d. induction ps as [|[k vs] rest IH]; intros d Hd j; simpl in *.
  - apply list_elem_of_singleton in Hd as ->. rewrite lookup_empty.
    split; [by intros [? ?] | by intros ?%elem_of_nil].
  - apply list_elem_of_bind in Hd as (v & Hd & Hv).
    apply list_elem_of_fmap in Hd as (d' & -> & Hd').
    rewrite elem_of_cons. destruct (decide (k = j)) as [<-|Hne].
    + rewrite lookup_insert_eq. split; [by left | by eexists].
    + rewrite lookup_insert_ne by done. rewrite (IH d' Hd' j).
      split; [by right | by intros [?|?]].
Qed.

Lemma combinations_length ps :
  length (combinations ps) = foldr (λ p n, length p.2 * n)%nat 1%nat ps.
Proof.
  induction ps as [|[k vs] rest IH]; [done|].
  change (combinations ((k, vs) :: rest))
    with (vs ≫= λ v, (λ d, <[k := v]> d) <$> combinations rest).
  simpl foldr. rewrite <- IH. clear IH.
  induction vs as [|v vs IHv]; [done|].
  rewrite bind_cons, length_app, length_fmap, IHv. done.
Qed.

Lemma combinations_elem ps d :
  NoDup ps.*1 →
  d ∈ combinations ps
  ↔ (∀ k, is_Some (d !! k) → k ∈ ps.*1)
    ∧ ∀ k vs, (k, vs) ∈ ps → ∃ v, v ∈ vs ∧ d !! k = Some v.
Proof.
  revert d. induction ps as [|[k vs] rest IH]; intros d Hnd; simpl in *.
  - rewrite list_elem_of_singleton. split.
    + intros ->. split; [intros j [x Hx]; by rewrite lookup_empty in Hx|].
      by intros j vs ?%elem_of_nil.
    + intros [Hdom _]. apply map_eq. intros j. rewrite lookup_empty.
      destruct (d !! j) eqn:E; [|done].
      exfalso. apply (elem_of_nil j). apply Hdom. by eexists.
  - apply NoDup_cons in Hnd as [Hk Hnd]. split.
    + intros Hd. apply list_elem_of_bind in Hd as (v & Hd & Hv).
      apply list_elem_of_fmap in Hd as (d' & -> & Hd').
      apply (IH d' Hnd) in Hd' as [Hdom Hval]. split.
      * intros j. destruct (decide (k = j)) as [<-|Hne]; [by left|].
        rewrite lookup_insert_ne by done. right. by apply Hdom.
      * intros j ws [[= -> ->]|Hin]%elem_of_cons.
        -- exists v. by rewrite lookup_insert_eq.
        -- destruct (Hval j ws Hin) as (w & Hw & E). exists w. split; [done|].
           rewrite lookup_insert_ne; [done|].
           intros <-. apply Hk. apply list_elem_of_fmap. by exists (k, ws).
    + intros [Hdom Hval].
      destruct (Hval k vs) as (v & Hv & E); [by left|].
      apply list_elem_of_bind. exists v. split; [|done].
      apply list_elem_of_fmap. exists (delete k d). split.
      * by rewrite insert_delete_id.
      * apply (IH _ Hnd). split.
        -- intros j [x Hx]. apply lookup_delete_Some in Hx as [Hne Hx].
           assert (j ∈ k :: rest.*1) as [?|?]%elem_of_cons
             by (apply Hdom; by eexists); [congruence | done].
        -- intros j ws Hin. destruct (Hval j ws) as (w & Hw & Ej); [by right|].
           exists w. split; [done|]. rewrite lookup_delete_ne; [done|].
           intros <-. apply Hk. apply list_elem_of_fmap. by exists (k, ws).
Qed.

(** A key the dict holds is found with its list. *)
Lemma dict_get_here (all_params : list (string * list V)) k vs :
  NoDup all_params.*1 → (k, vs) ∈ all_params → dict_get all_params k = Some vs.
Proof.
  intros Hnd Hin. induction all_params as [|[k' vs'] l IH]; simpl.
  - by apply elem_of_nil in Hin.
  - apply NoDup_cons in Hnd as [Hk Hnd]. case_decide as E.
    + subst k'. apply elem_of_cons in Hin as [[= <-]|Hin]; [done|].
      destruct Hk. apply list_elem_of_fmap. by exists (k, vs).
    + apply elem_of_cons in Hin as [[= <- <-]|Hin]; [done | by apply IH].
Qed.

(** The generator on the keys of [ps]: it yields, for every combination
    over [ps], the shared dict overwritten by it, and leaves every other
    key of the shared dict alone. *)
Lemma param_combinations_from_spec all_params ps :
  NoDup all_params.*1 → ps ⊆ all_params → NoDup ps.*1 → ps ≠ [] →
  ∀ g, ∃ cur',
    param_combinations_from all_params ps.*1 g
    = (Ok tt, {| cur_params := cur';
                 yielded := yielded g ++ ((λ d, d ∪ cur_params g) <$> combinations ps) |})
    ∧ ∀ j, j ∉ ps.*1 → cur' !! j = cur_params g !! j.
Proof.
  intros Hall. induction ps as [|[k vs] rest IH]; intros Hsub Hnd Hne g; [done|].
  change (NoDup (k :: rest.*1)) in Hnd. apply NoDup_cons in Hnd as [Hk Hnd].
  assert (dict_get all_params k = Some vs) as Hget.
  { apply dict_get_here; [done|]. apply Hsub. by left. }
  assert (rest ⊆ all_params) as Hsub' by (intros p Hp; apply Hsub; by right).
  change (param_combinations_from all_params ((k, vs) :: rest).*1)
    with (let* values := match dict_get all_params k with
                         | Some values => ret values
                         | None => raise KeyError
                         end in
          for_each values (λ cur_value,
            modify (set_param k cur_value) ;;
            if bool_decide (length (k :: rest.*1) = 1%nat) then modify yield_copy
            else param_combinations_from all_params rest.*1) : M generator unit).
  rewrite Hget. rewrite (bind_run (ret vs) _ g vs g eq_refl).
  (* the loop over the values of [k] *)
  assert (∀ vs' g', (∀ j, j ∉ ((k, vs) :: rest).*1 → cur_params g' !! j = cur_params g !! j) →
    ∃ cur',
      for_each vs' (λ cur_value,
        modify (set_param k cur_value) ;;
        if bool_decide (length (k :: rest.*1) = 1%nat) then modify yield_copy
        else param_combinations_from all_params rest.*1) g'
      = (Ok tt, {| cur_params := cur';
                   yielded := yielded g'
                     ++ ((λ d, d ∪ cur_params g)
                         <$> (vs' ≫= λ v, (λ d, <[k := v]> d) <$> combinations rest)) |})
      ∧ ∀ j, j ∉ ((k, vs) :: rest).*1 → cur' !! j = cur_params g !! j) as Hloop.
  { induction vs' as [|v vs' IHv]; intros g' Hout.
    - exists (cur_params g'). simpl. rewrite app_nil_r. by destruct g'.
    - match goal with |- ∃ _, for_each (v :: vs') ?b g' = _ ∧ _ =>
        change (for_each (v :: vs') b) with (b v ;; for_each vs' b) end.
      cbv beta.
      assert (∃ g1, (modify (set_param k v) ;;
                     if bool_decide (length (k :: rest.*1) = 1%nat) then modify yield_copy
                     else param_combinations_from all_params rest.*1) g'
                    = (Ok tt, g1)
                    ∧ yielded g1 = yielded g'
                        ++ ((λ d, d ∪ cur_params g) <$> ((λ d, <[k := v]> d) <$> combinations rest))
                    ∧ ∀ j, j ∉ ((k, vs) :: rest).*1 → cur_params g1 !! j = cur_params g !! j)
        as (g1 & E1 & Hy1 & Hout1).
      { rewrite (bind_run (modify (set_param k v)) _ g' tt (set_param k v g') eq_refl).
        destruct (decide (rest = [])) as [->|Hrest].
        - (* terminal *)
          simpl. eexists. split; [reflexivity|]. simpl. split.
          + f_equal. f_equal. apply map_eq. intros j.
            destruct (decide (k = j)) as [<-|Hj].
            * rewrite lookup_union_l', !lookup_insert_eq; [done | by rewrite lookup_insert_eq].
            * rewrite lookup_union_r by (by rewrite lookup_insert_ne, lookup_empty).
              rewrite lookup_insert_ne by done. apply Hout.
              simpl. by intros [?|?%elem_of_nil]%elem_of_cons.
          + intros j Hj. rewrite lookup_insert_ne; [by apply Hout|].
            intros <-. apply Hj. by left.
        - (* recursive call *)
          rewrite bool_decide_false by (by destruct rest).
          destruct (IH Hsub' Hnd Hrest (set_param k v g')) as (cur1 & E & Hcur1).
          rewrite E. eexists. split; [reflexivity|]. simpl. split.
          + f_equal. rewrite <- list_fmap_compose.
            apply Forall_fmap_ext_1, Forall_forall. intros d Hd. simpl.
            pose proof (combinations_dom _ _ Hd) as Hdom.
            apply map_eq. intros j.
            destruct (decide (k = j)) as [<-|Hj].
            * assert (d !! k = None) as Hdk.
              { destruct (d !! k) eqn:Ed; [|done]. destruct Hk. apply Hdom. by eexists. }
              rewrite lookup_union_r by done. rewrite lookup_insert_eq.
              by rewrite lookup_union_l', lookup_insert_eq by (by rewrite lookup_insert_eq).
            * destruct (d !! j) as [x|] eqn:Ed.
              -- rewrite (lookup_union_Some_l _ _ _ _ Ed).
                 symmetry. apply lookup_union_Some_l. by rewrite lookup_insert_ne.
              -- rewrite !lookup_union_r; [|by rewrite lookup_insert_ne|done].
                 rewrite lookup_insert_ne by done. apply Hout.
                 intros [?|Hin]%elem_of_cons; [done|].
                 apply Hdom in Hin as [? ?]. congruence.
          + intros j Hj. rewrite Hcur1.
            * simpl. rewrite lookup_insert_ne; [by apply Hout|].
              intros <-. apply Hj. by left.
            * intros Hin. apply Hj. by right. }
      rewrite (bind_run _ _ _ _ _ E1). cbv beta.
      destruct (IHv g1 Hout1) as (cur' & E & Hcur'). exists cur'.
      rewrite E. split; [|done]. f_equal. f_equal.
      rewrite Hy1. simpl. by rewrite fmap_app, app_assoc. }
  destruct (Hloop vs g (λ _ _, eq_refl)) as (cur' & E & Hcur').
  exists cur'. by rewrite E.
Qed.

(** X1.  On a dict that is not empty, [param_combinations] ends without an
    error and has yielded as many dicts as the product of the lengths of
    the value lists (none, then, if one of the lists is empty).  On the
    empty dict it yields nothing and ends in the IndexError of
    [remaining_keys[0]]. *)
Theorem param_combinations_count (all_params : list (string * list V)) :
  NoDup all_params.*1 →
  (all_params ≠ [] →
   ∃ g, param_combinations all_params None None = (Ok tt, g)
        ∧ length (yielded g) = foldr (λ p n, length p.2 * n)%nat 1%nat all_params)
  ∧ (all_params = [] →
     param_combinations all_params None None
     = (Raise IndexError, {| cur_params := ∅; yielded := [] |})).
Proof.
  intros Hnd. split.
  - intros Hne.
    destruct (param_combinations_from_spec all_params all_params Hnd
                (λ _ H, H) Hnd Hne {| cur_params := ∅; yielded := [] |})
      as (cur' & E & _).
    eexists. split; [exact E|]. simpl.
    by rewrite length_fmap, combinations_length.
  - by intros ->.
Qed.

(** X2.  What [param_combinations] yields on a dict that is not empty: the
    dicts that give to every key of [all_params] one of the values of its
    list and hold no other key, and all of them. *)
Theorem param_combinations_complete (all_params : list (string * list V)) d :
  NoDup all_params.*1 → all_params ≠ [] →
  d ∈ yielded (snd (param_combinations all_params None None))
  ↔ (∀ k, is_Some (d !! k) → k ∈ all_params.*1)
    ∧ ∀ k vs, (k, vs) ∈ all_params → ∃ v, v ∈ vs ∧ d !! k = Some v.
Proof.
  intros Hnd Hne.
  destruct (param_combinations_from_spec all_params all_params Hnd
              (λ _ H, H) Hnd Hne {| cur_params := ∅; yielded := [] |})
    as (cur' & E & _).
  unfold param_combinations. rewrite E. simpl.
  rewrite <- (combinations_elem all_params d Hnd).
  assert ((λ d0 : gmap string V, d0 ∪ ∅) <$> combinations all_params
          = combinations all_params) as ->; [|done].
  rewrite <- (list_fmap_id (combinations all_params)) at 2.
  apply Forall_fmap_ext_1, Forall_forall. intros d0 _. apply (right_id_L ∅ (∪)).
Qed.

End WithValues.

Lemma docstring_params_NoDup : NoDup docstring_params.*1.
Proof. apply (bool_decide_unpack _). vm_compute. exact I. Qed.

Lemma param_combinations_count_docstring :
  NoDup docstring_params.*1
  ∧ docstring_params ≠ []
  ∧ ∃ g, param_combinations docstring_params None None = (Ok tt, g)
         ∧ length (yielded g)
           = foldr (λ p n, length p.2 * n)%nat 1%nat docstring_params.
Proof.
  split; [exact docstring_params_NoDup | split; [discriminate|]].
  apply (proj1 (param_combinations_count docstring_params docstring_params_NoDup)).
  discriminate.
Defined.

Lemma param_combinations_complete_docstring :
  let d : gmap string pyvalue := {[ "val" := PyInt 2; "opt" := PyBool true ]} in
  NoDup docstring_params.*1
  ∧ docstring_params ≠ []
  ∧ (d ∈ yielded (snd (param_combinations docstring_params None None))
     ↔ (∀ k, is_Some (d !! k) → k ∈ docstring_params.*1)
       ∧ ∀ k vs, (k, vs) ∈ docstring_params → ∃ v, v ∈ vs ∧ d !! k = Some v).
Proof.
  intros d. split; [exact docstring_params_NoDup | split; [discriminate|]].
  apply (param_combinations_complete docstring_params d docstring_params_NoDup).
  discriminate.
Defined.

End ParamFacts.

(** ** [SolverLookup] *)
Module LookupFacts.
Import Utils UtilsSpec.

Lemma split_colon_app b s :
  split_colon b = None → split_colon (b +:+ ":" +:+ s) = Some (b, s).
Proof.
  induction b as [|c b IH]; [done|]. simpl.
  case_bool_decide; [done|].
  destruct (split_colon b) as [[? ?]|]; [done|]. intros _. by rewrite IH.
Qed.

Lemma split_colon_join s a b :
  split_colon s = Some (a, b) → s = a +:+ ":" +:+ b ∧ split_colon a = None.
Proof.
  revert a. induction s as [|c s IH]; intros a; [done|]. simpl.
  case_bool_decide as Hc.
  - intros [= <- <-]. injection Hc as ->. done.
  - destruct (split_colon s) as [[a' b']|]; [|done].
    intros [= <- <-]. destruct (IH a' eq_refl) as [-> Ha]. split; [done|].
    simpl. rewrite bool_decide_false by done. by rewrite Ha.
Qed.

(** The names [SolverLookup.supported()] returns. *)
Lemma supported_names sys name :
  name ∈ supported sys →
  ∃ basename CPM_slv,
    (basename, CPM_slv) ∈ base_solvers
    ∧ cls_supported sys CPM_slv = true
    ∧ (name = basename
       ∨ ∃ subnames subn, cls_solvernames sys CPM_slv = Some subnames
                          ∧ subn ∈ subnames
                          ∧ name = basename +:+ ":" +:+ subn).
Proof.
  unfold supported.
  assert (∀ l names,
    name ∈ foldl (λ names '(basename, CPM_slv),
                    if cls_supported sys CPM_slv then
                      let names := names ++ [basename] in
                      match cls_solvernames sys CPM_slv with
                      | Some subnames =>
                          names ++ ((λ subn, basename +:+ ":" +:+ subn) <$> subnames)
                      | None => names
                      end
                    else names) names l →
    name ∈ names
    ∨ ∃ basename CPM_slv,
        (basename, CPM_slv) ∈ l
        ∧ cls_supported sys CPM_slv = true
        ∧ (name = basename
           ∨ ∃ subnames subn, cls_solvernames sys CPM_slv = Some subnames
                              ∧ subn ∈ subnames
                              ∧ name = basename +:+ ":" +:+ subn)) as H.
  { induction l as [|[b cls] l IH]; intros names Hin; [by left|].
    simpl in Hin. apply IH in Hin as [Hin|(b' & cls' & Hl & Hs & Hn)].
    - destruct (cls_supported sys cls) eqn:Es; [|by left].
      destruct (cls_solvernames sys cls) as [subs|] eqn:En.
      + apply elem_of_app in Hin as [Hin|Hin].
        * apply elem_of_app in Hin as [?|Hin]; [by left|].
          apply list_elem_of_singleton in Hin as ->.
          right. exists b, cls. split; [by left | split; [done | by left]].
        * apply list_elem_of_fmap in Hin as (subn & -> & Hsub).
          right. exists b, cls. split; [by left | split; [done|]].
          right. by exists subs, subn.
      + apply elem_of_app in Hin as [?|Hin]; [by left|].
          apply list_elem_of_singleton in Hin as ->.
        right. exists b, cls. split; [by left | split; [done | by left]].
    - right. exists b', cls'. split; [by right | done]. }
  intros Hin. apply H in Hin as [?%elem_of_nil|?]; done.
Qed.

Lemma split_at_first_colon basename sub :
  split_colon basename = None →
  lookup (Some (basename +:+ ":" +:+ sub)) = lookup (Some basename)
  ∧ get (Some (basename +:+ ":" +:+ sub))
    = match lookup (Some basename) with
      | Ok CPM_slv => Ok (CPM_slv, Some sub)
      | Raise e => Raise e
      end
  ∧ get (Some basename)
    = match lookup (Some basename) with
      | Ok CPM_slv => Ok (CPM_slv, None)
      | Raise e => Raise e
      end.
Proof.
  intros Hb.
  assert (lookup (Some (basename +:+ ":" +:+ sub)) = lookup (Some basename)) as E.
  { unfold lookup. by rewrite (split_colon_app _ sub Hb), Hb. }
  split; [done|]. unfold get. rewrite E.
  destruct (lookup (Some basename)); [|done].
  by rewrite (split_colon_app _ sub Hb), Hb.
Qed.

(** X3.  Only the first colon of a name splits it: for a base name without
    a colon, [lookup] of [base:sub] is [lookup] of [base], and [get] hands
    [sub], colons and all, to the constructor as its [subsolver]; without
    a colon the [subsolver] is [None]. *)
Theorem get_splits_at_first_colon basename sub :
  split_colon basename = None →
  lookup (Some (basename +:+ ":" +:+ sub)) = lookup (Some basename)
  ∧ get (Some (basename +:+ ":" +:+ sub))
    = match lookup (Some basename) with
      | Ok CPM_slv => Ok (CPM_slv, Some sub)
      | Raise e => Raise e
      end
  ∧ get (Some basename)
    = match lookup (Some basename) with
      | Ok CPM_slv => Ok (CPM_slv, None)
      | Raise e => Raise e
      end.
Proof. apply split_at_first_colon. Qed.

Lemma get_splits_at_first_colon_sample :
  split_colon "minizinc" = None
  ∧ lookup (Some ("minizinc" +:+ ":" +:+ "chuffed:v1")) = lookup (Some "minizinc")
  ∧ get (Some ("minizinc" +:+ ":" +:+ "chuffed:v1"))
    = match lookup (Some "minizinc") with
      | Ok CPM_slv => Ok (CPM_slv, Some "chuffed:v1")
      | Raise e => Raise e
      end
  ∧ get (Some "minizinc")
    = match lookup (Some "minizinc") with
      | Ok CPM_slv => Ok (CPM_slv, None)
      | Raise e => Raise e
      end.
Proof.
  split; [reflexivity|].
  apply (get_splits_at_first_colon "minizinc" "chuffed:v1"). reflexivity.
Defined.

(** X4.  Every name [SolverLookup.supported()] returns is a name
    [SolverLookup.get] accepts: it finds a class that is supported, and the
    subsolver it hands to the constructor is, for a name with a subsolver,
    one of the names that class gave. *)
Theorem supported_names_are_found sys name :
  name ∈ supported sys →
  ∃ CPM_slv subname,
    get (Some name) = Ok (CPM_slv, subname)
    ∧ lookup (Some name) = Ok CPM_slv
    ∧ cls_supported sys CPM_slv = true
    ∧ match subname with
      | None => True
      | Some subn => ∃ subnames, cls_solvernames sys CPM_slv = Some subnames
                                 ∧ subn ∈ subnames
      end.
Proof.
  intros Hin.
  destruct (supported_names sys name Hin) as (b & cls & Hb & Hs & Hn).
  assert (split_colon b = None ∧ lookup (Some b) = Ok cls) as [Hcolon Hl].
  { unfold base_solvers in Hb.
    repeat (apply elem_of_cons in Hb as [[= -> ->]|Hb]; [by split|]).
    by apply elem_of_nil in Hb. }
  destruct Hn as [->|(subs & subn & En & Hsub & ->)].
  - exists cls, None.
    destruct (split_at_first_colon b "" Hcolon) as (_ & _ & Hg).
    rewrite Hl in Hg. by rewrite Hg.
  - exists cls, (Some subn).
    destruct (split_at_first_colon b subn Hcolon) as (Hl' & Hg & _).
    rewrite Hl in Hg. rewrite Hl', Hg. split; [done | split; [done | split; [done|]]].
    by exists subs.
Qed.

Lemma supported_names_are_found_sample :
  supported two_solvers = ["ortools"; "minizinc"; "minizinc:gecode"; "minizinc:chuffed"]
  ∧ ∃ CPM_slv subname,
      get (Some "minizinc:chuffed") = Ok (CPM_slv, subname)
      ∧ lookup (Some "minizinc:chuffed") = Ok CPM_slv
      ∧ cls_supported two_solvers CPM_slv = true
      ∧ match subname with
        | None => True
        | Some subn => ∃ subnames, cls_solvernames two_solvers CPM_slv = Some subnames
                                   ∧ subn ∈ subnames
        end.
Proof.
  split; [reflexivity|].
  apply (supported_names_are_found two_solvers "minizinc:chuffed").
  apply (bool_decide_unpack _). vm_compute. exact I.
Defined.

End LookupFacts.

(** ** The OR-Tools [solve] and [solveAll] *)
Module OrtSolveFacts.
Import Ortools OrtFacts OrtLog OrtStatus OrtCore OrtReturns.

(** X5.  An OR-Tools [solve] without assumptions returns, when the
    native side takes what it is given (every user variable, every keyword
    argument as a parameter), the time limit is absent or positive, the
    callback, if any, displays nothing, the native status is one of
    FEASIBLE, OPTIMAL, INFEASIBLE and UNKNOWN and the native solution gives
    every variable a value.  It has then called the native [Solve] exactly
    once, the status is the native one classified (a native OPTIMAL without
    an objective is FEASIBLE, unless all solutions were asked for), and it
    returns whether that status is FEASIBLE or OPTIMAL. *)
Theorem ortools_solve_once args resp st :
  assumptions args = None →
  (∀ v, v ∈ user_vars (base st) → accepts v = true) →
  (∀ kw val, (kw, val) ∈ kwargs args → resp_setattr resp kw val = None) →
  (∀ t, time_limit args = Some t → Qle_bool t 0 = false) →
  (∀ c, solution_callback args = Some c → _cpm_vars c = FixedVars []) →
  resp_status resp ∈ [ORT_FEASIBLE; ORT_OPTIMAL; ORT_INFEASIBLE; ORT_UNKNOWN] →
  (∀ i, is_Some (resp_solution resp i)) →
  ∃ b st',
    solve args resp st = (Ok b, st')
    ∧ List.filter is_Solve (ort_log st')
      = List.filter is_Solve (ort_log st)
        ++ [Solve (bool_decide (is_Some (solution_callback args)))]
    ∧ exitstatus (cpm_status (base st'))
      = classified (resp_status resp) (ort_has_objective st)
          (default false (truthy <$> kwargs_get "enumerate_all_solutions" (kwargs args)))
    ∧ b = _solve_return (cpm_status (base st')).
Proof.
  intros Hassum Hknown Hparams Htl Hcb Hstatus Hsol.
  destruct (solve_returns args resp st Hknown Hparams Htl Hassum Hcb Hstatus Hsol)
    as (b & st' & E).
  exists b, st'. split; [done|].
  split; [by eapply solve_solves_once|].
  destruct (solve_classifies _ _ _ _ _ E) as (_ & Hc & _).
  destruct (ortools_solve_values _ _ _ _ _ E) as [Hb _]. done.
Qed.

Lemma ortools_solve_once_sample :
  let resp := Scenarios.ort_resp ORT_OPTIMAL [] in
  assumptions Scenarios.ort_plain = None
  ∧ ∃ b st',
      solve Scenarios.ort_plain resp Scenarios.ort_with_vars = (Ok b, st')
      ∧ List.filter is_Solve (ort_log st')
        = List.filter is_Solve (ort_log Scenarios.ort_with_vars) ++ [Solve false]
      ∧ exitstatus (cpm_status (base st')) = Some FEASIBLE
      ∧ b = _solve_return (cpm_status (base st')).
Proof.
  intros resp. split; [reflexivity|].
  apply (ortools_solve_once Scenarios.ort_plain resp Scenarios.ort_with_vars);
    try reflexivity.
  - exact ort_with_vars_accepted.
  - intros t Ht. discriminate.
  - intros c Hc. discriminate.
  - right; left.
  - intros i. by eexists.
Defined.

Section WithLib.
Context (lib : CpmLib).

(** X6.  The number [solveAll] returns, with [N] the number of solutions
    the native search has when nothing stops it: a solution limit between
    1 and [N] is the number returned; with no limit, a limit of 0, a
    negative limit or one above [N] the search is never stopped and the
    number is [N]. *)
Theorem solveAll_solution_limit display tl sl assum kwargs redirected resp st n st' :
  solveAll lib display tl sl assum kwargs redirected resp st = (Ok n, st') →
  n = match sl with
      | Some k =>
          if bool_decide (0 < k ≤ Z.of_nat (length (resp_enumerated resp)))
          then Z.to_nat k else length (resp_enumerated resp)
      | None => length (resp_enumerated resp)
      end.
Proof.
  intros H. destruct (solveAll_counts lib _ _ _ _ _ _ _ _ _ _ H) as (_ & _ & _ & ->).
  rewrite reported_closed. done.
Qed.

(** X7.  After a [solveAll] that returned, the status is the native one
    classified as for a search for all solutions: a native OPTIMAL, the
    search space exhausted, is OPTIMAL, where [solve] without an objective
    says FEASIBLE. *)
Theorem solveAll_status display tl sl assum kwargs redirected resp st n st' :
  solveAll lib display tl sl assum kwargs redirected resp st = (Ok n, st') →
  exitstatus (cpm_status (base st'))
  = match resp_status resp with
    | ORT_FEASIBLE => Some FEASIBLE
    | ORT_OPTIMAL => Some OPTIMAL
    | ORT_INFEASIBLE => Some UNSATISFIABLE
    | ORT_UNKNOWN => Some UNKNOWN
    | _ => None
    end
  ∧ is_Some (exitstatus (cpm_status (base st'))).
Proof.
  intros H. unfold solveAll in H.
  apply bind_Ok in H as (has_obj & s1 & [= <- <-] & H).
  destruct (ort_has_objective st) eqn:Eobj; [discriminate|].
  apply bind_Ok in H as ([] & s2 & Hkw & H).
  case_bool_decide; [discriminate|]. injection Hkw as <-.
  apply bind_Ok in H as (b & s3 & Hsolve & H).
  apply bind_Ok in H as (cb' & s4 & [= <- <-] & H).
  destruct (solve_classifies _ _ _ _ _ Hsolve) as (_ & Hc & Hs).
  assert (st' = s3) as -> by (destruct (callback_obj s3); by injection H).
  split; [|done]. rewrite Hc. simpl. rewrite Eobj.
  by destruct (resp_status resp).
Qed.

End WithLib.

Lemma solveAll_on_three_solutions sl :
  ∃ st', solveAll Samples.lib0 DisplayNone None sl None [] false
           (Scenarios.ort_resp ORT_OPTIMAL [λ _, Some 0; λ _, Some 1; λ _, Some 2])
           Scenarios.ort_with_vars
         = (Ok (reported sl 0 [λ _, Some 0; λ _, Some 1; λ _, Some 2]), st').
Proof.
  apply (solveAll_returns Samples.lib0 None sl [] false
           (Scenarios.ort_resp ORT_OPTIMAL [λ _, Some 0; λ _, Some 1; λ _, Some 2])
           Scenarios.ort_with_vars); try reflexivity.
  - exact ort_with_vars_accepted.
  - intros t Ht. discriminate.
  - right; left.
  - intros i. by eexists.
Defined.

(** [solveAll(solution_limit=0)], as the all-interval example calls it, on
    three solutions: all three are counted. *)
Lemma solveAll_solution_limit_sample :
  ∃ n st',
    solveAll Samples.lib0 DisplayNone None (Some 0) None [] false
      (Scenarios.ort_resp ORT_OPTIMAL [λ _, Some 0; λ _, Some 1; λ _, Some 2])
      Scenarios.ort_with_vars
    = (Ok n, st')
    ∧ n = 3%nat.
Proof.
  destruct (solveAll_on_three_solutions (Some 0)) as (st' & E).
  eexists _, st'. split; [exact E|].
  exact (solveAll_solution_limit _ _ _ _ _ _ _ _ _ _ _ E).
Defined.

Lemma solveAll_status_sample :
  ∃ n st',
    solveAll Samples.lib0 DisplayNone None None None [] false
      (Scenarios.ort_resp ORT_OPTIMAL [λ _, Some 0; λ _, Some 1; λ _, Some 2])
      Scenarios.ort_with_vars
    = (Ok n, st')
    ∧ exitstatus (cpm_status (base st')) = Some OPTIMAL
    ∧ is_Some (exitstatus (cpm_status (base st'))).
Proof.
  destruct (solveAll_on_three_solutions None) as (st' & E).
  eexists _, st'. split; [exact E|].
  exact (solveAll_status _ _ _ _ _ _ _ _ _ _ _ E).
Defined.

End OrtSolveFacts.

(** ** What [solve] calls on the native solver *)
Module OrtCallsFacts.
Import Ortools OrtFacts OrtLog OrtStatus OrtCore OrtReturns.

#[local] Abbreviation solver_calls := (λ st : State, List.filter on_solver (ort_log st)).

Lemma set_parameters_log answer (kwargs : list (string * pyvalue)) : ∀ st st',
  for_each kwargs (λ '(kw, val), setattr_parameter answer kw val) st = (Ok tt, st') →
  ort_log st' = ort_log st ++ ((λ '(kw, val), SetParameter kw val) <$> kwargs).
Proof.
  induction kwargs as [|[k v] kwargs IH]; intros st st' H; simpl in H.
  - injection H as <-. by rewrite app_nil_r.
  - apply bind_Ok in H as ([] & s1 & H1 & H).
    unfold setattr_parameter in H1. destruct (answer k v); [discriminate|].
    injection H1 as <-.
    apply IH in H. rewrite H. simpl. by rewrite <- app_assoc.
Qed.

Lemma filter_all {A} (P : A → bool) (l : list A) :
  Forall (λ x, P x = true) l → List.filter P l = l.
Proof. induction 1 as [|x l Hx _ IH]; [done|]. simpl. by rewrite Hx, IH. Qed.

(** X8.  A [solve] without a callback that returns has called, on the
    native solver object, exactly this, in this order: the time limit if
    one is given, [keep_all_feasible_solutions_in_presolve] if there are
    assumptions, one parameter for each keyword argument in the order
    given, the log callback if [log_search_progress] is among them and the
    output is redirected, and then [Solve], once. *)
Theorem solve_solver_calls args resp st b st' :
  solve args resp st = (Ok b, st') →
  solution_callback args = None →
  List.filter on_solver (ort_log st')
  = List.filter on_solver (ort_log st)
    ++ match time_limit args with Some t => [SetMaxTime t] | None => [] end
    ++ (if bool_decide (is_Some (assumptions args)) then [KeepAllFeasible] else [])
    ++ ((λ '(kw, val), SetParameter kw val) <$> kwargs args)
    ++ (if bool_decide (is_Some (kwargs_get "log_search_progress" (kwargs args)))
           && stdout_redirected args
        then [SetLogCallback] else [])
    ++ [Solve false].
Proof.
  intros H Hcb. unfold solve in H.
  apply bind_Ok in H as (uv & s1 & [= <- <-] & H).
  apply bind_Ok in H as (vs & s2 & H2 & H).
  apply bind_Ok in H as ([] & s3 & H3 & H).
  apply bind_Ok in H as ([] & s4 & H4 & H).
  apply bind_Ok in H as ([] & s5 & H5 & H).
  apply bind_Ok in H as ([] & s6 & H6 & H).
  apply bind_Ok in H as (status & s7 & H7 & H).
  match type of H with ?m ?s = _ =>
    assert (keeps eq solver_calls m) as K by (fold (read_solution resp); ort_keeps) end.
  specialize (K s7). rewrite H in K. simpl in K. rewrite <- K. clear K H.
  (* the native Solve *)
  rewrite Hcb in H7. injection H7 as _ <-. simpl.
  rewrite List.filter_app. simpl.
  (* the log callback *)
  assert (solver_calls s6
          = solver_calls s5
            ++ (if bool_decide (is_Some (kwargs_get "log_search_progress" (kwargs args)))
                   && stdout_redirected args
                then [SetLogCallback] else [])) as ->.
  { destruct (_ && _); injection H6 as <-; simpl;
      [by rewrite List.filter_app | by rewrite app_nil_r]. }
  (* the keyword arguments *)
  assert (solver_calls s5
          = solver_calls s4 ++ ((λ '(kw, val), SetParameter kw val) <$> kwargs args)) as ->.
  { apply set_parameters_log in H5. simpl. rewrite H5, List.filter_app. f_equal.
    apply filter_all, Forall_fmap, Forall_forall. by intros [kw val] _. }
  (* the assumptions *)
  assert (solver_calls s4
          = solver_calls s3
            ++ (if bool_decide (is_Some (assumptions args)) then [KeepAllFeasible] else []))
    as ->.
  { destruct (assumptions args) as [assum|]; simpl.
    - apply bind_Ok in H4 as (ort_assum_vars & t1 & Hv & H4).
      apply bind_Ok in H4 as ([] & t2 & Hd & H4).
      apply bind_Ok in H4 as ([] & t3 & [= <-] & H4).
      apply bind_Ok in H4 as ([] & t4 & [= <-] & [= <-]). simpl.
      rewrite !List.filter_app. simpl. rewrite !app_nil_r.
      frame_of solver_calls Hv. frame_of solver_calls Hd. simpl in *. congruence.
    - injection H4 as <-. by rewrite app_nil_r. }
  (* the time limit *)
  assert (solver_calls s3
          = solver_calls s2
            ++ match time_limit args with Some t => [SetMaxTime t] | None => [] end) as ->.
  { destruct (time_limit args) as [t|].
    - destruct (Qle_bool t 0); [discriminate|]. injection H3 as <-. simpl.
      by rewrite List.filter_app.
    - injection H3 as <-. by rewrite app_nil_r. }
  frame_of solver_calls H2. simpl in *. rewrite <- K.
  by rewrite <- !app_assoc.
Qed.

(** [solve(time_limit=5, num_search_workers=8, log_search_progress=True)]
    on an adapter with two user variables. *)
Lemma solve_solver_calls_sample :
  let args := {| time_limit := Some (5 # 1)%Q; assumptions := None;
                 solution_callback := None;
                 kwargs := [("num_search_workers", PyInt 8);
                            ("log_search_progress", PyBool true)];
                 stdout_redirected := false |} in
  let resp := Scenarios.ort_resp ORT_OPTIMAL [] in
  let st' := exec (solve args resp) Scenarios.ort_with_vars in
  solve args resp Scenarios.ort_with_vars = (Ok true, st')
  ∧ solution_callback args = None
  ∧ List.filter on_solver (ort_log st')
    = [SetMaxTime (5 # 1)%Q; SetParameter "num_search_workers" (PyInt 8);
       SetParameter "log_search_progress" (PyBool true); Solve false].
Proof.
  intros args resp st'.
  assert (solve args resp Scenarios.ort_with_vars = (Ok true, st')) as H
    by (refine (run_eq (solve args resp) Scenarios.ort_with_vars (Ok true) _);
        vm_compute; reflexivity).
  split; [exact H | split; [reflexivity|]].
  exact (solve_solver_calls args resp Scenarios.ort_with_vars true st' H eq_refl).
Defined.

End OrtCallsFacts.

(** ** An objective, and a native answer the adapter cannot read *)
Module OrtObjectiveFacts.
Import Ortools OrtFacts OrtLog OrtStatus OrtCore OrtReturns.

#[local] Abbreviation stays_set := (λ a b : bool, a = true → b = true).

#[local] Instance stays_set_preorder : PreOrder stays_set.
Proof. split; [by intros ? | intros ? ? ? H1 H2 H; by apply H2, H1]. Qed.

Section WithLib.
Context (lib : CpmLib).

Lemma add_has_objective fuel :
  (∀ e, keeps eq ort_has_objective (add lib fuel e))
  ∧ (∀ e r, keeps eq ort_has_objective (_post_constraint lib fuel e r)).
Proof.
  induction fuel as [|fuel [IHadd IHpost]].
  - split; intros; simpl; by keeps_step.
  - split.
    + intros e. simpl. unfold transform. ort_keeps.
    + intros e r. simpl.
      unfold _post_constraint_body, post_numexpr_equality.
      repeat first
        [ progress eauto with keeps
        | keeps_step
        | lazymatch goal with
          | |- keeps _ _ (solver_vars _) =>
              apply ort_keeps_solver_vars; [typeclasses eauto | intros ?]
          | |- keeps _ _ (pow_chain _ _ _ _ _) =>
              apply OrtAdd.keeps_pow_chain; [typeclasses eauto | intros ? | intros ? ?]
          end
        | progress autounfold with adapter ].
Qed.

Lemma call_has_objective fuel c : keeps stays_set ort_has_objective (ort_call lib fuel c).
Proof.
  destruct c as [e|e minimize]; simpl.
  - intros st Hs. by rewrite <- (proj1 (add_has_objective fuel) e st).
  - unfold objective. destruct (flatten_objective lib e) as [flat_obj flat_cons].
    apply keeps_bind; [apply _ | | intros _; ort_keeps].
    intros st Hs. by rewrite <- (proj1 (add_has_objective fuel) (Lst flat_cons) st).
Qed.

(** X9.  Once [objective] has returned, the native model has an
    objective, and nothing removes it: whatever is added or whichever
    objective is set afterwards, with or without an error, [solveAll]
    raises NotSupportedError and leaves the adapter as it is. *)
Theorem objective_blocks_solveAll fuel expr minimize st st1 fuel' cs
    display tl sl assum kwargs redirected resp :
  objective lib fuel expr minimize st = (Ok tt, st1) →
  solveAll lib display tl sl assum kwargs redirected resp (ort_calls lib fuel' cs st1)
  = (Raise NotSupportedError, ort_calls lib fuel' cs st1).
Proof.
  intros H. apply solveAll_rejects_objective.
  assert (ort_has_objective st1 = true) as Hset.
  { unfold objective in H. destruct (flatten_objective lib expr) as [flat_obj flat_cons].
    do 4 peel H. by injection H as <-. }
  clear H. revert st1 Hset. induction cs as [|c cs IH]; intros st1 Hset; [done|].
  simpl. apply IH. by apply (call_has_objective fuel' c st1).
Qed.

(** X10.  When the native solver answers MODEL_INVALID, or a status the
    adapter does not know, [solve] never returns.  Without assumptions and
    without a callback, and when the native side takes every user variable
    and every keyword argument, so that the native [Solve] is reached, it
    raises Exception, respectively NotImplementedError, after the native
    status and the run time have been recorded: the exit status is left
    unset, and the values of the variables and the objective value are
    those of before the call. *)
Theorem solve_unreadable_status args resp st :
  resp_status resp ∉ [ORT_FEASIBLE; ORT_OPTIMAL; ORT_INFEASIBLE; ORT_UNKNOWN] →
  (∀ b st', solve args resp st ≠ (Ok b, st'))
  ∧ (assumptions args = None → solution_callback args = None →
     (∀ v, v ∈ user_vars (base st) → accepts v = true) →
     (∀ kw val, (kw, val) ∈ kwargs args → resp_setattr resp kw val = None) →
     (∀ t, time_limit args = Some t → Qle_bool t 0 = false) →
     ∃ st',
       solve args resp st
       = (Raise (if decide (resp_status resp = ORT_MODEL_INVALID)
                 then Exception else NotImplementedError), st')
       ∧ ort_status st' = Some (resp_status resp)
       ∧ cpm_status (base st')
         = {| exitstatus := None; runtime := Some (resp_walltime resp) |}
       ∧ _value (base st') = _value (base st)
       ∧ objective_value_ st' = objective_value_ st).
Proof.
  intros Hstatus. split.
  - intros b st' H. apply solve_classifies in H as (_ & Hc & [x Hx]).
    rewrite Hc in Hx.
    destruct (resp_status resp); try discriminate; apply Hstatus;
      repeat first [by left | right].
  - intros Hassum Hcb Hknown Hparams Htl. unfold solve.
    rewrite (bind_run (gets _) _ st _ st eq_refl).
    destruct (solver_vars_ok (elements (user_vars (base st))) st) as (vs & s2 & E2).
    { intros v Hv. apply Hknown. by apply elem_of_elements. }
    rewrite (bind_run _ _ _ _ _ E2).
    assert (∃ s3, match time_limit args with
                  | Some t => if Qle_bool t 0 then raise ValueError else native (SetMaxTime t)
                  | None => ret tt
                  end s2 = (Ok tt, s3)) as (s3 & E3).
    { destruct (time_limit args) as [t|] eqn:Et; [rewrite (Htl t eq_refl)|]; by eexists. }
    rewrite (bind_run _ _ _ _ _ E3). rewrite Hassum.
    rewrite (bind_run (ret tt) _ s3 tt s3 eq_refl).
    destruct (set_parameters_ok (resp_setattr resp) (kwargs args) s3 Hparams) as (s5 & E5).
    rewrite (bind_run _ _ _ _ _ E5).
    assert (∃ s6, (if bool_decide (is_Some (kwargs_get "log_search_progress" (kwargs args)))
                      && stdout_redirected args
                   then native SetLogCallback else ret tt) s5 = (Ok tt, s6)) as (s6 & E6).
    { destruct (_ && _); by eexists. }
    rewrite (bind_run _ _ _ _ _ E6). rewrite Hcb.
    destruct (native_Solve_ok resp None s6) as (s7 & E7); [done|].
    rewrite (bind_run _ _ _ _ _ E7).
    frame_of (λ st : State, (_value (base st), objective_value_ st)) E2.
    frame_of (λ st : State, (_value (base st), objective_value_ st)) E3.
    frame_of (λ st : State, (_value (base st), objective_value_ st)) E5.
    frame_of (λ st : State, (_value (base st), objective_value_ st)) E6.
    frame_of (λ st : State, (_value (base st), objective_value_ st)) E7.
    assert ((_value (base s7), objective_value_ s7) = (_value (base st), objective_value_ st))
      as [= Hval Hobj] by congruence.
    destruct (resp_status resp) eqn:Es;
      try (exfalso; apply Hstatus; solve [repeat first [by left | right]]);
      (eexists; split;
       [unfold bind, modify, has_objective, gets; simpl; reflexivity | simpl; done]).
Qed.

End WithLib.

(** [solve()] on an adapter with two user variables whose native solver
    answers MODEL_INVALID. *)
Lemma solve_unreadable_status_sample :
  let resp := Scenarios.ort_resp ORT_MODEL_INVALID [] in
  (resp_status resp ∉ [ORT_FEASIBLE; ORT_OPTIMAL; ORT_INFEASIBLE; ORT_UNKNOWN])
  ∧ ∃ st',
      solve Scenarios.ort_plain resp Scenarios.ort_with_vars = (Raise Exception, st')
      ∧ ort_status st' = Some ORT_MODEL_INVALID
      ∧ cpm_status (base st') = {| exitstatus := None; runtime := Some 0%Q |}
      ∧ _value (base st') = _value (base Scenarios.ort_with_vars)
      ∧ objective_value_ st' = objective_value_ Scenarios.ort_with_vars.
Proof.
  intros resp.
  assert (resp_status resp ∉ [ORT_FEASIBLE; ORT_OPTIMAL; ORT_INFEASIBLE; ORT_UNKNOWN]) as Hs.
  { intros Hn. repeat (apply elem_of_cons in Hn as [Hn|Hn]; [discriminate|]).
    by apply elem_of_nil in Hn. }
  split; [exact Hs|].
  apply (proj2 (solve_unreadable_status Scenarios.ort_plain resp Scenarios.ort_with_vars Hs));
    try reflexivity.
  - exact ort_with_vars_accepted.
  - intros t Ht. discriminate.
Defined.

(** [minimize(x)] on a fresh adapter, then [s += (x == y)], then
    [solveAll()]. *)
Lemma objective_blocks_solveAll_sample :
  let st1 := Scenarios.ort_minimizing in
  let st2 := ort_calls Samples.lib0 10
               [Add (Comparison "==" (Var Samples.x) (Var Samples.y))] st1 in
  objective Samples.lib0 10 (Var Samples.x) true init = (Ok tt, st1)
  ∧ solveAll Samples.lib0 DisplayNone None None None [] false
      (Scenarios.ort_resp ORT_OPTIMAL []) st2
    = (Raise NotSupportedError, st2).
Proof.
  intros st1 st2.
  assert (objective Samples.lib0 10 (Var Samples.x) true init = (Ok tt, st1)) as H
    by (refine (run_eq (objective Samples.lib0 10 (Var Samples.x) true) init (Ok tt) _);
        vm_compute; reflexivity).
  split; [exact H|].
  exact (objective_blocks_solveAll Samples.lib0 10 (Var Samples.x) true init st1 10
           [Add (Comparison "==" (Var Samples.x) (Var Samples.y))]
           DisplayNone None None None [] false (Scenarios.ort_resp ORT_OPTIMAL []) H).
Defined.

End OrtObjectiveFacts.

(** ** Assumptions across solves, and what adding never touches *)
Module OrtAssumptionFacts.
Import Ortools OrtFacts OrtLog.

Ltac frame_leaf :=
  intros ?; simpl;
  first [reflexivity | rewrite List.filter_app; simpl; by rewrite app_nil_r].

Ltac ort_frames :=
  repeat first
    [ progress eauto with keeps
    | lazymatch goal with
      | |- keeps _ _ (modify _) => apply keeps_modify; frame_leaf
      end
    | keeps_step
    | lazymatch goal with
      | |- keeps _ _ (solver_vars _) => apply ort_keeps_solver_vars; [typeclasses eauto | intros ?]
      | |- keeps _ _ (enumerate _ _) => apply keeps_enumerate; [typeclasses eauto | intros ? ?]
      | |- keeps _ _ (pow_chain _ _ _ _ _) =>
          apply OrtAdd.keeps_pow_chain; [typeclasses eauto | intros ? | intros ? ?]
      end
    | progress autounfold with adapter ].

#[local] Abbreviation assumed :=
  (λ st : State, (List.filter touches_assumptions (ort_log st), assumption_dict st)).

(** X11.  A [solve] without assumptions never touches the assumptions of
    an earlier solve: however it ends, the native model has seen no
    [ClearAssumptions] and no [AddAssumptions], and the adapter's own
    assumption map is the old one.  A [solve] with assumptions that
    returns has cleared the old ones and added the handles of the new
    ones, once, and its assumption map is built from these. *)
Theorem solve_keeps_old_assumptions args resp st :
  (assumptions args = None →
   List.filter touches_assumptions (ort_log (exec (solve args resp) st))
   = List.filter touches_assumptions (ort_log st)
   ∧ assumption_dict (exec (solve args resp) st) = assumption_dict st)
  ∧ (∀ assum b st',
       assumptions args = Some assum →
       solve args resp st = (Ok b, st') →
       ∃ vs d,
         List.filter touches_assumptions (ort_log st')
         = List.filter touches_assumptions (ort_log st)
           ++ [ClearAssumptions; AddAssumptions (OL vs)]
         ∧ make_assumption_dict assum vs ∅ = Some d
         ∧ assumption_dict st' = Some d).
Proof.
  split.
  - intros Hassum.
    assert (keeps eq assumed (solve args resp)) as K
      by (unfold solve; rewrite Hassum; ort_frames).
    specialize (K st). unfold exec. by injection K as <- <-.
  - intros assum b st' Hassum H. unfold solve in H. rewrite Hassum in H.
    apply bind_Ok in H as (uv & s1 & [= <- <-] & H).
    apply bind_Ok in H as (vs0 & s2 & H2 & H).
    apply bind_Ok in H as ([] & s3 & H3 & H).
    apply bind_Ok in H as ([] & s4 & H4 & H).
    match type of H with ?m ?s = _ =>
      assert (keeps eq assumed m) as K by (fold (read_solution resp); ort_frames) end.
    specialize (K s4). rewrite H in K. simpl in K. injection K as <- <-. clear H.
    apply bind_Ok in H4 as (vs & t1 & Hv & H4).
    apply bind_Ok in H4 as ([] & t2 & Hd & H4).
    apply bind_Ok in H4 as ([] & t3 & [= <-] & H4).
    apply bind_Ok in H4 as ([] & t4 & [= <-] & [= <-]).
    destruct (make_assumption_dict assum vs ∅) as [d|] eqn:Ed; [|discriminate].
    injection Hd as <-. exists vs, d. simpl.
    rewrite !List.filter_app. simpl. rewrite !app_nil_r.
    split; [|done]. rewrite <- app_assoc. f_equal.
    assert (keeps eq assumed (solver_vars (Lst (Var <$> elements (user_vars (base st))))))
      as K2 by ort_frames.
    specialize (K2 st). rewrite H2 in K2. simpl in K2. injection K2 as K2 _.
    assert (List.filter touches_assumptions (ort_log s3)
            = List.filter touches_assumptions (ort_log s2)) as K3.
    { destruct (time_limit args) as [t|]; [|by injection H3 as <-].
      destruct (Qle_bool t 0); [discriminate|]. injection H3 as <-. simpl.
      rewrite List.filter_app. simpl. by rewrite app_nil_r. }
    assert (keeps eq assumed (mapM solver_vars assum)) as K4 by ort_frames.
    specialize (K4 s3). rewrite Hv in K4. simpl in K4. injection K4 as K4 _.
    congruence.
Qed.

Section WithLib.
Context (lib : CpmLib).

#[local] Abbreviation solved :=
  (λ st : State, (List.filter on_solver (ort_log st), cpm_status (base st),
                  _value (base st), ort_status st, objective_value_ st,
                  assumption_dict st)).

Lemma add_post_solved fuel :
  (∀ e, keeps eq solved (add lib fuel e))
  ∧ (∀ e r, keeps eq solved (_post_constraint lib fuel e r)).
Proof.
  induction fuel as [|fuel [IHadd IHpost]].
  - split; intros; simpl; by keeps_step.
  - split.
    + intros e. simpl. unfold transform. ort_frames.
    + intros e r. simpl. unfold _post_constraint_body, post_numexpr_equality. ort_frames.
Qed.

Lemma call_solved fuel c : keeps eq solved (ort_call lib fuel c).
Proof.
  destruct c as [e|e minimize]; simpl; [apply add_post_solved|].
  unfold objective. destruct (flatten_objective lib e) as [flat_obj flat_cons].
  apply keeps_bind; [apply _ | apply add_post_solved | intros _].
  destruct minimize; ort_frames.
Qed.

(** X12.  Adding constraints and setting objectives never reaches the
    OR-Tools solver object and never touches what a solve left: across
    any sequence of [add] and [objective] calls, with or without errors,
    the calls on the solver, the status, the values of the variables, the
    objective value and the assumption map stay as they are. *)
Theorem adding_leaves_the_solve fuel cs st :
  let st' := ort_calls lib fuel cs st in
  List.filter on_solver (ort_log st') = List.filter on_solver (ort_log st)
  ∧ cpm_status (base st') = cpm_status (base st)
  ∧ _value (base st') = _value (base st)
  ∧ ort_status st' = ort_status st
  ∧ objective_value_ st' = objective_value_ st
  ∧ assumption_dict st' = assumption_dict st.
Proof.
  assert (solved (ort_calls lib fuel cs st) = solved st) as H.
  { revert st. induction cs as [|c cs IH]; intros st; [done|].
    simpl. rewrite IH. symmetry. apply (call_solved fuel c st). }
  cbv zeta. by injection H as -> -> -> -> -> ->.
Qed.

End WithLib.

(** [solve(assumptions=[a])] answered INFEASIBLE, then a plain [solve()]:
    the native model still has the assumption [a]. *)
Lemma solve_keeps_old_assumptions_sample :
  let st1 := exec (solve Scenarios.ort_assuming (Scenarios.ort_infeasible [0])) init in
  let st2 := exec (solve Scenarios.ort_plain (Scenarios.ort_resp ORT_OPTIMAL [])) st1 in
  assumptions Scenarios.ort_plain = None
  ∧ List.filter touches_assumptions (ort_log st2)
    = [ClearAssumptions; AddAssumptions (OL [OH (OrtVar 0)])]
  ∧ assumption_dict st2 = assumption_dict st1.
Proof.
  intros st1 st2.
  destruct (proj1 (solve_keeps_old_assumptions Scenarios.ort_plain
                     (Scenarios.ort_resp ORT_OPTIMAL []) st1) eq_refl) as [Hlog Hd].
  split; [reflexivity | split; [|exact Hd]].
  etrans; [exact Hlog|]. vm_compute. reflexivity.
Defined.

End OrtAssumptionFacts.

(** ** Powers with a constant exponent *)
Module OrtPowFacts.
Import Ortools OrtFacts OrtLog.

Section WithLib.
Context (lib : CpmLib).

(** X13.  [pow(b, n) == v] with a constant exponent [n] that is zero or
    negative, where [solver_var] answers the handle [h] for [v]: the loop
    over [range(n)] runs no time, so what is posted is [1 == h], whatever
    the base is; the base never reaches the native model and no auxiliary
    constraint is added. *)
Theorem pow_nonpositive_exponent fuel b n v reifiable st h st1 :
  n ≤ 0 → solver_var (Var v) st = (Ok h, st1) →
  _post_constraint lib (S fuel)
    (Comparison "==" (Operator "pow" [b; Num n]) (Var v)) reifiable st
  = (Ok (length (ort_log st1)),
     set_ort_log
       (ort_log st1 ++ [PostConstraint "Add" [OObj "==" [OH (OrtNum 1); OH h]]]) st1).
Proof.
  intros Hn E.
  change (_post_constraint lib (S fuel)
            (Comparison "==" (Operator "pow" [b; Num n]) (Var v)) reifiable)
    with (let* ortrhs := solver_var (Var v) in
          post_numexpr_equality lib (add lib fuel)
            (Comparison "==" (Operator "pow" [b; Num n]) (Var v))
            (Operator "pow" [b; Num n]) ortrhs).
  rewrite (bind_run _ _ _ _ _ E).
  unfold post_numexpr_equality.
  rewrite (bind_run (attr (expr_name (Operator "pow" [b; Num n]))) _ st1 "pow" st1 eq_refl).
  cbn [decide decide_rel]. simpl.
  rewrite (bind_run (ret [b; Num n]) _ st1 _ st1 eq_refl).
  rewrite (bind_run (item [b; Num n] 1) _ st1 (Num n) st1 eq_refl).
  assert ((n =? 2) = false) as -> by lia.
  rewrite (bind_run (unpack2 [b; Num n]) _ st1 (b, Num n) st1 eq_refl).
  assert (Z.to_nat n = 0%nat) as -> by lia.
  reflexivity.
Qed.

End WithLib.

(** [x ** -1 == y] on a fresh adapter. *)
Lemma pow_nonpositive_exponent_sample :
  let st1 := exec (solver_var (Var Samples.y)) init in
  -1 ≤ 0
  ∧ solver_var (Var Samples.y) init = (Ok (OrtVar 0), st1)
  ∧ _post_constraint Samples.lib0 1
      (Comparison "==" (Operator "pow" [Var Samples.x; Num (-1)]) (Var Samples.y))
      false init
    = (Ok (length (ort_log st1)),
       set_ort_log
         (ort_log st1
          ++ [PostConstraint "Add" [OObj "==" [OH (OrtNum 1); OH (OrtVar 0)]]]) st1).
Proof.
  intros st1.
  assert (solver_var (Var Samples.y) init = (Ok (OrtVar 0), st1)) as E
    by (refine (run_eq (solver_var (Var Samples.y)) init (Ok (OrtVar 0)) _);
        vm_compute; reflexivity).
  split; [lia | split; [exact E|]].
  apply (pow_nonpositive_exponent Samples.lib0 0 (Var Samples.x) (-1) Samples.y false init
           (OrtVar 0) st1); [lia | exact E].
Defined.

End OrtPowFacts.

(** ** The variable cache of a Pumpkin adapter in use *)

#[global] Instance preserved_preorder {X} (P : X → Prop) : PreOrder (preserved P).
Proof. split; [intros x H; exact H | intros x y z H1 H2 H; apply H2, H1, H]. Qed.

Lemma keeps_bind_result {S X A B} (R : relation X) `{!PreOrder R} (f : S → X)
    (m : M S A) (k : A → M S B) (Q : A → Prop) :
  keeps R f m → (∀ s a s', m s = (Ok a, s') → Q a) → (∀ a, Q a → keeps R f (k a)) →
  keeps R f (bind m k).
Proof.
  intros Hm HQ Hk s. unfold bind. specialize (Hm s). specialize (HQ s).
  destruct (m s) as [[a|e] s1]; simpl in *; [|assumption].
  etransitivity; [exact Hm | by apply Hk, (HQ a s1)].
Qed.

Module PumCacheFacts.
Import Pumpkin PumFacts.

#[local] Abbreviation pum_cache_view :=
  (λ st : State, (_varmap (base st), pum_num_vars st,
                  List.filter pum_creates_variable (pum_log st))).

Lemma solver_var_cached_native v :
  keeps (preserved pum_cache_sound) pum_cache_view (solver_var_cached v).
Proof.
  intros st. destruct (_varmap (base st) !! v) as [h|] eqn:E.
  - by rewrite (pum_solver_var_cached_hit _ _ _ E).
  - destruct (is_BoolVarImpl v || is_known v) eqn:K.
    + rewrite (pum_solver_var_cached_miss _ _ K E).
      simpl. rewrite List.filter_app.
      assert (List.filter pum_creates_variable [creation_event v] = [creation_event v]) as ->
        by (by destruct v).
      intros (Hn & Hmade & Hinj). split; [|split].
      * rewrite length_app. simpl. lia.
      * intros w h. destruct (decide (v = w)) as [<-|Hne].
        -- rewrite lookup_insert_eq. intros [= <-]. exists (pum_num_vars st).
           split; [by destruct v|]. rewrite Hn. by rewrite lookup_app_r, Nat.sub_diag.
        -- rewrite lookup_insert_ne by done. intros Hw.
           destruct (Hmade w h Hw) as (i & -> & Hi). exists i. split; [done|].
           by apply lookup_app_l_Some.
      * assert (∀ w, _varmap (base st) !! w ≠ Some (fresh_handle v st)) as Hfresh.
        { intros w Hw. destruct (Hmade w _ Hw) as (i & Hh & Hi).
          apply lookup_lt_Some in Hi.
          assert (i = pum_num_vars st) by (destruct v, w; simpl in Hh; congruence). lia. }
        intros w1 w2 h.
        destruct (decide (v = w1)) as [<-|H1], (decide (v = w2)) as [<-|H2];
          rewrite ?lookup_insert_eq, ?lookup_insert_ne by done; try done.
        -- intros [= <-] Hw. by destruct (Hfresh _ Hw).
        -- intros Hw [= <-]. by destruct (Hfresh _ Hw).
        -- apply Hinj.
    + destruct v; try discriminate. by rewrite (pum_solver_var_cached_unknown _ _ E).
Qed.

#[local] Hint Resolve solver_var_cached_native : keeps.

Lemma get_core_native : keeps (preserved pum_cache_sound) pum_cache_view get_core.
Proof. unfold get_core. pum_keeps. Qed.

Section WithLib.
Context (lib : CpmLib).

Ltac native_keeps :=
  pum_keeps_with ltac:(
    idtac;
    lazymatch goal with
    | |- keeps _ _ (modify _) =>
        apply keeps_modify; intros ?; simpl;
        first [ reflexivity
              | rewrite List.filter_app; simpl; by rewrite app_nil_r
              | rewrite List.filter_app; simpl;
                match goal with
                | H : pum_creates_variable _ = false |- _ => rewrite H
                end; by rewrite app_nil_r ]
    | |- keeps _ _ (_ivars _ _) => apply keeps__ivars; [typeclasses eauto | intros ? | intros ? ?]
    | |- keeps _ _ (to_predicate _ _) => unfold to_predicate
    | |- keeps _ _ (transform _ _) => unfold transform
    | |- keeps _ _ (_get_constraint _ _ _) =>
        apply PumAdd.get_constraint_frame; [typeclasses eauto | intros ? | intros ? ? | | intros ?]
    end).

Lemma solver_var_native e : keeps (preserved pum_cache_sound) pum_cache_view (solver_var e).
Proof. native_keeps. Qed.

Lemma solve_native args resp :
  keeps (preserved pum_cache_sound) pum_cache_view (solve lib args resp).
Proof.
  unfold solve.
  apply keeps_bind; [apply _ | native_keeps | intros uv].
  apply keeps_bind; [apply _ | native_keeps | intros _].
  apply keeps_bind; [apply _ | native_keeps | intros _].
  apply keeps_bind; [apply _ | native_keeps | intros has_obj].
  apply (keeps_bind_result _ _ _ _ (λ call, pum_creates_variable call = false));
    [native_keeps | | intros call Hcall; native_keeps].
  intros s call s' H. destruct has_obj.
  - do 4 peel H. by injection H as <- _.
  - destruct (assumptions args) as [assum|].
    + do 3 peel H. by injection H as <- _.
    + by peel H.
Qed.

Lemma add_native fuel e :
  keeps (preserved pum_cache_sound) pum_cache_view (__add__ lib fuel e).
Proof. unfold __add__. native_keeps. Qed.

Lemma objective_native fuel expr minimize :
  keeps (preserved pum_cache_sound) pum_cache_view (objective lib fuel expr minimize).
Proof.
  unfold objective. destruct (get_bounds lib expr) as [lb ub].
  pose proof add_native. native_keeps.
Qed.

Lemma reachable_native st :
  pum_reachable lib st → pum_cache_sound (pum_cache_view st).
Proof.
  induction 1 as [|fuel e st _ IH|fuel e minimize st _ IH|args resp st _ IH
                  |st _ IH|e st _ IH].
  - simpl. split; [done|].
    split; [intros v h H | intros v w h H _]; by rewrite lookup_empty in H.
  - by apply (add_native fuel e st).
  - by apply (objective_native fuel e minimize st).
  - by apply (solve_native args resp st).
  - by apply (get_core_native st).
  - by apply (solver_var_native e st).
Qed.

End WithLib.

End PumCacheFacts.

(** ** The Pumpkin [solve] and what it refuses *)
Module PumSolveFacts.
Import Pumpkin PumFacts PumPlain.

Ltac frame_leaf :=
  intros ?; simpl;
  first [reflexivity | rewrite List.filter_app; simpl; by rewrite app_nil_r].

Ltac pum_frames :=
  repeat first
    [ progress eauto with keeps
    | lazymatch goal with
      | |- keeps _ _ (modify _) => apply keeps_modify; frame_leaf
      end
    | keeps_step
    | lazymatch goal with
      | |- keeps _ _ (solver_vars _) => apply pum_keeps_solver_vars; [typeclasses eauto | intros ?]
      end
    | progress autounfold with adapter ].

Ltac pum_frame_of f H :=
  lazymatch type of H with
  | ?m ?s = _ =>
      let K := fresh "K" in
      assert (keeps eq f m) as K by pum_frames;
      specialize (K s); rewrite H in K; simpl in K
  end.

Section WithLib.
Context (lib : CpmLib).

(** X16.  The Pumpkin [solve] refuses assumptions together with an
    objective, and assumptions together with a proof file: it raises
    AssertionError before any native solve call, leaving the status, the
    assumption map and the core of the last solve as they were.  The proof
    prefix, however, has been set by then. *)
Theorem solve_refuses_assumptions args resp st :
  is_Some (assumptions args) →
  is_Some (_objective st) ∨ is_Some (proof args) →
  (∀ n, NumVarImpl n ∉ user_vars (base st)) →
  ∃ st',
    solve lib args resp st = (Raise AssertionError, st')
    ∧ List.filter is_solve_call (pum_log st') = List.filter is_solve_call (pum_log st)
    ∧ prefix st' = match proof args with Some p => Some p | None => prefix st end
    ∧ cpm_status (base st') = cpm_status (base st)
    ∧ assump_map st' = assump_map st
    ∧ _pum_core st' = _pum_core st.
Proof.
  intros [assum Hassum] Hwhy Hknown. unfold solve.
  rewrite (bind_run (gets _) _ st _ st eq_refl).
  destruct (pum_solver_vars_ok (elements (user_vars (base st))) st) as (vs & s1 & E1).
  { intros n Hn. apply (Hknown n). by apply elem_of_elements. }
  rewrite (bind_run _ _ _ _ _ E1).
  pum_frame_of (λ st : State, (List.filter is_solve_call (pum_log st), prefix st,
                               cpm_status (base st), assump_map st, _pum_core st,
                               _objective st)) E1.
  injection K as Hlog Hprefix Hstatus Hmap Hcore Hobj.
  destruct (proof args) as [p|] eqn:Ep.
  - rewrite (bind_run (modify _) _ s1 tt (set_prefix (Some p) s1) eq_refl).
    unfold bind at 1, has_objective at 1, gets at 1; cbv beta iota. simpl.
    rewrite <- Hobj, Hassum.
    destruct (_objective st) as [o|]; simpl;
      eexists; (split; [reflexivity|]); simpl; by rewrite Hlog, Hstatus, Hmap, Hcore.
  - rewrite (bind_run (ret tt) _ s1 tt s1 eq_refl).
    unfold bind at 1, has_objective at 1, gets at 1; cbv beta iota.
    rewrite <- Hobj, Hassum.
    destruct Hwhy as [[o Ho]|[p Hp]]; [|discriminate]. rewrite Ho. simpl.
    eexists; (split; [reflexivity|]); simpl; by rewrite Hlog, Hprefix, Hstatus, Hmap, Hcore.
Qed.

End WithLib.

(** [solve(assumptions=[a])] after [minimize(x)]. *)
Lemma solve_refuses_assumptions_sample :
  is_Some (assumptions Scenarios.pum_assuming)
  ∧ is_Some (_objective Scenarios.pum_minimizing)
  ∧ ∃ st',
      solve Samples.lib0 Scenarios.pum_assuming
        (Scenarios.pum_resp Optimisation_Unknown) Scenarios.pum_minimizing
      = (Raise AssertionError, st')
      ∧ List.filter is_solve_call (pum_log st')
        = List.filter is_solve_call (pum_log Scenarios.pum_minimizing)
      ∧ prefix st' = None
      ∧ cpm_status (base st') = cpm_status (base Scenarios.pum_minimizing)
      ∧ assump_map st' = assump_map Scenarios.pum_minimizing
      ∧ _pum_core st' = _pum_core Scenarios.pum_minimizing.
Proof.
  assert (is_Some (assumptions Scenarios.pum_assuming)) as Ha by (by eexists).
  assert (is_Some (_objective Scenarios.pum_minimizing)) as Ho
    by (apply (bool_decide_unpack _); vm_compute; exact I).
  split; [exact Ha | split; [exact Ho|]].
  apply (solve_refuses_assumptions Samples.lib0 Scenarios.pum_assuming
           (Scenarios.pum_resp Optimisation_Unknown) Scenarios.pum_minimizing Ha
           (or_introl Ho)).
  intros n Hn. apply elem_of_elements in Hn. vm_compute in Hn.
  repeat (apply elem_of_cons in Hn as [Hn|Hn]; [discriminate|]).
  by apply elem_of_nil in Hn.
Defined.

End PumSolveFacts.

(** ** Predicates and sums handed to Pumpkin *)
Module PumPredicateFacts.
Import Pumpkin PumFacts PumPlain.

Section WithLib.
Context (lib : CpmLib).

Lemma ivars_of_variable v h st st' :
  solver_var (Var v) st = (Ok h, st') →
  _ivars lib (Var v) st
  = (Ok (PV (if is_BoolVarImpl v then PumBoolAsInteger h else h)), st').
Proof.
  intros E.
  change (_ivars lib (Var v))
    with (if is_BoolVarImpl v
          then let* b := solver_var (Var v) in ret (PV (PumBoolAsInteger b))
          else let* h := solver_var (Var v) in ret (PV h)).
  destruct (is_BoolVarImpl v); unfold bind; by rewrite E.
Qed.

(** X17.  [to_predicate] keeps the meaning of a comparison of a variable,
    or of a sum of one variable, with a constant: the predicate it builds
    is on the native integer expression of the variable, and holds of a
    value exactly when the comparison does; [<] and [>] become [<=] and
    [>=] with the constant moved by one.  A Boolean variable becomes the
    predicate [>= 1] on its native variable read as an integer, and its
    negated view the predicate [<= 0] on the same expression. *)
Theorem to_predicate_meaning st :
  (∀ name lhs v c,
     mem_string name comparison_names = true →
     lhs = Var v ∨ lhs = Operator "sum" [Var v] →
     (∀ n, v ≠ NumVarImpl n) →
     ∃ h comp rhs st',
       to_predicate lib (Comparison name lhs (Num c)) st = (Ok (h, comp, rhs), st')
       ∧ _ivars lib (Var v) st = (Ok (PV h), st')
       ∧ ∀ z, Comparator_holds comp z rhs = comparison_holds name z c)
  ∧ (∀ bv, ∃ b st',
       solver_var (Var (BoolVarImpl bv)) st = (Ok b, st')
       ∧ to_predicate lib (Var (BoolVarImpl bv)) st
         = (Ok (PumBoolAsInteger b, GreaterThanOrEqual, 1), st')
       ∧ to_predicate lib (Var (NegBoolView bv)) st
         = (Ok (PumBoolAsInteger b, LessThanOrEqual, 0), st')).
Proof.
  split.
  - intros name lhs v c Hname Hlhs Hv.
    destruct (pum_solver_var_ok v st Hv) as (h & s1 & E).
    pose proof (ivars_of_variable v h st s1 E) as Ei.
    assert (∃ comp rhs,
              to_predicate lib (Comparison name lhs (Num c)) st
              = (let* var := _ivars lib (Var v) in
                 let* var := one_expr var in
                 ret (var, comp, rhs)) st
              ∧ ∀ z, Comparator_holds comp z rhs = comparison_holds name z c)
      as (comp & rhs & Ep & Hm).
    { apply bool_decide_eq_true in Hname.
      repeat (apply elem_of_cons in Hname as [->|Hname]);
        [..|by apply elem_of_nil in Hname];
        destruct Hlhs as [->| ->];
        eexists _, _; (split; [reflexivity|]); intros z; unfold comparison_holds; simpl;
        lia. }
    exists (if is_BoolVarImpl v then PumBoolAsInteger h else h), comp, rhs, s1.
    split; [|split; [exact Ei | exact Hm]].
    rewrite Ep. unfold bind. by rewrite Ei.
  - intros bv.
    destruct (pum_solver_var_ok (BoolVarImpl bv) st) as (b & s1 & E); [done|].
    exists b, s1. split; [exact E|].
    pose proof (ivars_of_variable (BoolVarImpl bv) b st s1 E) as Ei. simpl in Ei.
    split; unfold to_predicate;
      rewrite (bind_run (ret _) _ st _ st eq_refl); cbv beta iota;
      rewrite (bind_run _ _ _ _ _ Ei); reflexivity.
Qed.

End WithLib.

(** [x < 5] on a fresh adapter is the predicate [x <= 4]. *)
Lemma to_predicate_meaning_sample :
  mem_string "<" comparison_names = true
  ∧ ∃ h comp rhs st',
      to_predicate Samples.lib0 (Comparison "<" (Var Samples.x) (Num 5)) init
      = (Ok (h, comp, rhs), st')
      ∧ _ivars Samples.lib0 (Var Samples.x) init = (Ok (PV h), st')
      ∧ ∀ z, Comparator_holds comp z rhs = comparison_holds "<" z 5.
Proof.
  split; [reflexivity|].
  apply (proj1 (to_predicate_meaning Samples.lib0 init) "<" (Var Samples.x) Samples.x 5);
    [reflexivity | by left | done].
Defined.

End PumPredicateFacts.

(** ** Linear inequalities handed to Pumpkin *)
Module PumSumFacts.
Import Pumpkin PumFacts PumPlain.

Lemma sum_term_negated cpm_var w st t st' :
  sum_term cpm_var w st = (Ok t, st') →
  sum_term cpm_var (- w) st = (Ok (negated_term t), st') ∧ is_scaled t = true.
Proof.
  unfold sum_term. intros H.
  apply bind_Ok in H as (h & s1 & E1 & H). apply bind_Ok in H as (b & s2 & E2 & H).
  injection H as <- <-.
  rewrite (bind_run _ _ _ _ _ E1), (bind_run _ _ _ _ _ E2). done.
Qed.

Lemma sum_value_negated val ts :
  Forall (λ t, is_scaled t = true) ts →
  sum_value val (negated_term <$> ts) = - sum_value val ts.
Proof.
  induction 1 as [|t ts Ht _ IH]; [done|].
  destruct t; try discriminate.
  change (- w * val t + sum_value val (negated_term <$> ts)
          = - (w * val t + sum_value val ts)).
  rewrite IH. lia.
Qed.

Lemma mapM_sum_terms (w : Z) (args : list Expr) : ∀ st ts st',
  mapM (λ cpm_var, sum_term cpm_var w) args st = (Ok ts, st') →
  mapM (λ cpm_var, sum_term cpm_var (- w)) args st = (Ok (negated_term <$> ts), st')
  ∧ Forall (λ t, is_scaled t = true) ts.
Proof.
  induction args as [|a args IH]; intros st ts st' H; simpl in H.
  - injection H as <- <-. done.
  - apply bind_Ok in H as (t & s1 & E1 & H). apply bind_Ok in H as (ts' & s2 & E2 & H).
    injection H as <- <-.
    apply sum_term_negated in E1 as [E1 Ht]. apply IH in E2 as [E2 Hts].
    split; [|by constructor]. simpl.
    rewrite (bind_run _ _ _ _ _ E1), (bind_run _ _ _ _ _ E2). done.
Qed.

Lemma mapM_weighted_terms (l : list (Expr * Expr)) :
  ∀ st (tss : list (list pum_expr)) st',
  mapM (λ '(w, cpm_var),
          match w with
          | Num w => if w =? 0 then ret []
                     else let* t := sum_term cpm_var w in ret [t]
          | _ => raise TypeError
          end) l st = (Ok tss, st') →
  mapM (λ '(w, cpm_var),
          match w with
          | Num w => if w =? 0 then ret []
                     else let* t := sum_term cpm_var (- w) in ret [t]
          | _ => raise TypeError
          end) l st = (Ok ((λ ts : list pum_expr, negated_term <$> ts) <$> tss), st')
  ∧ Forall (λ t, is_scaled t = true) (concat tss).
Proof.
  induction l as [|[w a] l IH]; intros st tss st' H; simpl in H.
  - injection H as <- <-. done.
  - apply bind_Ok in H as (t & s1 & E1 & H). apply bind_Ok in H as (ts' & s2 & E2 & H).
    injection H as <- <-. apply IH in E2 as [E2 Hts]. simpl.
    destruct w as [w| | | | | | |]; try discriminate.
    destruct (w =? 0) eqn:Ew.
    + injection E1 as <- <-.
      rewrite (bind_run (ret []) _ st [] st eq_refl), (bind_run _ _ _ _ _ E2). done.
    + apply bind_Ok in E1 as (t1 & s3 & E1 & [= <- <-]).
      apply sum_term_negated in E1 as [E1 Ht].
      split; [|by constructor].
      rewrite (bind_run (let* t := sum_term a (- w) in ret [t]) _ st [negated_term t1] s3).
      * by rewrite (bind_run _ _ _ _ _ E2).
      * by rewrite (bind_run _ _ _ _ _ E1).
Qed.

Lemma sum_args_negated expr st ts st' :
  _sum_args expr false st = (Ok ts, st') →
  _sum_args expr true st = (Ok (negated_term <$> ts), st')
  ∧ Forall (λ t, is_scaled t = true) ts.
Proof.
  unfold _sum_args. intros H.
  destruct (is_Operator_named "sum" expr).
  - apply bind_Ok in H as (args & s1 & E1 & H). rewrite (bind_run _ _ _ _ _ E1).
    by apply (mapM_sum_terms 1).
  - destruct (is_Operator_named "wsum" expr); [|by peel H].
    apply bind_Ok in H as (args & s1 & E1 & H). rewrite (bind_run _ _ _ _ _ E1).
    destruct args as [|[| |ws| | | | |] [|[| |xs| | | | |] [|]]]; try discriminate.
    apply bind_Ok in H as (tss & s2 & E2 & [= <- <-]).
    apply mapM_weighted_terms in E2 as [E2 Hts].
    split; [|done]. rewrite (bind_run _ _ _ _ _ E2).
    assert (concat ((λ ts : list pum_expr, negated_term <$> ts) <$> tss)
            = negated_term <$> concat tss) as ->; [|done].
    clear. induction tss as [|ts tss IH]; [done|].
    by rewrite fmap_cons, !concat_cons, fmap_app, IH.
Qed.

Section WithLib.
Context (lib : CpmLib).

(** X18.  Every inequality between a sum or weighted sum and a constant,
    other than a sum of one argument (which [_get_constraint] posts as a
    predicate, line 410), is handed to Pumpkin as one
    [LessThanOrEquals], equivalent to the
    comparison under every valuation of the native expressions: [<]
    lowers the bound by one, [>=] and [>] negate every weight and the
    bound.  The terms are those [_sum_args] builds for the sum. *)
Theorem inequality_posted_as_leq fuel name lhs c st ts st' :
  name ∈ ["<="; "<"; ">="; ">"] →
  (∀ a, lhs ≠ Operator "sum" [a]) →
  _sum_args lhs false st = (Ok ts, st') →
  ∃ ts' c',
    _get_constraint lib (S fuel) (Comparison name lhs (Num c)) st
    = (Ok [mk "LessThanOrEquals" [PL (PV <$> ts'); PData (Num c')]], st')
    ∧ ∀ val, (sum_value val ts' <=? c') = comparison_holds name (sum_value val ts) c.
Proof.
  intros Hname Hsingle H.
  destruct (sum_args_negated lhs st ts st' H) as [Hneg Hscaled].
  assert (∃ n args, lhs = Operator n args) as (n & args & ->).
  { destruct lhs; try (by peel H). eauto. }
  assert (bool_decide (n = "sum") && bool_decide (length args = 1%nat) = false) as Hp.
  { apply andb_false_iff. destruct (decide (n = "sum")) as [->|?];
      [right | left; by apply bool_decide_eq_false].
    apply bool_decide_eq_false. intros Hl.
    destruct args as [|a [|]]; try discriminate. by destruct (Hsingle a). }
  simpl. rewrite (bind_run (ret ()) _ st () st eq_refl). rewrite Hp.
  repeat (apply elem_of_cons in Hname as [->|Hname]); [..|by apply elem_of_nil in Hname];
    simpl.
  - exists ts, c. rewrite (bind_run _ _ _ _ _ H). split; [done|].
    intros val. unfold comparison_holds. simpl. done.
  - exists ts, (c - 1). rewrite (bind_run _ _ _ _ _ H). split; [done|].
    intros val. unfold comparison_holds. simpl. lia.
  - exists (negated_term <$> ts), (- c). rewrite (bind_run _ _ _ _ _ Hneg). split; [done|].
    intros val. rewrite sum_value_negated by done. unfold comparison_holds. simpl. lia.
  - exists (negated_term <$> ts), (- c - 1). rewrite (bind_run _ _ _ _ _ Hneg).
    split; [done|].
    intros val. rewrite sum_value_negated by done. unfold comparison_holds. simpl. lia.
Qed.

End WithLib.

(** [2*x - 3*y >= 4] on a fresh adapter. *)
Lemma inequality_posted_as_leq_sample :
  let lhs := Operator "wsum" [Lst [Num 2; Num (-3)]; Lst [Var Samples.x; Var Samples.y]] in
  let st' := exec (_sum_args lhs false) init in
  (">=" ∈ ["<="; "<"; ">="; ">"])
  ∧ _sum_args lhs false init
    = (Ok [PumScaled (PumInt 0) 2; PumScaled (PumInt 1) (-3)], st')
  ∧ ∃ ts' c',
      _get_constraint Samples.lib0 1 (Comparison ">=" lhs (Num 4)) init
      = (Ok [mk "LessThanOrEquals" [PL (PV <$> ts'); PData (Num c')]], st')
      ∧ ∀ val, (sum_value val ts' <=? c')
               = comparison_holds ">="
                   (sum_value val [PumScaled (PumInt 0) 2; PumScaled (PumInt 1) (-3)]) 4.
Proof.
  intros lhs st'.
  assert (">=" ∈ ["<="; "<"; ">="; ">"]) as Hn by (right; right; left).
  assert (_sum_args lhs false init
          = (Ok [PumScaled (PumInt 0) 2; PumScaled (PumInt 1) (-3)], st')) as H
    by (refine (run_eq (_sum_args lhs false) init (Ok _) _); vm_compute; reflexivity).
  split; [exact Hn | split; [exact H|]].
  apply (inequality_posted_as_leq Samples.lib0 0 ">=" lhs 4 init _ st' Hn); [done | exact H].
Defined.

End PumSumFacts.

(** ** Adding a constraint to Pumpkin again *)
Module PumAddFacts.
Import Pumpkin PumFacts.

Lemma Expr_eqb_refl e : Expr_eqb e e = true.
Proof.
  induction e as [n|v|l IH|n l IH|n a b IHa IHb|n l IH|b|n l IH] using Expr_ind_nested;
    simpl; rewrite ?bool_decide_eq_true_2 by done; simpl.
  - apply Z.eqb_refl.
  - done.
  - induction IH as [|x l Hx _ IH]; [done | by rewrite Hx, IH].
  - induction IH as [|x l Hx _ IH]; [done | by rewrite Hx, IH].
  - by rewrite IHa, IHb.
  - induction IH as [|x l Hx _ IH]; [done | by rewrite Hx, IH].
  - done.
  - induction IH as [|x l Hx _ IH]; [done | by rewrite Hx, IH].
Qed.

#[local] Abbreviation grows := (@list_relations.list.prefix (Z * Expr)).

Lemma registered_stays st st' c :
  user_cons st `prefix_of` user_cons st' → registered st c = true → registered st' c = true.
Proof.
  intros [k Hk]. unfold registered. rewrite Hk, existsb_app. by intros ->.
Qed.

Section WithLib.
Context (lib : CpmLib).

Lemma add_unfold fuel e :
  __add__ lib fuel e
  = (collect_user_vars lib e ;; for_each (toplevel_list lib e (Some true)) (add_one lib fuel)).
Proof. reflexivity. Qed.

Ltac cons_keeps :=
  repeat first
    [ progress eauto with keeps
    | lazymatch goal with
      | |- keeps _ _ (modify _) =>
          apply keeps_modify; intros ?; simpl; first [reflexivity | by eexists]
      end
    | keeps_step
    | lazymatch goal with
      | |- keeps _ _ (solver_vars _) => apply pum_keeps_solver_vars; [typeclasses eauto | intros ?]
      | |- keeps _ _ (_ivars _ _) => apply keeps__ivars; [typeclasses eauto | intros ? | intros ? ?]
      | |- keeps _ _ (to_predicate _ _) => unfold to_predicate
      | |- keeps _ _ (transform _ _) => unfold transform
      | |- keeps _ _ (_get_constraint _ _ _) =>
          apply PumAdd.get_constraint_frame; [typeclasses eauto | intros ? | intros ? ? | | intros ?]
      end
    | progress autounfold with adapter ].

Lemma add_one_keeps fuel c : keeps grows user_cons (add_one lib fuel c).
Proof. unfold add_one. cons_keeps. Qed.

Lemma add_keeps fuel e : keeps grows user_cons (__add__ lib fuel e).
Proof. rewrite add_unfold. pose proof (add_one_keeps fuel). cons_keeps. Qed.

Lemma objective_keeps fuel expr minimize :
  keeps grows user_cons (objective lib fuel expr minimize).
Proof.
  unfold objective. destruct (get_bounds lib expr) as [lb ub].
  pose proof (add_keeps fuel). cons_keeps.
Qed.

Lemma calls_keep fuel cs : ∀ st, user_cons st `prefix_of` user_cons (pum_calls lib fuel cs st).
Proof.
  induction cs as [|c cs IH]; intros st; [done|]. simpl.
  etrans; [|apply IH].
  destruct c as [e|e minimize]; simpl.
  - apply (add_keeps fuel e st).
  - apply (objective_keeps fuel e minimize st).
Qed.

(** Whatever happens to a top-level constraint, it is registered
    afterwards. *)
Lemma add_one_registers fuel c st :
  registered (exec (add_one lib fuel c) st) c = true.
Proof.
  unfold exec, add_one. unfold bind at 1, gets at 1. cbv beta iota.
  fold (registered st c).
  destruct (registered st c) eqn:Ek; [done|].
  unfold bind at 1, gets at 1. cbv beta iota.
  unfold bind at 1, modify at 1. cbv beta iota.
  match goal with |- registered (snd (?m ?s)) c = true =>
    assert (keeps grows user_cons m) as K by (pose proof (add_one_keeps fuel); cons_keeps);
    apply (registered_stays s); [apply K|]
  end.
  unfold registered. simpl. rewrite existsb_app. simpl.
  by rewrite Expr_eqb_refl, orb_true_r.
Qed.

Lemma add_registers fuel l : ∀ st st',
  for_each l (add_one lib fuel) st = (Ok tt, st') →
  ∀ c, c ∈ l → registered st' c = true.
Proof.
  induction l as [|x l IH]; intros st st' H c Hc; [by apply elem_of_nil in Hc|].
  simpl in H. apply bind_Ok in H as ([] & s1 & H1 & H2).
  apply elem_of_cons in Hc as [->|Hc]; [|by eapply IH].
  pose proof (add_one_registers fuel x st) as Hr. unfold exec in Hr. rewrite H1 in Hr.
  apply (registered_stays s1); [|done].
  pose proof (keeps_for_each grows user_cons l (add_one lib fuel)
                (λ y _, add_one_keeps fuel y) s1) as K.
  by rewrite H2 in K.
Qed.

(** Adding what is registered already does nothing. *)
Lemma add_registered fuel e st :
  get_variables lib e ⊆ user_vars (base st) →
  (∀ c, c ∈ toplevel_list lib e (Some true) → registered st c = true) →
  __add__ lib fuel e st = (Ok tt, st).
Proof.
  intros Hv Hr. rewrite add_unfold.
  assert (collect_user_vars lib e st = (Ok tt, st)) as E.
  { unfold collect_user_vars, modify. f_equal.
    assert (user_vars (base st) ∪ get_variables lib e = user_vars (base st)) as Hu
      by (rewrite (comm_L (∪)); by apply subseteq_union_1_L).
    destruct st as [[] ? ? ? ? ? ? ? ? ?]. unfold upd_base, set_base, set_user_vars.
    simpl in *. by rewrite Hu. }
  rewrite (bind_run _ _ _ _ _ E).
  induction (toplevel_list lib e (Some true)) as [|x l IH]; [done|].
  simpl.
  assert (add_one lib fuel x st = (Ok tt, st)) as E1.
  { unfold add_one. unfold bind at 1, gets at 1. cbv beta iota.
    fold (registered st x). rewrite Hr; [done | by left]. }
  rewrite (bind_run _ _ _ _ _ E1). apply IH. intros c Hc. apply Hr. by right.
Qed.

(** X19.  A constraint that has been added is not posted again: once
    [__add__] has returned, and whatever has been added or set as
    objective since, adding the same expression returns and leaves the
    adapter, the native model included, exactly as it is. *)
Theorem add_twice fuel e st st1 fuel1 cs fuel2 :
  __add__ lib fuel e st = (Ok tt, st1) →
  __add__ lib fuel2 e (pum_calls lib fuel1 cs st1)
  = (Ok tt, pum_calls lib fuel1 cs st1).
Proof.
  intros H. apply add_registered.
  - etrans; [|apply pum_calls_mono].
    pose proof (PumAdd.add_user_vars lib fuel e st) as Hu. unfold exec in Hu.
    rewrite H in Hu. simpl in Hu. rewrite Hu. apply union_subseteq_r.
  - intros c Hc. apply (registered_stays st1); [apply calls_keep|].
    rewrite add_unfold in H. apply bind_Ok in H as ([] & s1 & _ & H).
    by apply (add_registers _ _ _ _ H).
Qed.

(** X20.  A constraint whose posting failed is not tried again: when
    [__add__] of an expression that is one top-level constraint raises,
    the constraint has been registered all the same, and adding the
    expression again returns without an error and without a native call,
    leaving the adapter as it is. *)
Theorem failed_add_is_not_retried fuel e c err st st1 fuel1 cs fuel2 :
  toplevel_list lib e (Some true) = [c] →
  __add__ lib fuel e st = (Raise err, st1) →
  registered st c = false
  ∧ registered st1 c = true
  ∧ __add__ lib fuel2 e (pum_calls lib fuel1 cs st1)
    = (Ok tt, pum_calls lib fuel1 cs st1).
Proof.
  intros Htop H.
  pose proof (PumAdd.add_user_vars lib fuel e st) as Hu. unfold exec in Hu.
  rewrite H in Hu. simpl in Hu.
  rewrite add_unfold, Htop in H.
  rewrite (bind_run (collect_user_vars lib e) _ st tt _ eq_refl) in H.
  simpl in H.
  match type of H with bind _ _ ?s = _ =>
    pose proof (add_one_registers fuel c s) as Hr; unfold exec in Hr;
    destruct (add_one lib fuel c s) as [[[]|err'] s2] eqn:E
  end.
  { rewrite (bind_run _ _ _ _ _ E) in H. discriminate. }
  rewrite (bind_raise _ _ _ _ _ E) in H. injection H as <- <-. simpl in Hr.
  split; [|split; [exact Hr|]].
  - unfold add_one in E. unfold bind at 1, gets at 1 in E. cbv beta iota in E.
    match type of E with (if ?k then _ else _) _ = _ => destruct k eqn:Ek end;
      [discriminate|]. exact Ek.
  - apply add_registered.
    + etrans; [|apply pum_calls_mono]. rewrite Hu. apply union_subseteq_r.
    + rewrite Htop. intros c' Hc'. apply list_elem_of_singleton in Hc' as ->.
      by apply (registered_stays s2); [apply calls_keep|].
Qed.

End WithLib.

(** [s += (x + y <= 5)], then [s += (a | b)], then [s += (x + y <= 5)]
    again, on a fresh adapter. *)
Lemma add_twice_sample :
  let e := Comparison "<=" (Operator "sum" [Var Samples.x; Var Samples.y]) (Num 5) in
  let st1 := exec (__add__ Samples.lib0 10 e) init in
  let st2 := pum_calls Samples.lib0 10
               [Add (Operator "or" [Var Samples.a; Var Samples.b])] st1 in
  __add__ Samples.lib0 10 e init = (Ok tt, st1)
  ∧ length (pum_log st1) = 3%nat
  ∧ __add__ Samples.lib0 10 e st2 = (Ok tt, st2).
Proof.
  intros e st1 st2.
  assert (__add__ Samples.lib0 10 e init = (Ok tt, st1)) as H
    by (refine (run_eq (__add__ Samples.lib0 10 e) init (Ok tt) _); vm_compute; reflexivity).
  split; [exact H | split; [vm_compute; reflexivity|]].
  exact (add_twice Samples.lib0 10 e init st1 10
           [Add (Operator "or" [Var Samples.a; Var Samples.b])] 10 H).
Defined.

(** [s += (x ** 3 == y)] on a fresh adapter raises the NotImplementedError
    of [_get_constraint], which knows no power; the second
    [s += (x ** 3 == y)] returns, and nothing has been posted. *)
Lemma failed_add_is_not_retried_sample :
  let e := Comparison "==" (Operator "pow" [Var Samples.x; Num 3]) (Var Samples.y) in
  let st1 := exec (__add__ Samples.lib0 10 e) init in
  toplevel_list Samples.lib0 e (Some true) = [e]
  ∧ __add__ Samples.lib0 10 e init = (Raise NotImplementedError, st1)
  ∧ List.filter posts_constraint (pum_log st1) = []
  ∧ registered init e = false
  ∧ registered st1 e = true
  ∧ __add__ Samples.lib0 10 e (pum_calls Samples.lib0 10 [] st1)
    = (Ok tt, pum_calls Samples.lib0 10 [] st1).
Proof.
  intros e st1.
  assert (__add__ Samples.lib0 10 e init = (Raise NotImplementedError, st1)) as H
    by (refine (run_eq (__add__ Samples.lib0 10 e) init (Raise NotImplementedError) _);
        vm_compute; reflexivity).
  split; [reflexivity | split; [exact H | split; [vm_compute; reflexivity|]]].
  exact (failed_add_is_not_retried Samples.lib0 10 e e NotImplementedError init st1 10 [] 10
           eq_refl H).
Defined.

End PumAddFacts.

(** ** A Pumpkin [solve] that reaches the native solver *)
Module PumOptimiseFacts.
Import Pumpkin PumFacts PumPlain.

#[local] Abbreviation pum_cache_view :=
  (λ st : State, (_varmap (base st), pum_num_vars st,
                  List.filter pum_creates_variable (pum_log st))).

#[local] Abbreviation sound := (λ st : State, pum_cache_sound (pum_cache_view st)).

#[local] Abbreviation solve_calls := (λ st : State, List.filter is_solve_call (pum_log st)).

Ltac frame_leaf :=
  intros ?; simpl;
  first [reflexivity | rewrite List.filter_app; simpl; by rewrite app_nil_r].

Ltac pum_frames :=
  repeat first
    [ progress eauto with keeps
    | lazymatch goal with
      | |- keeps _ _ (modify _) => apply keeps_modify; frame_leaf
      end
    | keeps_step
    | lazymatch goal with
      | |- keeps _ _ (solver_vars _) => apply pum_keeps_solver_vars; [typeclasses eauto | intros ?]
      | |- keeps _ _ (_ivars _ _) => apply keeps__ivars; [typeclasses eauto | intros ? | intros ? ?]
      | |- keeps _ _ (to_predicate _ _) => unfold to_predicate
      end
    | progress autounfold with adapter ].

Ltac pum_frame_of f H :=
  lazymatch type of H with
  | ?m ?s = _ =>
      let K := fresh "K" in
      assert (keeps eq f m) as K by pum_frames;
      specialize (K s); rewrite H in K; simpl in K
  end.

#[local] Hint Resolve PumCacheFacts.solver_var_cached_native : keeps.

Lemma solver_var_hit v h st :
  handle_of PumNegate (_varmap (base st)) v = Some h →
  solver_var (Var v) st = (Ok h, st).
Proof.
  destruct v as [n|n lb ub|bv|n]; simpl; try apply pum_solver_var_cached_hit.
  destruct (_varmap (base st) !! BoolVarImpl bv) as [x|] eqn:E; [|discriminate].
  intros [= <-]. unfold bind. by rewrite (pum_solver_var_cached_hit _ _ _ E).
Qed.

(** In a sound cache every variable of a known kind has a native integer
    or a native Boolean. *)
Lemma solver_var_kind v st :
  sound st → (∀ n, v ≠ NumVarImpl n) →
  ∃ h st', solver_var (Var v) st = (Ok h, st')
           ∧ sound st'
           ∧ is_PumpkinInt h || is_PumpkinBool h = true.
Proof.
  intros Hs Hv. destruct (pum_solver_var_ok v st Hv) as (h & st' & E).
  exists h, st'. split; [done|].
  assert (keeps (preserved pum_cache_sound) pum_cache_view (solver_var (Var v))) as K
    by pum_frames.
  specialize (K st). rewrite E in K. specialize (K Hs). split; [exact K|].
  apply pum_solver_var_handle in E. destruct K as (_ & Hmade & _).
  destruct v as [n|n lb ub|bv|n]; simpl in E.
  - destruct (Hmade _ _ E) as (i & -> & _). done.
  - destruct (Hmade _ _ E) as (i & -> & _). done.
  - destruct (_varmap (base st') !! BoolVarImpl bv); [|discriminate]. by injection E as <-.
  - by destruct (Hv n).
Qed.

Lemma fill_values_kind sol l : ∀ st,
  sound st → (∀ n, NumVarImpl n ∉ l) →
  ∃ st', for_each l (fill_value sol) st = (Ok tt, st').
Proof.
  induction l as [|v l IH]; intros st Hs Hl; simpl; [by eexists|].
  destruct (solver_var_kind v st Hs) as (h & s1 & E1 & Hs1 & Hk).
  { intros n ->. apply (Hl n). by left. }
  assert (∃ s2, fill_value sol v st = (Ok tt, s2) ∧ sound s2) as (s2 & E2 & Hs2).
  { unfold fill_value. rewrite (bind_run _ _ _ _ _ E1).
    destruct (is_PumpkinInt h); [|destruct (is_PumpkinBool h); [|discriminate]];
      by eexists. }
  destruct (IH s2 Hs2) as (st' & E3).
  { intros n Hn. apply (Hl n). by right. }
  exists st'. by rewrite (bind_run _ _ _ _ _ E2).
Qed.

Section WithLib.
Context (lib : CpmLib).

(** X21.  On a Pumpkin adapter in use that has an objective, a [solve]
    without assumptions returns when the native answer is an optimisation
    result.  It calls the native [optimise] once, on the native variable
    of the objective variable and in the direction of the last
    [objective] call, and no other native solve.  It returns whether the
    result holds a solution; the status is then OPTIMAL, also for a
    solution not known to be optimal, and the objective value is read off
    the solution.  Without a solution the objective value of an earlier
    solve stays. *)
Theorem pumpkin_optimise_once args resp st o :
  pum_reachable lib st →
  _objective st = Some o → (∀ n, o ≠ NumVarImpl n) →
  assumptions args = None →
  (∀ n, NumVarImpl n ∉ user_vars (base st)) →
  is_OptimisationResult (resp_result resp) = true →
  ∃ b st' h,
    solve lib args resp st = (Ok b, st')
    ∧ handle_of PumNegate (_varmap (base st')) o = Some h
    ∧ List.filter is_solve_call (pum_log st')
      = List.filter is_solve_call (pum_log st)
        ++ [optimise (proof args) h (objective_is_min st) (kwargs args)]
    ∧ b = bool_decide (is_Some (result_solution (resp_result resp)))
    ∧ exitstatus (cpm_status (base st'))
      = Some match resp_result resp with
             | Optimisation_Optimal _ | Optimisation_Satisfiable _ => OPTIMAL
             | Optimisation_Unsatisfiable => UNSATISFIABLE
             | _ => UNKNOWN
             end
    ∧ objective_value_ st'
      = match result_solution (resp_result resp) with
        | Some sol => Some (int_value sol h)
        | None => objective_value_ st
        end.
Proof.
  intros Hreach Hobj Ho Hassum Hknown Hres.
  pose proof (PumCacheFacts.reachable_native lib st Hreach) as Hs.
  unfold solve.
  rewrite (bind_run (gets _) _ st _ st eq_refl).
  (* the user variables *)
  destruct (pum_solver_vars_ok (elements (user_vars (base st))) st) as (vs & s1 & E1).
  { intros n Hn. apply (Hknown n). by apply elem_of_elements. }
  rewrite (bind_run _ _ _ _ _ E1).
  assert (sound s1) as Hs1.
  { assert (keeps (preserved pum_cache_sound) pum_cache_view
              (solver_vars (Lst (Var <$> elements (user_vars (base st)))))) as K
      by pum_frames.
    specialize (K st). rewrite E1 in K. by apply K. }
  pum_frame_of (λ st : State, (solve_calls st, _objective st, objective_is_min st,
                               objective_value_ st, user_vars (base st))) E1.
  injection K as Hc1 Hobj1 Hmin1 Hval1 Huv1.
  (* the proof prefix *)
  assert (∃ s2, (match proof args with
                 | Some p => modify (set_prefix (Some p))
                 | None => ret tt
                 end) s1 = (Ok tt, s2)
                ∧ sound s2 ∧ solve_calls s2 = solve_calls s1
                ∧ _objective s2 = _objective s1
                ∧ objective_is_min s2 = objective_is_min s1
                ∧ objective_value_ s2 = objective_value_ s1
                ∧ user_vars (base s2) = user_vars (base s1))
    as (s2 & E2 & Hs2 & Hc2 & Hobj2 & Hmin2 & Hval2 & Huv2)
    by (destruct (proof args); by eexists).
  rewrite (bind_run _ _ _ _ _ E2).
  unfold bind at 1, has_objective at 1, gets at 1; cbv beta iota.
  rewrite Hobj2, <- Hobj1, Hobj, Hassum.
  change (bool_decide (is_Some (Some o))) with true. cbv iota.
  (* the native variable of the objective *)
  destruct (solver_var_kind o s2 Hs2 Ho) as (h & s3 & E3 & Hs3 & Hk).
  pose proof (pum_solver_var_handle _ _ _ _ E3) as Hh3.
  pum_frame_of (λ st : State, (solve_calls st, _objective st, objective_is_min st,
                               objective_value_ st, user_vars (base st))) E3.
  injection K as Hc3 Hobj3 Hmin3 Hval3 Huv3.
  match goal with |- context [bind ?m ?k s2] =>
    assert (m s2 = (Ok (optimise (proof args) h (objective_is_min st) (kwargs args)), s3))
      as Ecall
  end.
  { rewrite bool_decide_eq_true_2 by done.
    rewrite (bind_run (assert true) _ s2 tt s2 eq_refl).
    rewrite (bind_run (gets _objective) _ s2 (_objective s2) s2 eq_refl).
    rewrite Hobj2, <- Hobj1, Hobj.
    change (default (Num 0) (Var <$> Some o)) with (Var o).
    rewrite (bind_run _ _ _ _ _ E3).
    rewrite (bind_run (gets objective_is_min) _ s3 (objective_is_min s3) s3 eq_refl).
    rewrite <- Hmin3, Hmin2, <- Hmin1. done. }
  rewrite (bind_run _ _ _ _ _ Ecall). clear Ecall.
  rewrite (bind_run (modify _) _ s3 tt _ eq_refl).
  rewrite (bind_run (native _) _ _ tt _ eq_refl).
  rewrite (bind_run (modify _) _ _ tt _ eq_refl).
  match goal with |- context [bind _ _ ?s] => set (s4 := s) end.
  assert (sound s4) as Hs4 by (subst s4; simpl; by rewrite List.filter_app, app_nil_r).
  assert (handle_of PumNegate (_varmap (base s4)) o = Some h) as Hh4 by exact Hh3.
  assert (solve_calls s4
          = solve_calls st ++ [optimise (proof args) h (objective_is_min st) (kwargs args)])
    as Hc4.
  { subst s4. simpl. rewrite List.filter_app. simpl. congruence. }
  assert (user_vars (base s4) = user_vars (base st)) as Huv4 by (subst s4; simpl; congruence).
  assert (_objective s4 = Some o) as Hobj4 by (subst s4; simpl; congruence).
  assert (objective_value_ s4 = objective_value_ st) as Hval4
    by (subst s4; simpl; congruence).
  clearbody s4.
  assert (∀ sol (e : ExitStatus),
            ∃ s5, for_each (elements (user_vars (base s4))) (fill_value sol)
                    (upd_base (set_exitstatus OPTIMAL) (upd_base (set_exitstatus e) s4))
                  = (Ok tt, s5)
                  ∧ solve_calls s5 = solve_calls s4
                  ∧ _objective s5 = Some o
                  ∧ cpm_status (base s5)
                    = {| exitstatus := Some OPTIMAL;
                         runtime := runtime (cpm_status (base s4)) |}
                  ∧ handle_of PumNegate (_varmap (base s5)) o = Some h) as Hfill.
  { intros sol e.
    match goal with |- ∃ _, for_each ?l _ ?s = _ ∧ _ =>
      destruct (fill_values_kind sol l s) as (s5 & E5); [done | | ] end.
    { intros n Hn. apply elem_of_elements in Hn. rewrite Huv4 in Hn. by apply (Hknown n). }
    exists s5. split; [exact E5|].
    pose proof (keeps_for_each (⊆) (λ st : State, _varmap (base st))
                  (elements (user_vars (base s4))) (fill_value sol)) as Hg.
    match type of E5 with _ ?s = _ => specialize (Hg ltac:(intros; unfold fill_value;
      apply keeps_bind; [apply _ | apply pum_solver_var_grows | intros; pum_frames]) s) end.
    rewrite E5 in Hg. simpl in Hg.
    unfold fill_value in E5.
    pum_frame_of (λ st : State, (solve_calls st, _objective st, cpm_status (base st))) E5.
    injection K as Hc5 Hobj5 Hst5.
    rewrite <- Hc5, <- Hobj5, <- Hst5.
    split; [done | split; [done | split; [done|]]].
    by apply (handle_of_weaken _ _ _ _ _ Hg). }
  destruct (resp_result resp) as [sol|sol| | | | | | | | | |] eqn:Er; try discriminate;
    rewrite (bind_run (classify _) _ s4 tt _ eq_refl);
    rewrite (bind_run (gets _) _ _ _ _ eq_refl); cbv beta;
    rewrite (bind_run (gets _) _ _ _ _ eq_refl); cbv beta;
    match goal with |- context [if ?c then _ else _] =>
      first [change c with true | change c with false] end;
    cbv iota.
  - destruct (Hfill sol OPTIMAL) as (s5 & E5 & Hc5 & Hobj5 & Hst5 & Hh5).
    match goal with |- context [bind ?m ?k ?s] =>
      assert (m s = (Ok tt, set_objective_value_ (Some (int_value sol h)) s5)) as Eb
    end.
    { rewrite (bind_run (attr (result_solution (Optimisation_Optimal sol))) _ _ sol _ eq_refl).
      rewrite (bind_run (classify _) _ _ tt _ eq_refl).
      change (elements (user_vars (base (upd_base (set_exitstatus OPTIMAL) s4))))
        with (elements (user_vars (base s4))).
      unfold fill_value in E5. rewrite (bind_run _ _ _ _ _ E5).
      rewrite (bind_run (gets _objective) _ s5 (_objective s5) s5 eq_refl).
      rewrite Hobj5. change (default (Num 0) (Var <$> Some o)) with (Var o).
      by rewrite (bind_run _ _ _ _ _ (solver_var_hit o h s5 Hh5)). }
    rewrite (bind_run _ _ _ _ _ Eb).
    eexists _, _, h. split; [reflexivity|]. simpl.
    by rewrite Hc5, Hc4, Hst5.
  - destruct (Hfill sol FEASIBLE) as (s5 & E5 & Hc5 & Hobj5 & Hst5 & Hh5).
    match goal with |- context [bind ?m ?k ?s] =>
      assert (m s = (Ok tt, set_objective_value_ (Some (int_value sol h)) s5)) as Eb
    end.
    { rewrite (bind_run (attr (result_solution (Optimisation_Satisfiable sol))) _ _ sol _ eq_refl).
      rewrite (bind_run (classify _) _ _ tt _ eq_refl).
      change (elements (user_vars (base (upd_base (set_exitstatus FEASIBLE) s4))))
        with (elements (user_vars (base s4))).
      unfold fill_value in E5. rewrite (bind_run _ _ _ _ _ E5).
      rewrite (bind_run (gets _objective) _ s5 (_objective s5) s5 eq_refl).
      rewrite Hobj5. change (default (Num 0) (Var <$> Some o)) with (Var o).
      by rewrite (bind_run _ _ _ _ _ (solver_var_hit o h s5 Hh5)). }
    rewrite (bind_run _ _ _ _ _ Eb).
    eexists _, _, h. split; [reflexivity|]. simpl.
    by rewrite Hc5, Hc4, Hst5.
  - rewrite (bind_run _ _ _ _ _ (pum_clear_values_spec _ _)).
    eexists _, _, h. split; [reflexivity|]. simpl. by rewrite Hc4, Hval4.
  - rewrite (bind_run _ _ _ _ _ (pum_clear_values_spec _ _)).
    eexists _, _, h. split; [reflexivity|]. simpl. by rewrite Hc4, Hval4.
Qed.

Lemma literal_predicate_weaken (m m' : gmap cpm_variable pum_expr) a p :
  m ⊆ m' → literal_predicate m a = Some p → literal_predicate m' a = Some p.
Proof.
  intros Hsub. destruct a as [|[n| |bv|]| | | | | |]; simpl; try discriminate;
    (destruct (m !! _) as [b|] eqn:E; [|discriminate]);
    by rewrite (lookup_weaken _ _ _ _ E Hsub).
Qed.

Lemma to_predicate_literal a st :
  is_literal a = true →
  ∃ p st', to_predicate lib a st = (Ok p, st')
           ∧ literal_predicate (_varmap (base st')) a = Some p.
Proof.
  intros Ha.
  assert (∃ bv, a = Var (BoolVarImpl bv) ∨ a = Var (NegBoolView bv)) as (bv & Hbv)
    by (destruct a as [|[n| |n|]| | | | | |]; try discriminate; eauto).
  destruct (pum_solver_var_ok (BoolVarImpl bv) st) as (b & s1 & E); [done|].
  pose proof (pum_solver_var_handle _ _ _ _ E) as Hh. simpl in Hh.
  assert (_ivars lib (Var (BoolVarImpl bv)) st = (Ok (PV (PumBoolAsInteger b)), s1)) as Ei.
  { change (_ivars lib (Var (BoolVarImpl bv)))
      with (let* b := solver_var (Var (BoolVarImpl bv)) in ret (PV (PumBoolAsInteger b))).
    by rewrite (bind_run _ _ _ _ _ E). }
  destruct Hbv as [-> | ->]; eexists _, s1; simpl; rewrite Hh; simpl;
    (split; [|reflexivity]); unfold to_predicate;
    rewrite (bind_run (ret _) _ st _ st eq_refl); cbv beta iota;
    rewrite (bind_run _ _ _ _ _ Ei); reflexivity.
Qed.

Lemma to_predicates_literals assum : ∀ st,
  Forall (λ a, is_literal a = true) assum →
  ∃ preds st',
    mapM (to_predicate lib) assum st = (Ok preds, st')
    ∧ Forall2 (λ a p, literal_predicate (_varmap (base st')) a = Some p) assum preds.
Proof.
  induction assum as [|a assum IH]; intros st Hl.
  - exists [], st. by split.
  - apply Forall_cons in Hl as [Ha Hl].
    destruct (to_predicate_literal a st Ha) as (p & s1 & E1 & Hp).
    destruct (IH s1 Hl) as (preds & s2 & E2 & Hps).
    exists (p :: preds), s2. split.
    + simpl. rewrite (bind_run _ _ _ _ _ E1), (bind_run _ _ _ _ _ E2). done.
    + constructor; [|done]. apply (literal_predicate_weaken (_varmap (base s1))); [|done].
      assert (keeps (⊆) (λ st : State, _varmap (base st)) (mapM (to_predicate lib) assum))
        as K.
      { apply keeps_mapM_all; [apply _|]. intros e. unfold to_predicate.
        pose proof pum_solver_var_grows. pum_frames. }
      specialize (K s1). by rewrite E2 in K.
Qed.

(** X22.  On a Pumpkin adapter in use without an objective, a [solve]
    with assumptions that are Boolean variables or their negations, and
    without a proof file, returns when the native answer is a result under
    assumptions.  It calls the native [satisfy_under_assumptions] once,
    with one predicate for each assumption, in order: [>= 1] on the native
    variable of a Boolean variable, [<= 0] for a negation.  The assumption
    map pairs these predicates with the assumptions, and a native core, if
    there is one, is kept for [get_core]. *)
Theorem pumpkin_solve_under_assumptions args resp st assum :
  pum_reachable lib st →
  _objective st = None → proof args = None →
  assumptions args = Some assum →
  Forall (λ a, is_literal a = true) assum →
  (∀ n, NumVarImpl n ∉ user_vars (base st)) →
  is_UnderAssumptionsResult (resp_result resp) = true →
  ∃ b st' preds,
    solve lib args resp st = (Ok b, st')
    ∧ Forall2 (λ a p, literal_predicate (_varmap (base st')) a = Some p) assum preds
    ∧ List.filter is_solve_call (pum_log st')
      = List.filter is_solve_call (pum_log st)
        ++ [satisfy_under_assumptions preds (kwargs args)]
    ∧ assump_map st' = Some (zip preds assum)
    ∧ b = bool_decide (is_Some (result_solution (resp_result resp)))
    ∧ exitstatus (cpm_status (base st'))
      = Some match resp_result resp with
             | UnderAssumptions_Satisfiable _ => OPTIMAL
             | UnderAssumptions_Unknown => UNKNOWN
             | _ => UNSATISFIABLE
             end
    ∧ _pum_core st'
      = Some match resp_result resp with
             | UnderAssumptions_UnsatisfiableUnderAssumptions core => Some core
             | _ => None
             end.
Proof.
  intros Hreach Hobj Hproof Hassum Hlit Hknown Hres.
  pose proof (PumCacheFacts.reachable_native lib st Hreach) as Hs.
  unfold solve.
  rewrite (bind_run (gets _) _ st _ st eq_refl).
  (* the user variables *)
  destruct (pum_solver_vars_ok (elements (user_vars (base st))) st) as (vs & s1 & E1).
  { intros n Hn. apply (Hknown n). by apply elem_of_elements. }
  rewrite (bind_run _ _ _ _ _ E1).
  assert (sound s1) as Hs1.
  { assert (keeps (preserved pum_cache_sound) pum_cache_view
              (solver_vars (Lst (Var <$> elements (user_vars (base st)))))) as K
      by pum_frames.
    specialize (K st). rewrite E1 in K. by apply K. }
  pum_frame_of (λ st : State, (solve_calls st, _objective st, user_vars (base st))) E1. injection K as Hc1 Hobj1 Huv1.
  rewrite Hproof.
  rewrite (bind_run (ret tt) _ s1 tt s1 eq_refl).
  unfold bind at 1, has_objective at 1, gets at 1; cbv beta iota.
  rewrite <- Hobj1, Hobj, Hassum.
  change (bool_decide (is_Some (@None cpm_variable))) with false. cbv iota.
  change (bool_decide (is_Some (Some assum))) with true. cbv iota.
  (* the predicates of the assumptions *)
  destruct (to_predicates_literals assum s1 Hlit) as (preds & s2 & E2 & Hpreds).
  assert (sound s2) as Hs2.
  { assert (keeps (preserved pum_cache_sound) pum_cache_view (mapM (to_predicate lib) assum))
      as K by pum_frames.
    specialize (K s1). rewrite E2 in K. by apply K. }
  pum_frame_of (λ st : State, (solve_calls st, _objective st, user_vars (base st))) E2. injection K as Hc2 Hobj2 Huv2.
  match goal with |- context [bind ?m ?k s1] =>
    assert (m s1 = (Ok (satisfy_under_assumptions preds (kwargs args)),
                    set_assump_map (Some (zip preds assum)) s2)) as Ecall
  end.
  { rewrite bool_decide_eq_true_2 by done.
    rewrite (bind_run (assert true) _ s1 tt s1 eq_refl).
    by rewrite (bind_run _ _ _ _ _ E2). }
  rewrite (bind_run _ _ _ _ _ Ecall). clear Ecall.
  rewrite (bind_run (modify _) _ _ tt _ eq_refl).
  rewrite (bind_run (native _) _ _ tt _ eq_refl).
  rewrite (bind_run (modify _) _ _ tt _ eq_refl).
  match goal with |- context [bind _ _ ?s] => set (s4 := s) end.
  assert (sound s4) as Hs4 by (subst s4; simpl; by rewrite List.filter_app, app_nil_r).
  assert (_varmap (base s4) = _varmap (base s2)) as Hm4 by done.
  assert (solve_calls s4
          = solve_calls st ++ [satisfy_under_assumptions preds (kwargs args)]) as Hc4.
  { subst s4. simpl. rewrite List.filter_app. simpl. congruence. }
  assert (user_vars (base s4) = user_vars (base st)) as Huv4 by (subst s4; simpl; congruence).
  assert (assump_map s4 = Some (zip preds assum)) as Hmap4 by done.
  assert (_pum_core s4 = Some None) as Hcore4 by done.
  clearbody s4.
  destruct (resp_result resp) as [sol'|sol'| | |sol'| | |sol| |core| |] eqn:Er; try discriminate;
    [ rewrite (bind_run (classify _) _ s4 tt _ eq_refl)
    | rewrite (bind_run (classify _) _ s4 tt _ eq_refl)
    | rewrite (bind_run (classify UNSATISFIABLE ;; modify _) _ s4 tt _ eq_refl)
    | rewrite (bind_run (classify _) _ s4 tt _ eq_refl) ];
    rewrite (bind_run (gets _) _ _ _ _ eq_refl); cbv beta;
    rewrite (bind_run (gets _) _ _ _ _ eq_refl); cbv beta;
    match goal with |- context [if ?c then _ else _] =>
      first [change c with true | change c with false] end;
    cbv iota.
  - (* Satisfiable *)
    destruct (fill_values_kind sol (elements (user_vars (base s4)))
                (upd_base (set_exitstatus OPTIMAL) (upd_base (set_exitstatus OPTIMAL) s4)))
      as (s5 & E5); [done | | ].
    { intros n Hn. apply elem_of_elements in Hn. rewrite Huv4 in Hn.
      by apply (Hknown n). }
    pose proof (keeps_for_each (⊆) (λ st : State, _varmap (base st))
                  (elements (user_vars (base s4))) (fill_value sol)) as Hg.
    match type of E5 with _ ?s = _ => specialize (Hg ltac:(intros; unfold fill_value;
      apply keeps_bind; [apply _ | apply pum_solver_var_grows | intros; pum_frames]) s) end.
    rewrite E5 in Hg. simpl in Hg.
    unfold fill_value in E5.
    pum_frame_of (λ st : State, (solve_calls st, assump_map st, _pum_core st,
                                 cpm_status (base st))) E5.
    injection K as Hc5 Hmap5 Hcore5 Hst5.
    match goal with |- context [bind ?m ?k ?s] =>
      assert (m s = (Ok tt, s5)) as Eb
    end.
    { rewrite (bind_run (attr (result_solution (UnderAssumptions_Satisfiable sol))) _ _
                 sol _ eq_refl).
      rewrite (bind_run (classify _) _ _ tt _ eq_refl).
      change (elements (user_vars (base (upd_base (set_exitstatus OPTIMAL) s4))))
        with (elements (user_vars (base s4))).
      by rewrite (bind_run _ _ _ _ _ E5). }
    rewrite (bind_run _ _ _ _ _ Eb).
    eexists _, _, preds. split; [reflexivity|]. simpl.
    rewrite <- Hc5, <- Hmap5, <- Hcore5, <- Hst5. simpl.
    split; [|by rewrite Hc4].
    eapply Forall2_impl; [exact Hpreds|]. intros a p Hp.
    apply (literal_predicate_weaken (_varmap (base s2))); [by rewrite <- Hm4 | done].
  - (* Unsatisfiable *)
    rewrite (bind_run _ _ _ _ _ (pum_clear_values_spec _ _)).
    eexists _, _, preds. split; [reflexivity|]. simpl. rewrite Hm4. by rewrite Hc4.
  - (* Unsatisfiable under the assumptions *)
    rewrite (bind_run _ _ _ _ _ (pum_clear_values_spec _ _)).
    eexists _, _, preds. split; [reflexivity|]. simpl. rewrite Hm4. by rewrite Hc4.
  - (* Unknown *)
    rewrite (bind_run _ _ _ _ _ (pum_clear_values_spec _ _)).
    eexists _, _, preds. split; [reflexivity|]. simpl. rewrite Hm4. by rewrite Hc4.
Qed.

End WithLib.

(** [solve()] after [minimize(x)] on a fresh adapter, answered with an
    optimal solution in which every integer is 0. *)
Lemma pumpkin_optimise_once_sample :
  let o := IntVarImpl "IV0" 0 10 in
  let resp := Scenarios.pum_resp (Optimisation_Optimal Scenarios.pum_solution0) in
  pum_reachable Samples.lib0 Scenarios.pum_minimizing
  ∧ _objective Scenarios.pum_minimizing = Some o
  ∧ ∃ b st' h,
      solve Samples.lib0 Scenarios.pum_plain resp Scenarios.pum_minimizing = (Ok b, st')
      ∧ handle_of PumNegate (_varmap (base st')) o = Some h
      ∧ List.filter is_solve_call (pum_log st')
        = List.filter is_solve_call (pum_log Scenarios.pum_minimizing)
          ++ [optimise None h (objective_is_min Scenarios.pum_minimizing) []]
      ∧ b = true
      ∧ exitstatus (cpm_status (base st')) = Some OPTIMAL
      ∧ objective_value_ st' = Some 0.
Proof.
  intros o resp.
  assert (pum_reachable Samples.lib0 Scenarios.pum_minimizing) as Hr
    by apply (pum_reach_objective Samples.lib0 10 (Var Samples.x) true init), pum_reach_init.
  assert (_objective Scenarios.pum_minimizing = Some o) as Ho by (vm_compute; reflexivity).
  split; [exact Hr | split; [exact Ho|]].
  apply (pumpkin_optimise_once Samples.lib0 Scenarios.pum_plain resp
           Scenarios.pum_minimizing o Hr Ho); done.
Defined.

(** [solve(assumptions=[a])] on a fresh adapter, answered with a core. *)
Lemma pumpkin_solve_under_assumptions_sample :
  let resp := Scenarios.pum_resp
                (UnderAssumptions_UnsatisfiableUnderAssumptions [Scenarios.pum_a_holds]) in
  pum_reachable Samples.lib0 init
  ∧ ∃ b st' preds,
      solve Samples.lib0 Scenarios.pum_assuming resp init = (Ok b, st')
      ∧ Forall2 (λ a p, literal_predicate (_varmap (base st')) a = Some p)
          [Var Samples.a] preds
      ∧ List.filter is_solve_call (pum_log st')
        = List.filter is_solve_call (pum_log init) ++ [satisfy_under_assumptions preds []]
      ∧ assump_map st' = Some (zip preds [Var Samples.a])
      ∧ b = false
      ∧ exitstatus (cpm_status (base st')) = Some UNSATISFIABLE
      ∧ _pum_core st' = Some (Some [Scenarios.pum_a_holds]).
Proof.
  intros resp. split; [apply pum_reach_init|].
  apply (pumpkin_solve_under_assumptions Samples.lib0 Scenarios.pum_assuming resp init
           [Var Samples.a] (pum_reach_init Samples.lib0)); try done.
  by repeat constructor.
Defined.

End PumOptimiseFacts.

(** ** What adding to Pumpkin never touches *)
Module PumFrameFacts.
Import Pumpkin PumFacts.

Section WithLib.
Context (lib : CpmLib).

#[local] Abbreviation solved :=
  (λ st : State, (List.filter is_solve_call (pum_log st), cpm_status (base st),
                  _value (base st), objective_value_ st, assump_map st, _pum_core st,
                  prefix st)).

Ltac solved_keeps :=
  repeat first
    [ progress eauto with keeps
    | lazymatch goal with
      | |- keeps _ _ (modify _) =>
          apply keeps_modify; intros ?; simpl;
          first [reflexivity | rewrite List.filter_app; simpl; by rewrite app_nil_r]
      end
    | keeps_step
    | lazymatch goal with
      | |- keeps _ _ (solver_vars _) => apply pum_keeps_solver_vars; [typeclasses eauto | intros ?]
      | |- keeps _ _ (_ivars _ _) => apply keeps__ivars; [typeclasses eauto | intros ? | intros ? ?]
      | |- keeps _ _ (to_predicate _ _) => unfold to_predicate
      | |- keeps _ _ (transform _ _) => unfold transform
      | |- keeps _ _ (_get_constraint _ _ _) =>
          apply PumAdd.get_constraint_frame; [typeclasses eauto | intros ? | intros ? ? | | intros ?]
      end
    | progress autounfold with adapter ].

Lemma add_solved fuel e : keeps eq solved (__add__ lib fuel e).
Proof. unfold __add__. solved_keeps. Qed.

Lemma objective_solved fuel expr minimize : keeps eq solved (objective lib fuel expr minimize).
Proof.
  unfold objective. destruct (get_bounds lib expr) as [lb ub].
  pose proof add_solved. solved_keeps.
Qed.

(** X23.  Adding constraints and setting objectives never calls a native
    solve of Pumpkin and never touches what a solve left: across any
    sequence of [__add__] and [objective] calls, with or without errors,
    the native solve calls, the status, the values of the variables, the
    objective value, the assumption map, the core and the proof prefix
    stay as they are. *)
Theorem pumpkin_adding_leaves_the_solve fuel cs st :
  let st' := pum_calls lib fuel cs st in
  List.filter is_solve_call (pum_log st') = List.filter is_solve_call (pum_log st)
  ∧ cpm_status (base st') = cpm_status (base st)
  ∧ _value (base st') = _value (base st)
  ∧ objective_value_ st' = objective_value_ st
  ∧ assump_map st' = assump_map st
  ∧ _pum_core st' = _pum_core st
  ∧ prefix st' = prefix st.
Proof.
  assert (solved (pum_calls lib fuel cs st) = solved st) as H.
  { revert st. induction cs as [|c cs IH]; intros st; [done|].
    simpl. rewrite IH. symmetry.
    destruct c as [e|e minimize]; [apply (add_solved fuel e st)|].
    apply (objective_solved fuel e minimize st). }
  cbv zeta. by injection H as -> -> -> -> -> -> ->.
Qed.

End WithLib.
End PumFrameFacts.

(** ** The parameter suggestions and the constructors *)
Module ParamsFacts.
Import Utils UtilsSpec.

(** X24.  The hyperparameter search that [param_combinations] runs over
    [CPM_ortools.tunable_params()] visits the default parameters: the two
    dicts have the same keys in the same order, every default value is
    one of the values suggested for its key, and so [default_params()] is
    one of the 2*7*4*3*3*4*2*2*5*4*2 = 322560 dicts yielded. *)
Theorem default_params_are_tunable :
  Constructors.default_params.*1 = Constructors.tunable_params.*1
  ∧ (∀ k v, (k, v) ∈ Constructors.default_params →
       ∃ vs, (k, vs) ∈ Constructors.tunable_params ∧ v ∈ vs)
  ∧ (∃ g, param_combinations Constructors.tunable_params None None = (Ok tt, g)
          ∧ length (yielded g)
            = (2 * (7 * (4 * (3 * (3 * (4 * (2 * (2 * (5 * (4 * (2 * 1)))))))))))%nat
          ∧ list_to_map (M := gmap string pyvalue) Constructors.default_params ∈ yielded g).
Proof.
  assert (NoDup Constructors.tunable_params.*1) as Hnd
    by (apply (bool_decide_unpack _); vm_compute; exact I).
  assert (∀ k v, (k, v) ∈ Constructors.default_params →
            ∃ vs, (k, vs) ∈ Constructors.tunable_params ∧ v ∈ vs) as Hin.
  { intros k v Hkv. unfold Constructors.default_params in Hkv.
    repeat (apply elem_of_cons in Hkv as [[= -> ->]|Hkv];
            [eexists; unfold Constructors.tunable_params; split;
               solve [repeat first [apply list_elem_of_here | apply list_elem_of_further]]|]).
    by apply elem_of_nil in Hkv. }
  split; [reflexivity | split; [exact Hin|]].
  assert (∀ k, is_Some (list_to_map (M := gmap string pyvalue) Constructors.default_params !! k) →
            k ∈ Constructors.tunable_params.*1) as Hdom.
  { intros k [v Hv]. apply elem_of_list_to_map_2 in Hv.
    change (k ∈ Constructors.default_params.*1).
    apply list_elem_of_fmap. by exists (k, v). }
  assert (∀ k vs, (k, vs) ∈ Constructors.tunable_params →
            ∃ v, v ∈ vs
                 ∧ list_to_map (M := gmap string pyvalue) Constructors.default_params !! k
                   = Some v) as Hval.
  { intros k vs Hkvs. unfold Constructors.tunable_params in Hkvs.
    repeat (apply elem_of_cons in Hkvs as [[= -> ->]|Hkvs];
            [eexists; split; [|vm_compute; reflexivity];
             solve [repeat first [apply list_elem_of_here | apply list_elem_of_further]]|]).
    by apply elem_of_nil in Hkvs. }
  assert (Constructors.tunable_params ≠ []) as Hne by discriminate.
  assert (foldr (λ p n, length p.2 * n)%nat 1%nat Constructors.tunable_params
          = (2 * (7 * (4 * (3 * (3 * (4 * (2 * (2 * (5 * (4 * (2 * 1)))))))))))%nat)
    as Hcount
    by (unfold Constructors.tunable_params; cbn [foldr snd length]; reflexivity).
  revert Hnd Hcount Hdom Hval Hne. clear Hin.
  generalize Constructors.tunable_params as tp.
  generalize (list_to_map (M := gmap string pyvalue) Constructors.default_params) as d.
  intros d tp Hnd Hcount Hdom Hval Hne.
  destruct (ParamFacts.param_combinations_from_spec tp tp Hnd (λ _ H, H) Hnd Hne
              {| cur_params := ∅; yielded := [] |}) as (cur' & E & _).
  eexists. split; [exact E|]. cbn [yielded cur_params app]. split.
  - rewrite length_fmap, ParamFacts.combinations_length. exact Hcount.
  - clear Hcount. apply list_elem_of_fmap. exists d.
    split; [symmetry; apply (right_id_L ∅ (∪))|].
    apply (ParamFacts.combinations_elem _ _ Hnd). split; [exact Hdom | exact Hval].
Qed.

(** X25.  Neither adapter takes a subsolver.  [SolverLookup.get] of
    [ortools:sub] or [pumpkin:sub] finds the class and hands [sub] to its
    constructor, which raises: Exception where the solver is not
    installed, AssertionError otherwise.  Where the solver is installed,
    [get] of the plain name, and of no name at all for OR-Tools, makes
    the fresh adapter. *)
Theorem subsolver_is_refused (installed : bool) (sub : string) :
  get (Some ("ortools:" +:+ sub)) = Ok (Utils.CPM_ortools, Some sub)
  ∧ get (Some ("pumpkin:" +:+ sub)) = Ok (Utils.CPM_pumpkin, Some sub)
  ∧ Constructors.CPM_ortools installed (Some sub)
    = Raise (if installed then AssertionError else Exception)
  ∧ Constructors.CPM_pumpkin installed (Some sub)
    = Raise (if installed then AssertionError else Exception)
  ∧ get None = Ok (Utils.CPM_ortools, None)
  ∧ get (Some "ortools") = Ok (Utils.CPM_ortools, None)
  ∧ get (Some "pumpkin") = Ok (Utils.CPM_pumpkin, None)
  ∧ Constructors.CPM_ortools true None = Ok Ortools.init
  ∧ Constructors.CPM_pumpkin true None = Ok Pumpkin.init.
Proof.
  destruct (LookupFacts.split_at_first_colon "ortools" sub eq_refl) as (_ & Ho & _).
  destruct (LookupFacts.split_at_first_colon "pumpkin" sub eq_refl) as (_ & Hp & _).
  split; [exact Ho | split; [exact Hp|]].
  by destruct installed.
Qed.

End ParamsFacts.

